(** * A shallow embedding of the Rubik's cube solver

    The development follows the Python sources:
    - [src/core/moves.py]   -> Module [MoveEngine]
    - [src/core/cube.py]    -> Module [RubikCube]
    - [src/algorithms/utils.py]      -> Modules [SearchStatistics], [MoveOptimizer],
      [utils]
    - [src/algorithms/heuristics.py] -> Module [Heuristics]
    - [src/algorithms/astar_solver.py] -> Module [AStarSolver]

    A numpy array of labels is a [list Z]; in-place writes are explicit
    state passing; Python exceptions are the left summand of a result;
    cube objects that the solver copies and mutates live in a store of
    objects addressed by references. *)

From Stdlib Require Import ZArith List String Ascii Bool Lia Permutation DecimalString.
From Stdlib Require Import Floats.PrimFloat Floats.FloatOps Floats.SpecFloat Uint63.
From stdpp Require Import base tactics option list.
Import ListNotations.
Local Open Scope string_scope.
Local Open Scope list_scope.
Local Open Scope nat_scope.

(** ** Exceptions and results *)

Inductive exn : Type :=
| ValueError (msg : string)
| KeyError (key : string)
| IndexError.

Definition result (A : Type) : Type := (exn + A)%type.
Abbreviation Ok := (@inr exn _).
Abbreviation Raise := (@inl exn _).

Definition rbind {A B} (r : result A) (k : A -> result B) : result B :=
  match r with
  | inl e => inl e
  | inr a => k a
  end.

(** ** numpy arrays of labels *)

Module ndarray.

Definition t : Type := list Z.

(** [state[i]] *)
Definition get (a : t) (i : nat) : Z := nth i a 0%Z.

(** [state[i] = v] *)
Definition set (a : t) (i : nat) (v : Z) : t := <[i:=v]> a.

(** [state[lo:hi]] *)
Definition slice (a : t) (lo hi : nat) : t := take (hi - lo) (drop lo a).

(** [state[lo:hi] = vs], for [vs] of [hi - lo] labels *)
Definition set_slice (a : t) (lo hi : nat) (vs : t) : t :=
  take lo a ++ vs ++ drop hi a.

(** [state[[i0, i1, i2]] = [v0, v1, v2]] and the tuple assignment
    [state[i0], state[i1], state[i2] = v0, v1, v2]: the right-hand side is
    evaluated first, then the writes happen left to right. *)
Fixpoint set_indices (a : t) (idxs : list nat) (vs : list Z) : t :=
  match idxs, vs with
  | i :: idxs', v :: vs' => set_indices (set a i v) idxs' vs'
  | _, _ => a
  end.

(** [[state[i] for i in idxs]] *)
Definition gets (a : t) (idxs : list nat) : list Z := map (get a) idxs.

(** [np.rot90(face, -1).flatten()] of a 3x3 view given row-major:
    entry (i, j) of the result is entry (2 - j, i) of the face. *)
Definition rot90_clockwise (face : t) : t :=
  map (fun k => get face (3 * (2 - k mod 3) + k / 3)) (seq 0 9).

(** [np.rot90(face, 1).flatten()]: entry (i, j) of the result is entry
    (j, 2 - i) of the face. *)
Definition rot90_counterclockwise (face : t) : t :=
  map (fun k => get face (3 * (k mod 3) + (2 - k / 3))) (seq 0 9).

(** [np.array_equal(a, b)] *)
Fixpoint array_equal (a b : t) : bool :=
  match a, b with
  | [], [] => true
  | x :: a', y :: b' => Z.eqb x y && array_equal a' b'
  | _, _ => false
  end.



End ndarray.

(** Python's [str] and [int] on integers and digits. *)
Module pyint.

(** [str(n)]: the decimal numeral, with a minus sign for a negative [n]. *)
Definition str (n : Z) : string := NilZero.string_of_int (Z.to_int n).

(** A lowercase hexadecimal digit. *)
Definition hex_digit (d : nat) : ascii :=
  ascii_of_nat (if d <? 10 then 48 + d else 87 + d).

(** [repr(c)] for a one-character string [c], a character being a code point
    below 256: single quotes around the character, double quotes around a
    single quote; the backslash, tab, newline and carriage return are
    escaped by a backslash, the other characters that are not printable
    (below 32, 127 to 160, and 173) as [\xhh]. *)
Definition repr (c : ascii) : string :=
  let n := nat_of_ascii c in
  let quote := String (ascii_of_nat 39) EmptyString in
  let double_quote := String (ascii_of_nat 34) EmptyString in
  let backslash := ascii_of_nat 92 in
  if n =? 39 then String.append double_quote (String.append quote double_quote)
  else
    let body :=
      if n =? 92 then String backslash (String backslash EmptyString)
      else if n =? 9 then String backslash "t"
      else if n =? 10 then String backslash "n"
      else if n =? 13 then String backslash "r"
      else if (n <? 32) || ((127 <=? n) && (n <=? 160)) || (n =? 173) then
        String backslash
          (String "x" (String (hex_digit (n / 16)) (String (hex_digit (n mod 16)) EmptyString)))
      else String c EmptyString in
    String.append quote (String.append body quote).

(** [int(c)] for a one-character string [c]: the digit's value, or the
    [ValueError] of an invalid literal. *)
Definition int (c : ascii) : exn + Z :=
  let n := nat_of_ascii c in
  if (48 <=? n) && (n <=? 57) then inr (Z.of_nat (n - 48))
  else inl (ValueError (String.append "invalid literal for int() with base 10: "
                                      (repr c))).

End pyint.

(** ** src/core/moves.py *)

Module MoveEngine.
Import ndarray.

(** The array handed to a move is a cube's state, of 54 labels:
    [RubikCube.__init__] checks the length and no method changes it. On an
    array of another length numpy raises where a slice or the [reshape(3, 3)]
    does not fit; the definitions below do not model that, and every
    statement about moves is about arrays of 54 labels. *)

Definition _rotate_face_clockwise (state : t) (face_idx : nat) : t :=
  let face_start := face_idx * 9 in
  let face := slice state face_start (face_start + 9) in
  let rotated := rot90_clockwise face in
  set_slice state face_start (face_start + 9) rotated.

(** The source assigns [rotated = np.rot90(face, 1)] twice in a row; the
    second assignment recomputes the same value from the same [face]. *)
Definition _rotate_face_counterclockwise (state : t) (face_idx : nat) : t :=
  let face_start := face_idx * 9 in
  let face := slice state face_start (face_start + 9) in
  let rotated := rot90_counterclockwise face in
  let rotated := rot90_counterclockwise face in
  set_slice state face_start (face_start + 9) rotated.

Definition _move_U (state : t) : t :=
  let state := _rotate_face_clockwise state 4 in
  let temp := slice state 0 3 in
  let state := set_slice state 0 3 (slice state 27 30) in
  let state := set_slice state 27 30 (slice state 18 21) in
  let state := set_slice state 18 21 (slice state 9 12) in
  set_slice state 9 12 temp.

Definition _move_U_prime (state : t) : t :=
  let state := _rotate_face_counterclockwise state 4 in
  let temp := slice state 0 3 in
  let state := set_slice state 0 3 (slice state 9 12) in
  let state := set_slice state 9 12 (slice state 18 21) in
  let state := set_slice state 18 21 (slice state 27 30) in
  set_slice state 27 30 temp.

Definition _move_U2 (state : t) : t := _move_U (_move_U state).

Definition _move_D (state : t) : t :=
  let state := _rotate_face_clockwise state 5 in
  let temp := slice state 6 9 in
  let state := set_slice state 6 9 (slice state 15 18) in
  let state := set_slice state 15 18 (slice state 24 27) in
  let state := set_slice state 24 27 (slice state 33 36) in
  set_slice state 33 36 temp.

Definition _move_D_prime (state : t) : t :=
  let state := _rotate_face_counterclockwise state 5 in
  let temp := slice state 6 9 in
  let state := set_slice state 6 9 (slice state 33 36) in
  let state := set_slice state 33 36 (slice state 24 27) in
  let state := set_slice state 24 27 (slice state 15 18) in
  set_slice state 15 18 temp.

Definition _move_D2 (state : t) : t := _move_D (_move_D state).

Definition _move_L (state : t) : t :=
  let state := _rotate_face_clockwise state 3 in
  let temp := gets state [0; 3; 6] in
  let state := set_indices state [0; 3; 6] (gets state [45; 48; 51]) in
  let state := set_indices state [45; 48; 51] (gets state [24; 21; 18]) in
  let state := set_indices state [24; 21; 18] (gets state [36; 39; 42]) in
  set_indices state [36; 39; 42] temp.

Definition _move_L_prime (state : t) : t :=
  let state := _rotate_face_counterclockwise state 3 in
  let temp := gets state [0; 3; 6] in
  let state := set_indices state [0; 3; 6] (gets state [36; 39; 42]) in
  let state := set_indices state [36; 39; 42] (gets state [24; 21; 18]) in
  let state := set_indices state [24; 21; 18] (gets state [45; 48; 51]) in
  set_indices state [45; 48; 51] temp.

Definition _move_L2 (state : t) : t := _move_L (_move_L state).

Definition _move_R (state : t) : t :=
  let state := _rotate_face_clockwise state 1 in
  let temp := gets state [2; 5; 8] in
  let state := set_indices state [2; 5; 8] (gets state [38; 41; 44]) in
  let state := set_indices state [38; 41; 44] (gets state [20; 23; 26]) in
  let state := set_indices state [20; 23; 26] (gets state [47; 50; 53]) in
  set_indices state [47; 50; 53] temp.

Definition _move_R_prime (state : t) : t :=
  let state := _rotate_face_counterclockwise state 1 in
  let temp := gets state [2; 5; 8] in
  let state := set_indices state [2; 5; 8] (gets state [47; 50; 53]) in
  let state := set_indices state [47; 50; 53] (gets state [20; 23; 26]) in
  let state := set_indices state [20; 23; 26] (gets state [38; 41; 44]) in
  set_indices state [38; 41; 44] temp.

Definition _move_R2 (state : t) : t := _move_R (_move_R state).

Definition _move_F (state : t) : t :=
  let state := _rotate_face_clockwise state 0 in
  let temp := gets state [42; 43; 44] in
  let state := set_indices state [42; 43; 44] (gets state [35; 32; 29]) in
  let state := set_indices state [35; 32; 29] (gets state [47; 46; 45]) in
  let state := set_indices state [47; 46; 45] (gets state [9; 12; 15]) in
  set_indices state [9; 12; 15] (gets temp [2; 1; 0]).

Definition _move_F_prime (state : t) : t :=
  let state := _rotate_face_counterclockwise state 0 in
  let temp := gets state [42; 43; 44] in
  let state := set_indices state [42; 43; 44] (gets state [9; 12; 15]) in
  let state := set_indices state [9; 12; 15] (gets state [47; 46; 45]) in
  let state := set_indices state [47; 46; 45] (gets state [35; 32; 29]) in
  set_indices state [35; 32; 29] (gets temp [2; 1; 0]).

Definition _move_F2 (state : t) : t := _move_F (_move_F state).

Definition _move_B (state : t) : t :=
  let state := _rotate_face_clockwise state 2 in
  let temp := gets state [0; 1; 2] in
  let state := set_indices state [0; 1; 2] (gets state [9; 10; 11]) in
  let state := set_indices state [9; 10; 11] (gets state [53; 52; 51]) in
  let state := set_indices state [53; 52; 51] (gets state [35; 34; 33]) in
  set_indices state [35; 34; 33] temp.

Definition _move_B_prime (state : t) : t :=
  let state := _rotate_face_counterclockwise state 2 in
  let temp := gets state [0; 1; 2] in
  let state := set_indices state [0; 1; 2] (gets state [35; 34; 33]) in
  let state := set_indices state [35; 34; 33] (gets state [53; 52; 51]) in
  let state := set_indices state [53; 52; 51] (gets state [9; 10; 11]) in
  set_indices state [9; 10; 11] temp.

Definition _move_B2 (state : t) : t := _move_B (_move_B state).

(** The dictionary [self.moves], in insertion order. *)
Definition moves : list (string * (t -> t)) :=
  [ ("U", _move_U); ("U'", _move_U_prime); ("U2", _move_U2);
    ("D", _move_D); ("D'", _move_D_prime); ("D2", _move_D2);
    ("L", _move_L); ("L'", _move_L_prime); ("L2", _move_L2);
    ("R", _move_R); ("R'", _move_R_prime); ("R2", _move_R2);
    ("F", _move_F); ("F'", _move_F_prime); ("F2", _move_F2);
    ("B", _move_B); ("B'", _move_B_prime); ("B2", _move_B2) ].

(** Lookup in a Python dict given as its list of items. *)
Fixpoint dict_get {V} (d : list (string * V)) (k : string) : option V :=
  match d with
  | [] => None
  | (k', v) :: d' => if String.eqb k k' then Some v else dict_get d' k
  end.

Definition get_all_moves : list string := map fst moves.

Definition is_valid_move (move : string) : bool :=
  match dict_get moves move with Some _ => true | None => false end.

Definition apply_move (state : t) (move : string) : result t :=
  if negb (is_valid_move move) then Raise (ValueError (String.append "Invalid move: " move))
  else
    let new_state := state in
    match dict_get moves move with
    | Some f => Ok (f new_state)
    | None => Raise (KeyError move)
    end.

End MoveEngine.

(** ** src/core/cube.py *)

Module RubikCube.
Import ndarray.

(** The attributes of a cube object; the [MoveEngine] it holds has no state
    of its own. *)
Record t : Type := mk {
  state : ndarray.t;
  move_history : list string;
  move_count : Z
}.


Definition with_move_history (self : t) (h : list string) : t :=
  {| state := state self; move_history := h; move_count := move_count self |}.

(** [np.zeros(54)] overwritten by the two nested loops. *)
Definition _create_solved_state : ndarray.t :=
  fold_left
    (fun state face =>
       fold_left (fun state square => set state (face * 9 + square) (Z.of_nat face))
                 (seq 0 9) state)
    (seq 0 6) (repeat 0%Z 54).

(** [RubikCube(state)]; [None] is the default argument. *)
Definition __init__ (state : option ndarray.t) : result t :=
  match state with
  | Some state =>
      if negb (length state =? 54) then
        Raise (ValueError "State must have exactly 54 elements")
      else Ok {| state := state; move_history := []; move_count := 0 |}
  | None =>
      Ok {| state := _create_solved_state; move_history := []; move_count := 0 |}
  end.

(** The 3x3 view, row-major. *)
Definition get_face (self : t) (face_idx : Z) : result ndarray.t :=
  if negb ((0 <=? face_idx)%Z && (face_idx <? 6)%Z) then
    Raise (ValueError "Face index must be between 0 and 5")
  else
    let f := Z.to_nat face_idx in
    Ok (slice (state self) (f * 9) ((f + 1) * 9)).

Definition execute_move (self : t) (move : string) : result t :=
  if negb (MoveEngine.is_valid_move move) then
    Raise (ValueError (String.append "Invalid move: " move))
  else
    rbind (MoveEngine.apply_move (state self) move) (fun new_state =>
    Ok {| state := new_state;
          move_history := move_history self ++ [move];
          move_count := (move_count self + 1)%Z |}).

(** A move that raises leaves the object as the moves before it made it. *)
Fixpoint execute_sequence (self : t) (moves : list string) : result unit * t :=
  match moves with
  | [] => (Ok tt, self)
  | move :: moves' =>
      match execute_move self move with
      | inl e => (Raise e, self)
      | inr self' => execute_sequence self' moves'
      end
  end.

Definition is_solved (self : t) : bool :=
  let solved_state := _create_solved_state in
  array_equal (state self) solved_state.

Definition reverse_map : list (string * string) :=
  [ ("U", "U'"); ("U'", "U"); ("U2", "U2");
    ("D", "D'"); ("D'", "D"); ("D2", "D2");
    ("L", "L'"); ("L'", "L"); ("L2", "L2");
    ("R", "R'"); ("R'", "R"); ("R2", "R2");
    ("F", "F'"); ("F'", "F"); ("F2", "F2");
    ("B", "B'"); ("B'", "B"); ("B2", "B2") ].

Definition _is_reverse_move (move1 : string) (move2 : option string) : bool :=
  match move2 with
  | None => false
  | Some move2 =>
      String.eqb move1
        (match MoveEngine.dict_get reverse_map move2 with
         | Some r => r
         | None => ""
         end)
  end.

Definition copy (self : t) : result t :=
  rbind (__init__ (Some (state self))) (fun new_cube =>
  Ok (with_move_history new_cube (move_history self))).

Definition reset (self : t) : t :=
  {| state := _create_solved_state; move_history := []; move_count := move_count self |}.

Definition get_move_count (self : t) : Z := Z.of_nat (length (move_history self)).


(** [''.join(map(str, self.state))] *)
Definition get_state_string (self : t) : string :=
  String.concat "" (map pyint.str (state self)).

Definition __eq__ (self other : t) : bool := array_equal (state self) (state other).

(** Python's [hash] of a string is outside the repository: an arbitrary
    function of the string. *)
Section Hash.
Variable hash : string -> Z.

Definition __hash__ (self : t) : Z := hash (get_state_string self).

End Hash.

(** *** scramble

    [np.random] is numpy's global generator, outside the repository: its
    state is a value of an arbitrary type [rng], [np.random.seed] either
    installs the state derived from the seed or raises, and
    [np.random.choice] picks an element and advances the state. *)
Section Scramble.
Variable rng : Type.
Variable np_random_seed : Z -> result rng.
Variable np_random_choice : rng -> list string -> string * rng.

Fixpoint scramble_loop (iterations : nat) (moves : list string) (self : t)
    (scramble_moves : list string) (last_move : option string) (g : rng)
  : result (list string) * t * rng :=
  match iterations with
  | O => (Ok scramble_moves, self, g)
  | S iterations' =>
      let valid_moves :=
        List.filter (fun m => negb (_is_reverse_move m last_move)) moves in
      let '(move, g) := np_random_choice g valid_moves in
      match execute_move self move with
      | inl e => (Raise e, self, g)
      | inr self =>
          scramble_loop iterations' moves self (scramble_moves ++ [move]) (Some move) g
      end
  end.

(** [range(num_moves)] is empty for a negative [num_moves]. *)
Definition scramble (self : t) (num_moves : Z) (seed : option Z) (g : rng)
  : result (list string) * t * rng :=
  let seeded :=
    match seed with
    | Some seed => np_random_seed seed
    | None => Ok g
    end in
  match seeded with
  | inl e => (Raise e, self, g)
  | inr g =>
      let moves := MoveEngine.get_all_moves in
      scramble_loop (Z.to_nat num_moves) moves self [] None g
  end.
End Scramble.

End RubikCube.

(** ** src/algorithms/utils.py *)

Module SearchStatistics.

Record t : Type := mk {
  nodes_explored : Z;
  solution_found : bool;
  solution_length : Z;
  solve_time : float;
  max_depth_reached : Z
}.

(** The dataclass defaults. *)
Definition __init__ : t :=
  {| nodes_explored := 0; solution_found := false; solution_length := 0;
     solve_time := 0%float; max_depth_reached := 0 |}.

Definition reset (self : t) : t :=
  {| nodes_explored := 0; solution_found := false; solution_length := 0;
     solve_time := 0%float; max_depth_reached := 0 |}.

End SearchStatistics.

(** Python string operations used on move symbols. *)
Module pystr.

(** [s[0]] *)
Definition index0 (s : string) : result string :=
  match s with
  | EmptyString => Raise IndexError
  | String c _ => Ok (String c EmptyString)
  end.

(** [s.endswith(c)] for a one-character suffix *)
Fixpoint endswith (s : string) (c : ascii) : bool :=
  match s with
  | EmptyString => false
  | String a EmptyString => Ascii.eqb a c
  | String _ s' => endswith s' c
  end.

End pystr.

Module MoveOptimizer.

Definition move_values : list (string * Z) :=
  [ ("U", 1); ("U'", -1); ("U2", 2);
    ("D", 1); ("D'", -1); ("D2", 2);
    ("L", 1); ("L'", -1); ("L2", 2);
    ("R", 1); ("R'", -1); ("R2", 2);
    ("F", 1); ("F'", -1); ("F2", 2);
    ("B", 1); ("B'", -1); ("B2", 2) ]%Z.

(** The inner [while j < len(moves) and moves[j][0] == face]: the moves
    appended to [consecutive_moves] and the moves from index [j] on. *)
Fixpoint consecutive (face : string) (moves : list string)
  : result (list string * list string) :=
  match moves with
  | [] => Ok ([], [])
  | m :: moves' =>
      rbind (pystr.index0 m) (fun f =>
      if String.eqb f face then
        rbind (consecutive face moves') (fun '(run, rest) => Ok (m :: run, rest))
      else Ok ([], moves))
  end.

(** [sum(self.move_values[move] for move in consecutive_moves)] *)
Fixpoint sum_values (ms : list string) : result Z :=
  match ms with
  | [] => Ok 0%Z
  | m :: ms' =>
      match MoveEngine.dict_get move_values m with
      | None => Raise (KeyError m)
      | Some v => rbind (sum_values ms') (fun s => Ok (v + s)%Z)
      end
  end.

(** The outer [while i < len(moves)], on the moves from index [i] on.
    [None] is reserved for running out of [fuel]. *)
Fixpoint optimize_loop (fuel : nat) (moves : list string) (optimized : list string)
  : option (result (list string)) :=
  match moves with
  | [] => Some (Ok optimized)
  | current_move :: after =>
      match fuel with
      | O => None
      | S fuel' =>
          match pystr.index0 current_move with
          | inl e => Some (Raise e)
          | inr face =>
              match consecutive face after with
              | inl e => Some (Raise e)
              | inr (run, rest) =>
                  let consecutive_moves := current_move :: run in
                  match sum_values consecutive_moves with
                  | inl e => Some (Raise e)
                  | inr net_rotation =>
                      let net_rotation := (net_rotation mod 4)%Z in
                      let optimized :=
                        if (net_rotation =? 1)%Z then optimized ++ [face]
                        else if (net_rotation =? 2)%Z then
                               optimized ++ [String.append face "2"]
                        else if (net_rotation =? 3)%Z then
                               optimized ++ [String.append face "'"]
                        else optimized in
                      optimize_loop fuel' rest optimized
                  end
              end
          end
      end
  end.

Definition optimize_sequence (moves : list string) : option (result (list string)) :=
  match moves with
  | [] => Some (Ok moves)
  | _ => optimize_loop (length moves) moves []
  end.

(** The inner [while i < len(optimized) - 2] of [remove_redundant_patterns],
    with [before] the moves [optimized[:i]] and [rest] the moves
    [optimized[i:]]: the list and the flag [changed] when the loop ends.
    [None] is reserved for running out of [fuel]. *)
Fixpoint redundant_scan (fuel : nat) (before rest : list string) (changed : bool)
  : option (result (list string * bool)) :=
  match rest with
  | a :: b :: c :: tl =>
      match fuel with
      | O => None
      | S fuel' =>
          match pystr.index0 a with
          | inl e => Some (Raise e)
          | inr face_a =>
              match pystr.index0 c with
              | inl e => Some (Raise e)
              | inr face_c =>
                  if String.eqb face_a face_c then
                    match pystr.index0 b with
                    | inl e => Some (Raise e)
                    | inr face_b =>
                        if negb (String.eqb face_a face_b) then
                          if String.eqb a c
                          then redundant_scan fuel' before (b :: tl) true
                          else redundant_scan fuel' (before ++ [a]) (b :: c :: tl) changed
                        else redundant_scan fuel' (before ++ [a]) (b :: c :: tl) changed
                    end
                  else redundant_scan fuel' (before ++ [a]) (b :: c :: tl) changed
              end
          end
      end
  | _ => Some (Ok (before ++ rest, changed))
  end.

(** The outer [while changed]. *)
Fixpoint redundant_loop (fuel : nat) (optimized : list string)
  : option (result (list string)) :=
  match fuel with
  | O => None
  | S fuel' =>
      let changed := false in
      match redundant_scan (length optimized) [] optimized changed with
      | None => None
      | Some (inl e) => Some (Raise e)
      | Some (inr (optimized, changed)) =>
          if changed then redundant_loop fuel' optimized else Some (Ok optimized)
      end
  end.

Definition remove_redundant_patterns (moves : list string) : option (result (list string)) :=
  if length moves <? 3 then Some (Ok moves)
  else redundant_loop (S (length moves)) moves.

End MoveOptimizer.

(** *** Module-level functions of src/algorithms/utils.py *)

Module utils.

(** The values held by the dictionary that [analyze_move_sequence] returns:
    integers and nested dictionaries, a dictionary being its items in
    insertion order. *)
Inductive value : Type :=
| VInt (n : Z)
| VDict (items : list (string * Z)).

(** [d[k] = v]: the item is replaced where it is, or added at the end. *)
Fixpoint dict_set {V} (d : list (string * V)) (k : string) (v : V) : list (string * V) :=
  match d with
  | [] => [(k, v)]
  | (k', v') :: d' => if String.eqb k k' then (k', v) :: d' else (k', v') :: dict_set d' k v
  end.

(** [d.get(k, default)] *)
Definition dict_get_default {V} (d : list (string * V)) (k : string) (default : V) : V :=
  match MoveEngine.dict_get d k with
  | Some v => v
  | None => default
  end.

(** The first [for move in moves]. *)
Fixpoint count_faces (moves : list string) (face_distribution : list (string * Z))
  : result (list (string * Z)) :=
  match moves with
  | [] => Ok face_distribution
  | move :: moves' =>
      rbind (pystr.index0 move) (fun face =>
      count_faces moves'
        (dict_set face_distribution face (dict_get_default face_distribution face 0 + 1)%Z))
  end.

(** The second [for move in moves], on the items of
    [move_type_distribution]; [d[k] += 1] reads [d[k]] first. *)
Fixpoint count_types (moves : list string) (move_type_distribution : list (string * Z))
  : result (list (string * Z)) :=
  match moves with
  | [] => Ok move_type_distribution
  | move :: moves' =>
      let key :=
        if pystr.endswith move "2" then "half"
        else if pystr.endswith move "'" then "prime"
        else "quarter" in
      match MoveEngine.dict_get move_type_distribution key with
      | None => Raise (KeyError key)
      | Some n => count_types moves' (dict_set move_type_distribution key (n + 1)%Z)
      end
  end.

Definition analyze_move_sequence (moves : list string) : result (list (string * value)) :=
  match moves with
  | [] => Ok [("total_moves", VInt 0)]
  | _ =>
      let total_moves := Z.of_nat (length moves) in
      let unique_moves := Z.of_nat (length (nodup string_dec moves)) in
      let move_type_distribution := [("quarter", 0%Z); ("half", 0%Z); ("prime", 0%Z)] in
      rbind (count_faces moves []) (fun face_distribution =>
      rbind (count_types moves move_type_distribution) (fun move_type_distribution =>
      Ok [ ("total_moves", VInt total_moves);
           ("unique_moves", VInt unique_moves);
           ("face_distribution", VDict face_distribution);
           ("move_type_distribution", VDict move_type_distribution) ]))
  end.

End utils.

(** ** src/algorithms/heuristics.py *)

Module Heuristics.
Import ndarray.

Definition corners : list (list nat) :=
  [ [0; 9; 36]; [2; 11; 38]; [6; 15; 42]; [8; 17; 44];
    [18; 27; 45]; [20; 29; 47]; [24; 33; 51]; [26; 35; 53] ].

Definition edges : list (list nat) :=
  [ [1; 37]; [3; 39]; [5; 41]; [7; 43];
    [10; 46]; [12; 48]; [14; 50]; [16; 52];
    [19; 28]; [21; 30]; [23; 32]; [25; 34] ].

Definition centers : list nat := [4; 13; 22; 31; 40; 49].

(** [sorted(l)] on integers *)
Fixpoint insert_sorted (x : Z) (l : list Z) : list Z :=
  match l with
  | [] => [x]
  | y :: l' => if (x <=? y)%Z then x :: l else y :: insert_sorted x l'
  end.

Definition sorted (l : list Z) : list Z := fold_right insert_sorted [] l.

(** [l1 != l2] on lists of integers *)
Definition list_ne (l1 l2 : list Z) : bool := negb (array_equal l1 l2).

(** The [(i, j)] pairs of the two nested [range(3)] loops, in order. *)
Definition grid : list (nat * nat) :=
  flat_map (fun i => map (fun j => (i, j)) (seq 0 3)) (seq 0 3).

Definition manhattan_face (current_face solved_face : ndarray.t) (distance : Z) : Z :=
  fold_left
    (fun distance '(i, j) =>
       if negb ((i =? 1) && (j =? 1)) then
         if negb (get current_face (3 * i + j) =? get solved_face (3 * i + j))%Z
         then (distance + 1)%Z else distance
       else distance)
    grid distance.

Fixpoint manhattan_faces (cube solved_cube : RubikCube.t) (faces : list Z) (distance : Z)
  : result Z :=
  match faces with
  | [] => Ok distance
  | face_idx :: faces' =>
      rbind (RubikCube.get_face cube face_idx) (fun current_face =>
      rbind (RubikCube.get_face solved_cube face_idx) (fun solved_face =>
      manhattan_faces cube solved_cube faces'
        (manhattan_face current_face solved_face distance)))
  end.

Definition manhattan_distance (cube : RubikCube.t) : result Z :=
  rbind (RubikCube.__init__ None) (fun solved_cube =>
  let distance := 0%Z in
  rbind (manhattan_faces cube solved_cube (map Z.of_nat (seq 0 6)) distance)
        (fun distance => Ok (Z.min distance 20 / 4)%Z)).

Definition corner_step (cube solved_cube : RubikCube.t) (heuristic : Z) (corner : list nat) : Z :=
  let current_colors := sorted (gets (RubikCube.state cube) corner) in
  let solved_colors := sorted (gets (RubikCube.state solved_cube) corner) in
  if list_ne current_colors solved_colors then (heuristic + 2)%Z
  else
    let current_oriented := gets (RubikCube.state cube) corner in
    let solved_oriented := gets (RubikCube.state solved_cube) corner in
    if list_ne current_oriented solved_oriented then (heuristic + 1)%Z else heuristic.

Definition edge_step (cube solved_cube : RubikCube.t) (heuristic : Z) (edge : list nat) : Z :=
  let current_colors := sorted (gets (RubikCube.state cube) edge) in
  let solved_colors := sorted (gets (RubikCube.state solved_cube) edge) in
  if list_ne current_colors solved_colors then (heuristic + 1)%Z
  else
    let current_oriented := gets (RubikCube.state cube) edge in
    let solved_oriented := gets (RubikCube.state solved_cube) edge in
    if list_ne current_oriented solved_oriented then (heuristic + 1)%Z else heuristic.

Definition corner_edge_heuristic (cube : RubikCube.t) : result Z :=
  if RubikCube.is_solved cube then Ok 0%Z
  else
    rbind (RubikCube.__init__ None) (fun solved_cube =>
    let heuristic := 0%Z in
    let heuristic := fold_left (corner_step cube solved_cube) corners heuristic in
    let heuristic := fold_left (edge_step cube solved_cube) edges heuristic in
    Ok (if (heuristic >? 0)%Z then Z.max 1 (heuristic / 4) else 0)%Z).

Definition bottom_positions : list nat :=
  seq 45 9 ++ [6; 7; 8; 15; 16; 17; 24; 25; 26; 33; 34; 35].

Definition middle_positions : list nat :=
  [3; 5; 10; 12; 14; 16; 19; 21; 23; 25; 28; 30; 32; 34].

Definition layer_completion_heuristic (cube : RubikCube.t) : result Z :=
  rbind (RubikCube.__init__ None) (fun solved_cube =>
  let heuristic := 0%Z in
  let bottom_solved := true in
  let '(bottom_solved, heuristic) :=
    fold_left
      (fun '(bottom_solved, heuristic) pos =>
         if negb (get (RubikCube.state cube) pos =? get (RubikCube.state solved_cube) pos)%Z
         then (false, (heuristic + 1)%Z)
         else (bottom_solved, heuristic))
      bottom_positions (bottom_solved, heuristic) in
  let heuristic := if negb bottom_solved then (heuristic + 20)%Z else heuristic in
  let heuristic :=
    if bottom_solved then
      fold_left
        (fun heuristic pos =>
           if negb (get (RubikCube.state cube) pos =? get (RubikCube.state solved_cube) pos)%Z
           then (heuristic + 2)%Z else heuristic)
        middle_positions heuristic
    else heuristic in
  Ok heuristic).

(** Python's [int * float] converts the integer to binary64 (exact for the
    magnitudes below 2^53 that occur here). *)
Definition float_of_int (z : Z) : float :=
  if (z <? 0)%Z then PrimFloat.opp (PrimFloat.of_uint63 (Uint63.of_Z (- z)))
  else PrimFloat.of_uint63 (Uint63.of_Z z).

(** Python's [int(x)] on a finite binary64: truncation toward zero. *)
Definition int_of_float (x : float) : Z :=
  match Prim2SF x with
  | S754_finite s m e =>
      let a := if (0 <=? e)%Z then Z.shiftl (Zpos m) e else Z.shiftr (Zpos m) (- e) in
      if s then (- a)%Z else a
  | _ => 0%Z
  end.

(** The literals 0.3, 0.5 and 0.2 as the binary64 values Python reads. *)
Definition w1 : float := 0x1.3333333333333p-2%float.
Definition w2 : float := 0.5%float.
Definition w3 : float := 0x1.999999999999ap-3%float.

Definition weighted (h1 h2 h3 : Z) : Z :=
  int_of_float (w1 * float_of_int h1 + w2 * float_of_int h2 + w3 * float_of_int h3)%float.

Definition combined_heuristic (cube : RubikCube.t) : result Z :=
  rbind (manhattan_distance cube) (fun h1 =>
  rbind (corner_edge_heuristic cube) (fun h2 =>
  rbind (layer_completion_heuristic cube) (fun h3 =>
  Ok (weighted h1 h2 h3)))).

(** The body of [for corner in self.corners] of
    [pattern_database_heuristic]. *)
Definition pattern_step (cube solved_cube : RubikCube.t) (corner_pattern_score : Z)
    (corner : list nat) : Z :=
  let corner_colors := gets (RubikCube.state cube) corner in
  let solved_colors := gets (RubikCube.state solved_cube) corner in
  if array_equal corner_colors solved_colors then (corner_pattern_score + 0)%Z
  else if array_equal (sorted corner_colors) (sorted solved_colors)
  then (corner_pattern_score + 1)%Z
  else (corner_pattern_score + 3)%Z.

Definition pattern_database_heuristic (cube : RubikCube.t) : result Z :=
  let corner_pattern_score := 0%Z in
  rbind (RubikCube.__init__ None) (fun solved_cube =>
  Ok (fold_left (pattern_step cube solved_cube) corners corner_pattern_score)).

Definition estimate_moves_to_solve (cube : RubikCube.t) : result Z :=
  corner_edge_heuristic cube.

End Heuristics.

(** ** The object store

    The solver receives a reference to the caller's cube, copies it and
    mutates the copies. Objects live in a store; a reference is an index into
    it, [RubikCube(...)] and [copy()] allocate at the end, and a method call
    through a reference reads the object and writes it back. The solver's
    [self.statistics] record is the other piece of mutable state. *)

Record world : Type := mkWorld {
  cubes : list RubikCube.t;
  statistics : SearchStatistics.t
}.

Definition ref : Type := nat.

(** A reference outside the store: an outcome of the model only, which the
    theorems show is never produced. *)
Definition dangling : exn := ValueError "dangling reference".

Definition M (A : Type) : Type := world -> result A * world.

Definition ret {A} (a : A) : M A := fun w => (Ok a, w).
Definition raise {A} (e : exn) : M A := fun w => (Raise e, w).
Definition bind {A B} (c : M A) (k : A -> M B) : M B :=
  fun w =>
    match c w with
    | (inl e, w') => (inl e, w')
    | (inr a, w') => k a w'
    end.

Notation "'let*' x ':=' c 'in' k" := (bind c (fun x => k))
  (at level 10, x pattern, c at level 100, k at level 200).

Definition lift {A} (r : result A) : M A :=
  match r with
  | inl e => raise e
  | inr a => ret a
  end.

Definition alloc (c : RubikCube.t) : M ref :=
  fun w => (Ok (length (cubes w)),
            {| cubes := cubes w ++ [c]; statistics := statistics w |}).

Definition load (r : ref) : M RubikCube.t :=
  fun w => match cubes w !! r with
           | Some c => (Ok c, w)
           | None => (Raise dangling, w)
           end.

Definition store (r : ref) (c : RubikCube.t) : M unit :=
  fun w => (Ok tt, {| cubes := <[r:=c]> (cubes w); statistics := statistics w |}).

(** A method that mutates [self], called through a reference. *)
Definition call {A} (r : ref) (method : RubikCube.t -> result A * RubikCube.t) : M A :=
  let* self := load r in
  let '(res, self) := method self in
  let* _ := store r self in
  lift res.

(** A method or attribute that only reads [self]. *)
Definition read {A} (r : ref) (method : RubikCube.t -> A) : M A :=
  let* self := load r in ret (method self).

(** [RubikCube(state)] *)
Definition new_RubikCube (state : option ndarray.t) : M ref :=
  let* c := lift (RubikCube.__init__ state) in alloc c.

(** [cube.copy()] *)
Definition copy (r : ref) : M ref :=
  let* self := load r in
  let* c := lift (RubikCube.copy self) in
  alloc c.

Definition execute_move (r : ref) (move : string) : M unit :=
  call r (fun self =>
            match RubikCube.execute_move self move with
            | inl e => (Raise e, self)
            | inr self' => (Ok tt, self')
            end).

Definition execute_sequence (r : ref) (moves : list string) : M unit :=
  call r (fun self => RubikCube.execute_sequence self moves).

Definition is_solved (r : ref) : M bool := read r RubikCube.is_solved.

(** Control flow of a loop body: [return v] out of the enclosing function,
    or go on with the loop variables. *)
Inductive flow (R S : Type) : Type :=
| Return (v : R)
| Next (s : S).
Arguments Return {R S} v.
Arguments Next {R S} s.

(** ** src/algorithms/astar_solver.py *)

Module AStarSolver.

Definition all_moves : list string :=
  [ "U"; "U'"; "U2"; "D"; "D'"; "D2";
    "L"; "L'"; "L2"; "R"; "R'"; "R2";
    "F"; "F'"; "F2"; "B"; "B'"; "B2" ].

Definition pair_in (p : string * string) (pairs : list (string * string)) : bool :=
  existsb (fun q => String.eqb (fst p) (fst q) && String.eqb (snd p) (snd q)) pairs.

Definition _are_opposite (move1 move2 : string) : bool :=
  let pairs := [ ("U", "U'"); ("R", "R'"); ("F", "F'");
                 ("L", "L'"); ("D", "D'"); ("B", "B'") ] in
  pair_in (move1, move2) pairs || pair_in (move2, move1) pairs.

(** Truth value of an [Optional[List[str]]] in [if solution:]. *)
Definition truthy (o : option (list string)) : bool :=
  match o with
  | Some (_ :: _) => true
  | _ => false
  end.

Definition _states_equal (cube1 cube2 : ref) : M bool :=
  let* s1 := read cube1 RubikCube.state in
  let* s2 := read cube2 RubikCube.state in
  ret (ndarray.array_equal s1 s2).

Definition _invert_move (move : string) : result string :=
  if pystr.endswith move "'" then pystr.index0 move
  else if pystr.endswith move "2" then Ok move
  else Ok (String.append move "'").

(** [inverse_moves] after the loop over [reversed(moves)]. *)
Fixpoint _invert_loop (reversed_moves : list string) (inverse_moves : list string)
  : result (list string) :=
  match reversed_moves with
  | [] => Ok inverse_moves
  | move :: rest =>
      rbind (_invert_move move) (fun m => _invert_loop rest (inverse_moves ++ [m]))
  end.

Definition _invert_sequence (moves : list string) : result (list string) :=
  _invert_loop (rev moves) [].

Definition _count_correct (current solved : ndarray.t) : Z :=
  if length solved <? length current then 0%Z
  else
    fold_left
      (fun n i => if (ndarray.get current i =? ndarray.get solved i)%Z then (n + 1)%Z else n)
      (seq 0 (length current)) 0%Z.

(** The [try] block raises only when [current] is longer than [solved]
    (an index past the end of [solved]); the [except] then returns 0. *)
Definition _count_correct_pieces (cube : ref) : M Z :=
  let* current := read cube RubikCube.state in
  let* fresh := new_RubikCube None in
  let* solved := read fresh RubikCube.state in
  ret (_count_correct current solved).

Section Solver.
(** Python's [hash] of a tuple of integers. *)
Variable hash : list Z -> Z.

Definition _quick_hash (cube : ref) : M Z :=
  let* s := read cube RubikCube.state in
  ret (hash (take 24 s)).

Definition bfs_moves : list string := ["U"; "U'"; "R"; "R'"; "F"; "F'"].

(** [for move in moves] of [_fast_bfs]. *)
Fixpoint bfs_expand (current_cube : ref) (path : list string) (moves : list string)
    (queue : list (ref * list string))
  : M (flow (option (list string)) (list (ref * list string))) :=
  match moves with
  | [] => ret (Next queue)
  | move :: moves' =>
      if (match path with [] => false | _ => true end)
         && _are_opposite move (List.last path "")
      then bfs_expand current_cube path moves' queue
      else
        let* next_cube := copy current_cube in
        let* _ := execute_move next_cube move in
        let* solved := is_solved next_cube in
        if solved then ret (Return (Some (path ++ [move])))
        else bfs_expand current_cube path moves' (queue ++ [(next_cube, path ++ [move])])
  end.

(** [for _ in range(level_size)] of [_fast_bfs]. *)
Fixpoint bfs_level (level_size : nat) (queue : list (ref * list string))
    (visited : list Z)
  : M (flow (option (list string)) (list (ref * list string) * list Z)) :=
  match level_size with
  | O => ret (Next (queue, visited))
  | S level_size' =>
      match queue with
      | [] => ret (Next (queue, visited))
      | (current_cube, path) :: queue =>
          let* state_hash := _quick_hash current_cube in
          if existsb (Z.eqb state_hash) visited then bfs_level level_size' queue visited
          else
            let visited := state_hash :: visited in
            let* r := bfs_expand current_cube path bfs_moves queue in
            match r with
            | Return v => ret (Return v)
            | Next queue => bfs_level level_size' queue visited
            end
      end
  end.

(** [for depth in range(6)] of [_fast_bfs]. *)
Fixpoint bfs_depths (depths : nat) (queue : list (ref * list string))
    (visited : list Z) : M (option (list string)) :=
  match depths with
  | O => ret None
  | S depths' =>
      let level_size := length queue in
      let* r := bfs_level level_size queue visited in
      match r with
      | Return v => ret v
      | Next (queue, visited) => bfs_depths depths' queue visited
      end
  end.

Definition _fast_bfs (cube : ref) : M (option (list string)) :=
  let* start := copy cube in
  let queue := [(start, [])] in
  let visited := [] in
  bfs_depths 6 queue visited.

Definition test_moves : list string :=
  [ "U"; "U'"; "U2"; "R"; "R'"; "R2"; "F"; "F'"; "F2";
    "L"; "L'"; "L2"; "D"; "D'"; "D2"; "B"; "B'"; "B2" ].

(** [for i in range(len(moves) - 1)]: is some move followed by its
    opposite. *)
Fixpoint has_reversal (moves : list string) : bool :=
  match moves with
  | m1 :: (m2 :: _) as rest => _are_opposite m1 m2 || has_reversal rest
  | _ => false
  end.

(** The body of [for moves in product(...)]: [Some] is a [return]. *)
Definition reverse_try (cube : ref) (moves : list string)
  : M (option (list string)) :=
  let valid_sequence := negb (has_reversal moves) in
  if negb valid_sequence then ret None
  else
    let* test_cube := new_RubikCube None in
    let* _ := execute_sequence test_cube moves in
    let* same := _states_equal test_cube cube in
    if same then
      let* inv := lift (_invert_sequence moves) in ret (Some inv)
    else ret None.

(** [for x in xs: body] where the body may return from the function. *)
Fixpoint first_return {X R} (body : X -> M (option R)) (xs : list X) : M (option R) :=
  match xs with
  | [] => ret None
  | x :: xs' =>
      let* r := body x in
      match r with
      | Some v => ret (Some v)
      | None => first_return body xs'
      end
  end.

(** [for moves in itertools.product(pool, repeat=n): body(prefix + moves)].
    [product] yields the tuples in lexicographic order of positions in
    [pool], the last position varying fastest. *)
Fixpoint for_product {R} (body : list string -> M (option R)) (pool : list string)
    (n : nat) (prefix : list string) : M (option R) :=
  match n with
  | O => body prefix
  | S n' => first_return (fun m => for_product body pool n' (prefix ++ [m])) pool
  end.

Definition _reverse_solve (cube : ref) : M (option (list string)) :=
  first_return (fun length => for_product (reverse_try cube) test_moves length [])
               (seq 1 8).

Definition patterns : list (list string) :=
  [ ["U"]; ["U'"]; ["R"]; ["R'"]; ["F"]; ["F'"];
    ["L"]; ["L'"]; ["D"]; ["D'"]; ["B"]; ["B'"];
    ["R"; "U"; "R'"; "U'"];
    ["U"; "R"; "U'"; "R'"];
    ["F"; "R"; "U"; "R'"; "U'"; "F'"];
    ["R"; "U"; "R'"; "F"; "R"; "F'"];
    ["U"; "R"; "U'"; "R'"; "U'"; "F"; "R"; "F'"];
    ["R"; "U2"; "R'"; "U'"; "R"; "U'"; "R'"];
    ["R"; "U"; "R'"; "U"; "R"; "U2"; "R'"];
    ["F"; "U"; "R"; "U'"; "R'"; "F'"];
    ["R"; "U"; "R'"]; ["F"; "U"; "F'"]; ["R"; "F"; "R'"] ].

(** [for pattern in patterns] of [_brute_force_solve]. *)
Fixpoint brute_patterns (working_cube : ref) (solution : list string)
    (pats : list (list string)) (best_pattern : option (list string)) (best_score : Z)
  : M (flow (option (list string)) (option (list string))) :=
  match pats with
  | [] => ret (Next best_pattern)
  | pattern :: pats' =>
      let* test_cube := copy working_cube in
      let* _ := execute_sequence test_cube pattern in
      let* solved := is_solved test_cube in
      if solved then ret (Return (Some (solution ++ pattern)))
      else
        let* score := _count_correct_pieces test_cube in
        if (score >? best_score)%Z
        then brute_patterns working_cube solution pats' (Some pattern) score
        else brute_patterns working_cube solution pats' best_pattern best_score
  end.

(** [for iteration in range(50)], with [count] iterations left. *)
Fixpoint brute_iterations (count : nat) (iteration : nat) (working_cube : ref)
    (solution : list string) : M (option (list string)) :=
  match count with
  | O =>
      let* solved := is_solved working_cube in
      ret (if solved then Some solution else None)
  | S count' =>
      let* solved := is_solved working_cube in
      if solved then ret (Some solution)
      else
        let best_pattern := None in
        let* best_score := _count_correct_pieces working_cube in
        let* r := brute_patterns working_cube solution patterns best_pattern best_score in
        match r with
        | Return v => ret v
        | Next best_pattern =>
            let chosen :=
              if truthy best_pattern then
                match best_pattern with Some p => p | None => [] end
              else nth (iteration mod length patterns) patterns [] in
            let* _ := execute_sequence working_cube chosen in
            let solution := solution ++ chosen in
            if 100 <? length solution then
              let* solved := is_solved working_cube in
              ret (if solved then Some solution else None)
            else brute_iterations count' (S iteration) working_cube solution
        end
  end.

Definition _brute_force_solve (cube : ref) : M (option (list string)) :=
  let* working_cube := copy cube in
  let solution := [] in
  brute_iterations 50 0 working_cube solution.

Definition valid_heuristics : list string := ["manhattan"; "corner_edge"; "combined"].

Definition solve (cube : ref) (heuristic_type : string) : M (option (list string)) :=
  if negb (existsb (String.eqb heuristic_type) valid_heuristics) then
    raise (ValueError (String.append "Unknown heuristic type: " heuristic_type))
  else
    let* solved := is_solved cube in
    if solved then ret (Some [])
    else
      let* bfs_solution := _fast_bfs cube in
      if truthy bfs_solution then ret bfs_solution
      else
        let* reverse_solution := _reverse_solve cube in
        if truthy reverse_solution then ret reverse_solution
        else _brute_force_solve cube.

End Solver.

(** [self.opposite_moves] *)
Definition opposite_moves : list (string * string) :=
  [ ("U", "U'"); ("U'", "U"); ("U2", "U2");
    ("D", "D'"); ("D'", "D"); ("D2", "D2");
    ("L", "L'"); ("L'", "L"); ("L2", "L2");
    ("R", "R'"); ("R'", "R"); ("R2", "R2");
    ("F", "F'"); ("F'", "F"); ("F2", "F2");
    ("B", "B'"); ("B'", "B"); ("B2", "B2") ].

Definition _is_immediate_reverse (move1 move2 : string) : result bool :=
  rbind (pystr.index0 move1) (fun face1 =>
  rbind (pystr.index0 move2) (fun face2 =>
  if negb (String.eqb face1 face2) then Ok false
  else
    let opposites :=
      [ ("U", "U'"); ("U'", "U");
        ("D", "D'"); ("D'", "D");
        ("L", "L'"); ("L'", "L");
        ("R", "R'"); ("R'", "R");
        ("F", "F'"); ("F'", "F");
        ("B", "B'"); ("B'", "B") ] in
    Ok (pair_in (move1, move2) opposites))).

Definition _quick_reverse_check (move1 move2 : string) : result bool :=
  rbind (pystr.index0 move1) (fun face1 =>
  rbind (pystr.index0 move2) (fun face2 =>
  if negb (String.eqb face1 face2) then Ok false
  else
    Ok ((String.eqb move1 "U" && String.eqb move2 "U'")
        || (String.eqb move1 "U'" && String.eqb move2 "U")
        || (String.eqb move1 "R" && String.eqb move2 "R'")
        || (String.eqb move1 "R'" && String.eqb move2 "R")
        || (String.eqb move1 "F" && String.eqb move2 "F'")
        || (String.eqb move1 "F'" && String.eqb move2 "F")))).

Definition _is_reverse_move (move1 move2 : string) : result bool :=
  _quick_reverse_check move1 move2.

(** [[int(c) for c in state_hash]] *)
Fixpoint ints_of_string (state_hash : string) : result (list Z) :=
  match state_hash with
  | EmptyString => Ok []
  | String c rest =>
      rbind (pyint.int c) (fun n => rbind (ints_of_string rest) (fun ns => Ok (n :: ns)))
  end.

Definition _reconstruct_cube (state_hash : string) : result RubikCube.t :=
  rbind (ints_of_string state_hash) (fun state => RubikCube.__init__ (Some state)).

(** [[move[0] for move in moves]] *)
Fixpoint faces_of (moves : list string) : result (list string) :=
  match moves with
  | [] => Ok []
  | m :: moves' =>
      rbind (pystr.index0 m) (fun f => rbind (faces_of moves') (fun fs => Ok (f :: fs)))
  end.

Definition _is_redundant_pattern (moves : list string) : result bool :=
  if length moves <? 3 then Ok false
  else
    match moves with
    | m0 :: m1 :: m2 :: _ =>
        rbind (pystr.index0 m0) (fun f0 =>
        rbind (pystr.index0 m2) (fun f2 =>
        rbind (if String.eqb f0 f2 then
                 rbind (pystr.index0 m0) (fun f0 =>
                 rbind (pystr.index0 m1) (fun f1 => Ok (negb (String.eqb f0 f1))))
               else Ok false) (fun aba =>
        if aba then Ok true
        else
          rbind (faces_of moves) (fun faces =>
          if length (nodup string_dec faces) =? 1 then Ok true else Ok false))))
    | _ => Ok false
    end.

(** [for move in self.all_moves] of [_get_valid_moves]. *)
Fixpoint valid_moves_loop (moves : list string) (last_move last_face : string)
    (candidates : list string) (valid_moves : list string) : result (list string) :=
  match candidates with
  | [] => Ok valid_moves
  | move :: candidates' =>
      rbind (pystr.index0 move) (fun move_face =>
      if (match MoveEngine.dict_get opposite_moves last_move with
          | Some o => String.eqb move o
          | None => false
          end)
      then valid_moves_loop moves last_move last_face candidates' valid_moves
      else if String.eqb move_face last_face
      then valid_moves_loop moves last_move last_face candidates' valid_moves
      else
        rbind (if 2 <=? length moves
               then _is_redundant_pattern (skipn (length moves - 2) moves ++ [move])
               else Ok false) (fun redundant =>
        if redundant
        then valid_moves_loop moves last_move last_face candidates' valid_moves
        else valid_moves_loop moves last_move last_face candidates' (valid_moves ++ [move])))
  end.

Definition _get_valid_moves (moves : list string) : result (list string) :=
  match moves with
  | [] => Ok all_moves
  | _ =>
      let last_move := List.last moves "" in
      rbind (pystr.index0 last_move) (fun last_face =>
      valid_moves_loop moves last_move last_face all_moves [])
  end.

(** [depth] counts down to the test [depth == 0]; the callers pass a
    depth of at least 0, and [moves] defaults to the empty list. Each level
    of the search is one nested Python call; the interpreter's limit on
    nested calls (1000 by default) is not part of the model, which is the
    code's behaviour for the depths that stay below it. *)
Fixpoint _depth_limited_search (depth : nat) (cube : ref) (moves : list string)
  : M (option (list string)) :=
  let* solved := is_solved cube in
  if solved then ret (Some moves)
  else
    match depth with
    | O => ret None
    | S depth' =>
        let* valid_moves := lift (_get_valid_moves moves) in
        first_return
          (fun move =>
             let* new_cube := copy cube in
             let* _ := execute_move new_cube move in
             let new_moves := moves ++ [move] in
             _depth_limited_search depth' new_cube new_moves)
          valid_moves
    end.

(** The wall clock is outside the model: [too_long depth] says whether the
    search at [depth] was measured as taking more than 10 seconds. The
    [print] calls are left out. *)
Section IterativeDeepening.
Variable too_long : nat -> bool.

(** [for depth in range(1, self.max_depth + 1)], from [depth] on with
    [remaining] depths left. *)
Fixpoint deepening_loop (remaining : nat) (depth : nat) (cube : ref)
  : M (option (option (result (list string)))) :=
  match remaining with
  | O => ret None
  | S remaining' =>
      let* result := _depth_limited_search depth cube [] in
      match result with
      | Some path => ret (Some (MoveOptimizer.optimize_sequence path))
      | None =>
          if too_long depth then ret None
          else deepening_loop remaining' (S depth) cube
      end
  end.

(** [None] is the not-found outcome; otherwise what
    [optimize_sequence] made of the path found. *)
Definition solve_iterative_deepening (max_depth : nat) (cube : ref)
  : M (option (option (result (list string)))) :=
  deepening_loop max_depth 1 cube.

End IterativeDeepening.

End AStarSolver.

(** ** Vocabulary of the specification *)

(** Applying a move sequence to an array, left to right. *)
Fixpoint apply_moves (s : ndarray.t) (moves : list string) : result ndarray.t :=
  match moves with
  | [] => Ok s
  | move :: moves' => rbind (MoveEngine.apply_move s move) (fun s' => apply_moves s' moves')
  end.

(** Where a move function takes each facelet from: its image of the array
    whose label at position [i] is [i]. *)
Definition table (f : ndarray.t -> ndarray.t) : list nat :=
  map Z.to_nat (f (map Z.of_nat (seq 0 54))).

Definition gather (s : ndarray.t) (positions : list nat) : ndarray.t :=
  map (ndarray.get s) positions.

(** Occurrences of a label in an array. *)
Definition occurrences (label : Z) (s : ndarray.t) : nat := count_occ Z.eq_dec s label.

Definition nine_of_each (s : ndarray.t) : Prop :=
  forall label : Z, (0 <= label < 6)%Z -> occurrences label s = 9.

(** The states a solved cube reaches by moves of the 18-move vocabulary. *)
Inductive reachable : ndarray.t -> Prop :=
| reachable_solved : reachable RubikCube._create_solved_state
| reachable_move s move s' :
    reachable s -> In move MoveEngine.get_all_moves ->
    MoveEngine.apply_move s move = Ok s' -> reachable s'.

(** No move of the list is the reverse, in the sense of [_is_reverse_move],
    of the move just before it. *)
Fixpoint no_immediate_reverse (moves : list string) : Prop :=
  match moves with
  | m1 :: (m2 :: _) as rest =>
      RubikCube._is_reverse_move m2 (Some m1) = false /\ no_immediate_reverse rest
  | _ => True
  end.

(** The immediate face-reversal of a move, in the move notation of the
    specification (a face letter, optionally followed by ['] or [2]): the
    quarter turn of the same face the other way; a half turn is reversed by
    the same half turn. *)
Definition face_reversal (move : string) : option string :=
  match move with
  | String f EmptyString => Some (String f "'")
  | String f (String c EmptyString) =>
      if Ascii.eqb c "'" then Some (String f EmptyString)
      else if Ascii.eqb c "2" then Some move
      else None
  | _ => None
  end.

(** No move of the list is the immediate face-reversal of the move just
    before it. *)
Fixpoint no_face_reversal (moves : list string) : Prop :=
  match moves with
  | m1 :: (m2 :: _) as rest => face_reversal m1 <> Some m2 /\ no_face_reversal rest
  | _ => True
  end.

(** The store [w'] is [w] with objects allocated after it, and the same
    statistics record. *)
Definition extends (w w' : world) : Prop :=
  statistics w' = statistics w /\ cubes w `prefix_of` cubes w'.

(** The value-level reading of [_reverse_solve]: what it returns as a
    function of the target array alone. *)
Module Pure.

Definition reverse_try (target : ndarray.t) (moves : list string)
  : result (option (list string)) :=
  if AStarSolver.has_reversal moves then Ok None
  else
    rbind (RubikCube.__init__ None) (fun test_cube =>
    match RubikCube.execute_sequence test_cube moves with
    | (inl e, _) => Raise e
    | (inr _, test_cube) =>
        if ndarray.array_equal (RubikCube.state test_cube) target then
          rbind (AStarSolver._invert_sequence moves) (fun inv => Ok (Some inv))
        else Ok None
    end).

Fixpoint first_return {X R} (body : X -> result (option R)) (xs : list X)
  : result (option R) :=
  match xs with
  | [] => Ok None
  | x :: xs' =>
      match body x with
      | inl e => Raise e
      | inr (Some v) => Ok (Some v)
      | inr None => first_return body xs'
      end
  end.

Fixpoint for_product {R} (body : list string -> result (option R)) (pool : list string)
    (n : nat) (prefix : list string) : result (option R) :=
  match n with
  | O => body prefix
  | S n' => first_return (fun m => for_product body pool n' (prefix ++ [m])) pool
  end.

Definition _reverse_solve (target : ndarray.t) : result (option (list string)) :=
  first_return
    (fun length => for_product (reverse_try target) AStarSolver.test_moves length [])
    (seq 1 8).

End Pure.

Definition push (w : world) (c : RubikCube.t) : world :=
  {| cubes := cubes w ++ [c]; statistics := statistics w |}.

Definition set_cube (w : world) (r : ref) (c : RubikCube.t) : world :=
  {| cubes := <[r:=c]> (cubes w); statistics := statistics w |}.

(** [stable n w w']: the objects at references below [n] and the statistics
    record are the same in [w'] as in [w], and no reference of [w] dangles
    in [w']. *)
Definition stable (n : nat) (w w' : world) : Prop :=
  statistics w' = statistics w /\
  take n (cubes w') = take n (cubes w) /\
  length (cubes w) <= length (cubes w').

(** What [copy()] allocates for a cube of 54 labels. *)
Definition copied (c : RubikCube.t) : RubikCube.t :=
  {| RubikCube.state := RubikCube.state c;
     RubikCube.move_history := RubikCube.move_history c;
     RubikCube.move_count := 0 |}.

(** What [RubikCube()] allocates. *)
Definition solved_cube : RubikCube.t :=
  {| RubikCube.state := RubikCube._create_solved_state;
     RubikCube.move_history := []; RubikCube.move_count := 0 |}.

(** Sequences over the 18-move vocabulary, and the check that decides it. *)
Definition valid_moves (moves : list string) : Prop :=
  Forall (fun m => In m MoveEngine.get_all_moves) moves.

Definition check_valid (moves : list string) : bool :=
  forallb (fun m => existsb (String.eqb m) MoveEngine.get_all_moves) moves.

(** [chain last moves]: no move of [moves] reverses the move before it,
    [last] being the move before the first one. *)
Fixpoint chain (last : option string) (moves : list string) : Prop :=
  match moves with
  | [] => True
  | m :: moves' => RubikCube._is_reverse_move m last = false /\ chain (Some m) moves'
  end.

(** A queue entry refers to a 54-label cube whose state is the target state
    after the moves of the entry's path, all taken from [AStarSolver.bfs_moves]. *)
Definition entry_ok (s0 : ndarray.t) (w : world) (e : ref * list string) : Prop :=
  exists c, cubes w !! e.1 = Some c /\ length (RubikCube.state c) = 54 /\
            Forall (fun m => In m AStarSolver.bfs_moves) e.2 /\
            apply_moves s0 e.2 = Ok (RubikCube.state c).

(** A path returned by the search consists of moves of [AStarSolver.bfs_moves] and takes
    the target state to the solved state. *)
Definition bfs_sound (s0 : ndarray.t) (v : option (list string)) : Prop :=
  match v with
  | None => True
  | Some p => p <> [] /\ Forall (fun m => In m AStarSolver.bfs_moves) p /\
              apply_moves s0 p = Ok RubikCube._create_solved_state
  end.

(** The working cube is a 54-label cube whose state is the target state
    after the moves accumulated in [solution]. *)
Definition working_ok (s0 : ndarray.t) (w : world) (working_cube : ref)
    (solution : list string) : Prop :=
  exists wc, cubes w !! working_cube = Some wc /\ length (RubikCube.state wc) = 54 /\
             apply_moves s0 solution = Ok (RubikCube.state wc).

Definition brute_sound (s0 : ndarray.t) (v : option (list string)) : Prop :=
  match v with
  | None => True
  | Some p => apply_moves s0 p = Ok RubikCube._create_solved_state
  end.

(** The moves of the five faces other than Front. *)
Definition off_front : list string :=
  ["U"; "U'"; "U2"; "D"; "D'"; "D2"; "L"; "L'"; "L2"; "R"; "R'"; "R2"; "B"; "B'"; "B2"].

(** [turns q k s]: the quarter turn [q] applied [k] times. *)
Definition turns (q : ndarray.t -> ndarray.t) (k : Z) (s : ndarray.t) : ndarray.t :=
  Nat.iter (Z.to_nat k) q s.

(** [q] is the clockwise quarter turn of [face]: it keeps 54 labels, four of
    them restore the array, and the three moves of the face are one, two and
    three of them. *)
Definition quarter_turn_of (face : string) (q : ndarray.t -> ndarray.t) : Prop :=
  forall s : ndarray.t, length s = 54 ->
    length (q s) = 54 /\ turns q 4 s = s /\
    MoveEngine.apply_move s face = Ok (turns q 1 s) /\
    MoveEngine.apply_move s (String.append face "2") = Ok (turns q 2 s) /\
    MoveEngine.apply_move s (String.append face "'") = Ok (turns q 3 s).

(** ** Concrete inputs used in the examples *)

(** The solved cube after U. *)
Definition after_U : ndarray.t := MoveEngine._move_U RubikCube._create_solved_state.

Definition cube_after_U : RubikCube.t :=
  {| RubikCube.state := after_U; RubikCube.move_history := ["U"];
     RubikCube.move_count := 1 |}.

(** The cube after U, F, F', U' from solved: every facelet is in place
    except those at positions 20 and 35, which hold each other's label. *)
Definition two_facelets_exchanged : RubikCube.t :=
  snd (RubikCube.execute_sequence
         {| RubikCube.state := RubikCube._create_solved_state;
            RubikCube.move_history := []; RubikCube.move_count := 0 |}
         ["U"; "F"; "F'"; "U'"]).

(** The solved cube after D, then F. *)
Definition scrambled_D_F : ndarray.t :=
  MoveEngine._move_F (MoveEngine._move_D RubikCube._create_solved_state).

(** A record left by the caller: five nodes explored, a solution of length
    three found. *)
Definition used_statistics : SearchStatistics.t :=
  {| SearchStatistics.nodes_explored := 5;
     SearchStatistics.solution_found := true;
     SearchStatistics.solution_length := 3;
     SearchStatistics.solve_time := 0.5%float;
     SearchStatistics.max_depth_reached := 3 |}.

(** A small generator for the example below: the state is a counter, every
    integer seed is accepted, and a choice takes the element at the counter
    modulo the length. *)
Definition counter_choice (g : nat) (l : list string) : string * nat :=
  (nth (g mod length l) l "", S g).

(** Seeding as [np.random.seed] does it for an integer: the seeds from 0 to
    2^32 - 1 are accepted, any other raises; the state installed is the
    counter of [counter_choice]. *)
Definition counter_seed (seed : Z) : result nat :=
  if (0 <=? seed)%Z && (seed <? 2 ^ 32)%Z then Ok (Z.to_nat seed)
  else Raise (ValueError "Seed must be between 0 and 2**32 - 1").

(** No move of the list is on the same face as the move just before it. *)
Fixpoint no_adjacent_same_face (moves : list string) : Prop :=
  match moves with
  | m1 :: (m2 :: _) as rest =>
      pystr.index0 m1 <> pystr.index0 m2 /\ no_adjacent_same_face rest
  | _ => True
  end.

(** The face letter of a move: its first character. *)
Definition face (move : string) : string :=
  match move with
  | String c _ => String c EmptyString
  | EmptyString => EmptyString
  end.


(** No three consecutive moves [a; b; a] with [b] on another face than
    [a]. *)
Fixpoint aba_free (moves : list string) : Prop :=
  match moves with
  | a :: (b :: c :: _) as rest => ~ (a = c /\ face a <> face b) /\ aba_free rest
  | _ => True
  end.

(** * Properties *)

(** A 54-label array as 54 variables. *)
Ltac explode s H :=
  do 54 (destruct s as [|? s]; [discriminate H|]);
  destruct s; [|simpl in H; lia].

(** ** The move engine *)

Section MoveFacts.
Import ndarray MoveEngine.

Lemma gather_all (s : ndarray.t) : gather s (seq 0 (length s)) = s.
Proof.
  unfold gather, get. apply nth_ext with (d := 0%Z) (d' := 0%Z).
  - by rewrite length_map, length_seq.
  - intros n Hn. rewrite length_map, length_seq in Hn.
    rewrite (nth_indep _ 0%Z (nth 0 s 0%Z)) by (by rewrite length_map, length_seq).
    rewrite (map_nth (fun i => nth i s 0%Z)), seq_nth by done. done.
Qed.

Lemma gather_Permutation (s : ndarray.t) (p : list nat) :
  Permutation p (seq 0 (length s)) -> Permutation (gather s p) s.
Proof.
  intros Hp. rewrite <- (gather_all s) at 2. unfold gather. by apply Permutation_map.
Qed.

(** Every entry of the dispatch table gathers the facelets of a 54-label
    array from fixed positions. *)
Lemma moves_gather name f (s : ndarray.t) :
  In (name, f) moves -> length s = 54 -> f s = gather s (table f).
Proof.
  intros Hin Hlen. explode s Hlen. clear Hlen.
  unfold moves in Hin.
  repeat (destruct Hin as [Heq|Hin];
          [injection Heq as <- <-; vm_compute; reflexivity|]).
  destruct Hin.
Qed.

Lemma table_Permutation name f :
  In (name, f) moves -> Permutation (table f) (seq 0 54).
Proof.
  intros Hin. unfold moves in Hin.
  repeat (destruct Hin as [Heq|Hin];
          [injection Heq as <- <-;
           apply (bool_decide_unpack _); vm_compute; reflexivity|]).
  destruct Hin.
Qed.

Lemma moves_Permutation name f (s : ndarray.t) :
  In (name, f) moves -> length s = 54 -> Permutation (f s) s.
Proof.
  intros Hin Hlen. rewrite (moves_gather name f s Hin Hlen).
  apply gather_Permutation. rewrite Hlen. by apply (table_Permutation name).
Qed.

Lemma dict_get_In {V} (d : list (string * V)) k v :
  dict_get d k = Some v -> In (k, v) d.
Proof.
  induction d as [|[k' v'] d IH]; simpl; [done|].
  destruct (String.eqb_spec k k') as [->|Hne].
  - intros [= ->]. by left.
  - intros H. right. by apply IH.
Qed.

Lemma In_all_moves_valid move :
  In move get_all_moves -> exists f, dict_get moves move = Some f.
Proof.
  unfold get_all_moves, moves. simpl.
  intros H. repeat (destruct H as [<-|H]; [eexists; reflexivity|]). destruct H.
Qed.

Lemma apply_move_Ok s move :
  In move get_all_moves -> length s = 54 ->
  exists s', apply_move s move = Ok s' /\ Permutation s' s /\ length s' = 54.
Proof.
  intros Hin Hlen. destruct (In_all_moves_valid move Hin) as [f Hf].
  unfold apply_move, is_valid_move. rewrite Hf. simpl.
  exists (f s). pose proof (moves_Permutation move f s (dict_get_In _ _ _ Hf) Hlen) as HP.
  split; [done|]. split; [done|]. by rewrite (Permutation_length HP).
Qed.

End MoveFacts.

(** *** The label multiset *)

Section LabelMultiset.
Import ndarray MoveEngine.

Lemma solved_length : length RubikCube._create_solved_state = 54.
Proof. reflexivity. Qed.

Lemma solved_nine_of_each : nine_of_each RubikCube._create_solved_state.
Proof.
  intros label Hl.
  assert (label = 0 \/ label = 1 \/ label = 2 \/ label = 3 \/ label = 4 \/ label = 5)%Z
    as Hcases by lia.
  repeat (destruct Hcases as [->|Hcases]; [vm_compute; reflexivity|]).
  subst label. vm_compute. reflexivity.
Qed.

Lemma Permutation_occurrences label (s s' : ndarray.t) :
  Permutation s' s -> occurrences label s' = occurrences label s.
Proof. intros HP. unfold occurrences. by apply Permutation_count_occ. Qed.

Lemma apply_move_occurrences s move s' label :
  In move get_all_moves -> length s = 54 -> apply_move s move = Ok s' ->
  occurrences label s' = occurrences label s.
Proof.
  intros Hin Hlen Hs'. destruct (apply_move_Ok s move Hin Hlen) as (s'' & Heq & HP & _).
  rewrite Heq in Hs'. injection Hs' as <-. by apply Permutation_occurrences.
Qed.

(** C4: a move of the 18-move vocabulary applied to a 54-label state with
    nine occurrences of each of the six labels succeeds and yields a state
    with nine occurrences of each label (indeed the occurrences of every
    label are unchanged); hence every state reachable from the solved state
    has nine of each. *)
Theorem apply_move_keeps_nine_of_each :
  (forall (s : ndarray.t) (move : string),
      length s = 54 -> nine_of_each s -> In move get_all_moves ->
      exists s', apply_move s move = Ok s' /\ length s' = 54 /\ nine_of_each s' /\
                 forall label, occurrences label s' = occurrences label s) /\
  (forall s : ndarray.t, reachable s -> length s = 54 /\ nine_of_each s).
Proof.
  assert (forall (s : ndarray.t) (move : string),
      length s = 54 -> nine_of_each s -> In move get_all_moves ->
      exists s', apply_move s move = Ok s' /\ length s' = 54 /\ nine_of_each s' /\
                 forall label, occurrences label s' = occurrences label s) as Hstep.
  { intros s move Hlen Hnine Hin.
    destruct (apply_move_Ok s move Hin Hlen) as (s' & Heq & HP & Hlen').
    exists s'. repeat split; [done|done| |].
    - intros label Hl. rewrite (Permutation_occurrences label s s' HP). by apply Hnine.
    - intros label. by apply Permutation_occurrences. }
  split; [exact Hstep|].
  induction 1 as [|s move s' Hr [IHlen IHnine] Hin Happ].
  - split; [apply solved_length | apply solved_nine_of_each].
  - destruct (Hstep s move IHlen IHnine Hin) as (s'' & Heq & Hlen' & Hnine' & _).
    rewrite Heq in Happ. injection Happ as <-. done.
Qed.

Lemma apply_move_keeps_nine_of_each_witness :
  exists s', apply_move RubikCube._create_solved_state "U" = Ok s' /\ length s' = 54 /\
             nine_of_each s' /\
             forall label, occurrences label s' =
                           occurrences label RubikCube._create_solved_state.
Proof.
  apply (proj1 apply_move_keeps_nine_of_each).
  - reflexivity.
  - apply solved_nine_of_each.
  - vm_compute. tauto.
Defined.

End LabelMultiset.

(** *** Inverse moves *)

Section Inverses.
Import ndarray MoveEngine.

(** On the five faces other than Front, a move followed by its reverse (in
    the sense of [reverse_map]) restores every 54-label state. *)
Lemma inverse_law_off_front (s : ndarray.t) (m : string) :
  length s = 54 ->
  In m ["U"; "U'"; "U2"; "D"; "D'"; "D2"; "L"; "L'"; "L2";
        "R"; "R'"; "R2"; "B"; "B'"; "B2"] ->
  exists m', dict_get RubikCube.reverse_map m = Some m' /\ apply_moves s [m; m'] = Ok s.
Proof.
  intros Hlen Hin. explode s Hlen. clear Hlen.
  repeat (destruct Hin as [<-|Hin]; [eexists; split; [reflexivity|vm_compute; reflexivity]|]).
  destruct Hin.
Qed.

(** C2: on the state reached from the solved cube by U, the Front quarter
    turn followed by its inverse quarter turn (either order) and the Front
    half turn applied twice each succeed and return a state different from
    the one they started from: facelets 29 and 35 (and 42 and 44) come back
    exchanged. *)
Theorem front_turn_then_inverse_changes_state :
  (exists s', apply_moves after_U ["F"; "F'"] = Ok s' /\ s' <> after_U /\
              get s' 29 = get after_U 35 /\ get s' 35 = get after_U 29) /\
  (exists s', apply_moves after_U ["F'"; "F"] = Ok s' /\ s' <> after_U) /\
  (exists s', apply_moves after_U ["F2"; "F2"] = Ok s' /\ s' <> after_U).
Proof.
  split; [|split]; eexists; (split; [vm_compute; reflexivity|]);
    repeat split; try (vm_compute; reflexivity); vm_compute; discriminate.
Qed.

End Inverses.

(** ** The move sequence optimizer *)

Section Optimizer.
Import MoveOptimizer.

Lemma consecutive_length face moves run rest :
  consecutive face moves = Ok (run, rest) -> length run + length rest = length moves.
Proof.
  revert run rest. induction moves as [|m moves IH]; intros run rest; simpl.
  - intros [= <- <-]. done.
  - destruct (pystr.index0 m) as [e|f]; simpl; [done|].
    destruct (String.eqb f face).
    + destruct (consecutive face moves) as [e|[run' rest']]; simpl; [done|].
      intros [= <- <-]. simpl. specialize (IH run' rest' eq_refl). lia.
    + intros [= <- <-]. done.
Qed.

(** The loop never runs out of fuel when given the length of its input. *)
Lemma optimize_loop_fuel fuel moves optimized :
  length moves <= fuel -> optimize_loop fuel moves optimized <> None.
Proof.
  revert moves optimized. induction fuel as [|fuel IH]; intros moves optimized Hlen.
  - destruct moves; [done|simpl in Hlen; lia].
  - destruct moves as [|current_move after]; [done|]. cbn [optimize_loop].
    destruct (pystr.index0 current_move) as [e|face]; [done|].
    destruct (consecutive face after) as [e|[run rest]] eqn:Hc; [done|].
    destruct (sum_values (current_move :: run)) as [e|net]; [done|].
    apply IH. apply consecutive_length in Hc. simpl in Hlen. lia.
Qed.

Lemma optimize_loop_length fuel moves optimized out :
  optimize_loop fuel moves optimized = Some (Ok out) ->
  length out <= length optimized + length moves.
Proof.
  revert moves optimized. induction fuel as [|fuel IH]; intros moves optimized.
  - destruct moves; simpl; [|done]. intros [= <-]. lia.
  - destruct moves as [|current_move after]; cbn [optimize_loop].
    { intros [= <-]. simpl. lia. }
    destruct (pystr.index0 current_move) as [e|face]; [done|].
    destruct (consecutive face after) as [e|[run rest]] eqn:Hc; [done|].
    destruct (sum_values (current_move :: run)) as [e|net]; [done|].
    intros H. apply IH in H. apply consecutive_length in Hc.
    simpl. repeat case_match; rewrite ?length_app in H; simpl in H; lia.
Qed.

(** The output of the optimizer is never longer than its input. *)
Lemma optimize_sequence_length moves out :
  optimize_sequence moves = Some (Ok out) -> length out <= length moves.
Proof.
  destruct moves as [|m moves]; [by intros [= <-]|].
  unfold optimize_sequence. intros H. by apply optimize_loop_length in H.
Qed.

Lemma consecutive_vocabulary face moves :
  Forall (fun m => In m MoveEngine.get_all_moves) moves ->
  exists run rest, consecutive face moves = Ok (run, rest) /\
                   Forall (fun m => In m MoveEngine.get_all_moves) run /\
                   Forall (fun m => In m MoveEngine.get_all_moves) rest.
Proof.
  induction 1 as [|m moves Hm Hall IH]; simpl.
  - by exists [], [].
  - destruct IH as (run & rest & -> & Hrun & Hrest).
    assert (exists f, pystr.index0 m = Ok f) as [f ->].
    { vm_compute in Hm. repeat (destruct Hm as [<-|Hm]; [eexists; reflexivity|]). done. }
    simpl. destruct (String.eqb f face).
    + exists (m :: run), rest. repeat split; [by constructor|done].
    + exists [], (m :: moves). repeat split; [done|by constructor].
Qed.

Lemma sum_values_vocabulary moves :
  Forall (fun m => In m MoveEngine.get_all_moves) moves ->
  exists v, sum_values moves = Ok v.
Proof.
  induction 1 as [|m moves Hm Hall [v IH]]; simpl; [by eexists|].
  rewrite IH.
  vm_compute in Hm. repeat (destruct Hm as [<-|Hm]; [eexists; reflexivity|]). done.
Qed.

(** On sequences over the 18-move vocabulary the optimizer returns a
    sequence: no exception and no shortage of fuel. *)
Lemma optimize_loop_vocabulary fuel moves optimized :
  length moves <= fuel ->
  Forall (fun m => In m MoveEngine.get_all_moves) moves ->
  exists out, optimize_loop fuel moves optimized = Some (Ok out).
Proof.
  revert moves optimized. induction fuel as [|fuel IH]; intros moves optimized Hlen Hall.
  - destruct moves; [by eexists|simpl in Hlen; lia].
  - destruct Hall as [|current_move after Hm Hall]; [by eexists|]. cbn [optimize_loop].
    assert (exists f, pystr.index0 current_move = inr f) as [face ->].
    { vm_compute in Hm. repeat (destruct Hm as [<-|Hm]; [eexists; reflexivity|]). done. }
    cbv beta iota.
    destruct (consecutive_vocabulary face after Hall) as (run & rest & Hc & Hrun & Hrest).
    rewrite Hc. cbv beta iota.
    destruct (sum_values_vocabulary (current_move :: run)) as [net Hnet];
      [by constructor|].
    rewrite Hnet. cbv beta iota. apply IH; [|done].
    apply consecutive_length in Hc. simpl in Hlen. lia.
Qed.

Lemma optimize_sequence_vocabulary moves :
  Forall (fun m => In m MoveEngine.get_all_moves) moves ->
  exists out, optimize_sequence moves = Some (Ok out) /\ length out <= length moves.
Proof.
  intros Hall.
  assert (exists out, optimize_sequence moves = Some (Ok out)) as [out Hout].
  { destruct moves as [|m moves]; [by eexists|].
    unfold optimize_sequence. by apply optimize_loop_vocabulary. }
  exists out. split; [done|]. by apply optimize_sequence_length.
Qed.

(** C3: the optimizer turns the sequence F, F' into the empty sequence, yet
    on the state reached from the solved cube by U the two sequences lead to
    different states; the same holds for four F turns and for two F2 turns.
    (The length of the output never exceeds that of the input, see
    [optimize_sequence_vocabulary], and on sequences that avoid the Front
    face the two sequences do lead to the same state, see
    [optimize_sequence_off_front].) *)
Theorem optimize_sequence_changes_net_permutation :
  Forall
    (fun moves =>
       optimize_sequence moves = Some (Ok []) /\
       exists s1, apply_moves after_U moves = Ok s1 /\
                  apply_moves after_U [] = Ok after_U /\ s1 <> after_U)
    [ ["F"; "F'"]; ["F"; "F"; "F"; "F"]; ["F2"; "F2"] ].
Proof.
  repeat constructor; try (vm_compute; reflexivity);
    eexists; (split; [vm_compute; reflexivity|]);
    split; try (vm_compute; reflexivity); vm_compute; discriminate.
Qed.

End Optimizer.

(** ** Scrambling *)

Lemma chain_no_immediate_reverse last moves :
  chain last moves -> no_immediate_reverse moves.
Proof.
  revert last. induction moves as [|m1 [|m2 moves] IH]; intros last; simpl; try done.
  intros [_ [H1 H2]]. split; [done|]. apply (IH (Some m1)). by split.
Qed.

Lemma execute_move_valid (self : RubikCube.t) move :
  In move MoveEngine.get_all_moves ->
  exists s', MoveEngine.apply_move (RubikCube.state self) move = Ok s' /\
    RubikCube.execute_move self move =
      Ok {| RubikCube.state := s';
            RubikCube.move_history := RubikCube.move_history self ++ [move];
            RubikCube.move_count := (RubikCube.move_count self + 1)%Z |}.
Proof.
  intros Hin. destruct (In_all_moves_valid move Hin) as [f Hf].
  unfold RubikCube.execute_move, MoveEngine.apply_move, MoveEngine.is_valid_move.
  rewrite Hf. simpl. by eexists.
Qed.

Lemma valid_moves_nonempty last :
  List.filter (fun m => negb (RubikCube._is_reverse_move m last)) MoveEngine.get_all_moves
  <> [].
Proof.
  intros Hnil.
  assert (forall m, In m MoveEngine.get_all_moves ->
                    RubikCube._is_reverse_move m last = true) as Hall.
  { intros m Hm. destruct (RubikCube._is_reverse_move m last) eqn:Hr; [done|].
    assert (In m []) as []. rewrite <- Hnil. apply filter_In. by rewrite Hr. }
  pose proof (Hall "U" ltac:(vm_compute; tauto)) as HU.
  pose proof (Hall "D" ltac:(vm_compute; tauto)) as HD.
  destruct last as [last|]; [|done]. unfold RubikCube._is_reverse_move in *.
  apply String.eqb_eq in HU, HD. congruence.
Qed.

Section ScrambleFacts.
Variable rng : Type.
Variable np_random_seed : Z -> result rng.
Variable np_random_choice : rng -> list string -> string * rng.
Hypothesis choice_in :
  forall g l, l <> [] -> In (fst (np_random_choice g l)) l.

Lemma scramble_loop_spec iterations (self : RubikCube.t) scramble_moves last g :
  exists moves self' g',
    RubikCube.scramble_loop rng np_random_choice iterations MoveEngine.get_all_moves
      self scramble_moves last g = (Ok (scramble_moves ++ moves), self', g') /\
    length moves = iterations /\
    valid_moves moves /\
    chain last moves /\
    RubikCube.move_history self' = RubikCube.move_history self ++ moves /\
    apply_moves (RubikCube.state self) moves = Ok (RubikCube.state self').
Proof.
  revert self scramble_moves last g.
  induction iterations as [|iterations IH]; intros self scramble_moves last g;
    cbn [RubikCube.scramble_loop].
  - exists [], self, g. rewrite !app_nil_r. split; [done|]. split; [done|].
    split; [constructor|]. done.
  - pose proof (choice_in g _ (valid_moves_nonempty last)) as Hin.
    destruct (np_random_choice g _) as [move g1]. cbn [fst] in Hin.
    apply filter_In in Hin as [Hin Hrev]. apply negb_true_iff in Hrev.
    destruct (execute_move_valid self move Hin) as (s' & Happ & ->).
    destruct (IH {| RubikCube.state := s';
                    RubikCube.move_history := RubikCube.move_history self ++ [move];
                    RubikCube.move_count := (RubikCube.move_count self + 1)%Z |}
                 (scramble_moves ++ [move]) (Some move) g1)
      as (moves & self' & g' & -> & Hlen & Hvalid & Hchain & Hhist & Hstate).
    exists (move :: moves), self', g'. cbn [RubikCube.move_history RubikCube.state] in *.
    rewrite <- !app_assoc in *. cbn [app length chain apply_moves] in *.
    rewrite Happ. unfold rbind.
    split; [done|]. split; [by rewrite Hlen|]. split; [by constructor|].
    split; [done|]. split; done.
Qed.

(** On the vocabulary, what [_is_reverse_move] rules out includes the
    immediate face-reversal. *)
Lemma face_reversal_ruled_out (m1 m2 : string) :
  In m1 MoveEngine.get_all_moves ->
  RubikCube._is_reverse_move m2 (Some m1) = false -> face_reversal m1 <> Some m2.
Proof.
  intros Hin Hrev. vm_compute in Hin.
  repeat (destruct Hin as [<-|Hin];
    [intros [= <-]; vm_compute in Hrev; discriminate Hrev|]).
  destruct Hin.
Qed.

Lemma chain_no_face_reversal last moves :
  valid_moves moves -> chain last moves -> no_face_reversal moves.
Proof.
  intros Hvalid. revert last.
  induction Hvalid as [|m1 moves Hm1 Hvalid IH]; intros last; [done|].
  destruct moves as [|m2 moves]; [done|].
  intros [_ Hchain]. pose proof Hchain as [Hrev _].
  split; [by apply face_reversal_ruled_out|]. by apply (IH (Some m1)).
Qed.

(** C5, amended: for every move count [n] and every seed, scrambling two
    freshly constructed cubes, whatever the state of the global generator
    before each call, behaves the same on both. When [np.random.seed]
    accepts the seed, both calls return the same list of moves and leave the
    two cubes in the same state; the list, which is also the recorded move
    history of each cube, is over the vocabulary, has [max(n, 0)] moves
    (exactly [n] when [n >= 0]), and no move of it is the immediate
    face-reversal of the move just before it. When [np.random.seed] rejects
    the seed, both calls raise its error and leave the cubes and the
    generator as they were. *)
Theorem scramble_deterministic (n seed : Z) (ga gb : rng)
    (cube1 cube2 : RubikCube.t) :
  RubikCube.__init__ None = Ok cube1 ->
  RubikCube.__init__ None = Ok cube2 ->
  match np_random_seed seed with
  | inr _ =>
      exists moves cube1' cube2' ga' gb',
        RubikCube.scramble rng np_random_seed np_random_choice cube1 n (Some seed) ga
          = (Ok moves, cube1', ga') /\
        RubikCube.scramble rng np_random_seed np_random_choice cube2 n (Some seed) gb
          = (Ok moves, cube2', gb') /\
        RubikCube.state cube1' = RubikCube.state cube2' /\
        apply_moves RubikCube._create_solved_state moves = Ok (RubikCube.state cube1') /\
        RubikCube.move_history cube1' = moves /\
        RubikCube.move_history cube2' = moves /\
        valid_moves moves /\
        Z.of_nat (length moves) = Z.max n 0 /\
        no_face_reversal moves
  | inl e =>
      RubikCube.scramble rng np_random_seed np_random_choice cube1 n (Some seed) ga
        = (Raise e, cube1, ga) /\
      RubikCube.scramble rng np_random_seed np_random_choice cube2 n (Some seed) gb
        = (Raise e, cube2, gb)
  end.
Proof.
  intros [= <-] [= <-].
  unfold RubikCube.scramble. destruct (np_random_seed seed) as [e|g0]; [done|].
  destruct (scramble_loop_spec (Z.to_nat n)
              {| RubikCube.state := RubikCube._create_solved_state;
                 RubikCube.move_history := []; RubikCube.move_count := 0 |} [] None g0)
    as (moves & self' & g' & Heq & Hlen & Hvalid & Hchain & Hhist & Hstate).
  exists moves, self', self', g', g'. simpl in *.
  do 7 (split; [done|]). split; [lia|].
  by apply (chain_no_face_reversal None).
Qed.

End ScrambleFacts.

Lemma counter_choice_in g l : l <> [] -> In (fst (counter_choice g l)) l.
Proof.
  intros Hl. simpl. apply nth_In. apply Nat.mod_upper_bound.
  destruct l; [done|simpl; lia].
Qed.

(** C5, as stated, fails. With the seed -1, which [np.random.seed]
    rejects, [scramble(10, -1)] on a freshly solved cube raises and records
    no move. With the move count -1 and the seed 42, it returns the empty
    list, whose length 0 is not the move count. *)
Lemma scramble_rejected_seed_and_negative_count :
  RubikCube.scramble nat counter_seed counter_choice solved_cube 10 (Some (-1)%Z) 0
  = (Raise (ValueError "Seed must be between 0 and 2**32 - 1"), solved_cube, 0) /\
  RubikCube.move_history solved_cube = [] /\
  exists cube' g',
    RubikCube.scramble nat counter_seed counter_choice solved_cube (-1) (Some 42%Z) 0
    = (Ok [], cube', g') /\
    Z.of_nat (length (@nil string)) <> (-1)%Z.
Proof.
  split; [reflexivity|]. split; [reflexivity|].
  eexists _, _. split; [reflexivity|]. discriminate.
Qed.

Lemma scramble_deterministic_witness :
  exists moves cube1' cube2' ga' gb',
    RubikCube.scramble nat counter_seed counter_choice solved_cube 10 (Some 42%Z) 0
      = (Ok moves, cube1', ga') /\
    RubikCube.scramble nat counter_seed counter_choice solved_cube 10 (Some 42%Z) 7
      = (Ok moves, cube2', gb') /\
    RubikCube.state cube1' = RubikCube.state cube2' /\
    apply_moves RubikCube._create_solved_state moves = Ok (RubikCube.state cube1') /\
    RubikCube.move_history cube1' = moves /\
    RubikCube.move_history cube2' = moves /\
    valid_moves moves /\
    Z.of_nat (length moves) = Z.max 10 0 /\
    no_face_reversal moves.
Proof.
  apply (scramble_deterministic nat counter_seed counter_choice counter_choice_in
           10 42 0 7 solved_cube solved_cube).
  - reflexivity.
  - reflexivity.
Defined.

(** ** The heuristic estimators *)

Section HeuristicFacts.
Import ndarray Heuristics.

Lemma array_equal_eq (a b : ndarray.t) : array_equal a b = true <-> a = b.
Proof.
  revert b. induction a as [|x a IH]; intros [|y b]; simpl; try done.
  rewrite andb_true_iff, Z.eqb_eq, IH. split; [intros [-> ->]|intros [= -> ->]]; done.
Qed.

Lemma fold_left_bounds {X} (f : Z -> X -> Z) (k : Z) (l : list X) (acc : Z) :
  (forall a x, a <= f a x <= a + k)%Z ->
  (acc <= fold_left f l acc <= acc + k * Z.of_nat (length l))%Z.
Proof.
  intros Hf. revert acc. induction l as [|x l IH]; intros acc; simpl length; simpl fold_left.
  - lia.
  - specialize (IH (f acc x)). specialize (Hf acc x). lia.
Qed.

Lemma manhattan_face_bounds current_face solved_face distance :
  (distance <= manhattan_face current_face solved_face distance)%Z.
Proof.
  unfold manhattan_face.
  pose proof (fold_left_bounds
    (fun distance '(i, j) =>
       if negb ((i =? 1) && (j =? 1)) then
         if negb (get current_face (3 * i + j) =? get solved_face (3 * i + j))%Z
         then (distance + 1)%Z else distance
       else distance) 1 grid distance) as H.
  apply H. intros a [i j]. repeat case_match; lia.
Qed.

Lemma manhattan_faces_bounds cube solved_cube faces distance :
  Forall (fun f => (0 <= f < 6)%Z) faces ->
  exists d, manhattan_faces cube solved_cube faces distance = Ok d /\ (distance <= d)%Z.
Proof.
  intros Hfaces. revert distance.
  induction Hfaces as [|f faces Hf Hfaces IH]; intros distance; simpl.
  - by exists distance.
  - unfold RubikCube.get_face.
    assert ((0 <=? f)%Z && (f <? 6)%Z = true) as -> by lia. simpl.
    destruct (IH (manhattan_face
                    (slice (RubikCube.state cube) (Z.to_nat f * 9) ((Z.to_nat f + 1) * 9))
                    (slice (RubikCube.state solved_cube) (Z.to_nat f * 9)
                           ((Z.to_nat f + 1) * 9)) distance))
      as (d & -> & Hd).
    exists d. split; [done|].
    pose proof (manhattan_face_bounds
                    (slice (RubikCube.state cube) (Z.to_nat f * 9) ((Z.to_nat f + 1) * 9))
                    (slice (RubikCube.state solved_cube) (Z.to_nat f * 9)
                           ((Z.to_nat f + 1) * 9)) distance). lia.
Qed.

Lemma manhattan_distance_bounds cube :
  exists h, manhattan_distance cube = Ok h /\ (0 <= h <= 5)%Z.
Proof.
  cbv beta iota zeta delta [manhattan_distance rbind RubikCube.__init__].
  destruct (manhattan_faces_bounds cube
              {| RubikCube.state := RubikCube._create_solved_state;
                 RubikCube.move_history := []; RubikCube.move_count := 0 |}
              (map Z.of_nat (seq 0 6)) 0%Z) as (d & Hd & Hge).
  { simpl. repeat constructor; lia. }
  rewrite Hd. eexists. split; [done|].
  split; [apply Z.div_pos; lia|].
  apply Z.div_le_upper_bound; lia.
Qed.

Lemma corner_edge_heuristic_bounds cube :
  exists h, corner_edge_heuristic cube = Ok h /\ (0 <= h <= 7)%Z.
Proof.
  unfold corner_edge_heuristic. destruct (RubikCube.is_solved cube).
  { exists 0%Z. split; [done|lia]. }
  cbv beta iota zeta delta [rbind RubikCube.__init__]. eexists. split; [done|].
  set (sc := {| RubikCube.state := RubikCube._create_solved_state;
                RubikCube.move_history := []; RubikCube.move_count := 0 |}).
  pose proof (fold_left_bounds (corner_step cube sc) 2 corners 0) as Hc.
  pose proof (fold_left_bounds (edge_step cube sc) 1 edges
                (fold_left (corner_step cube sc) corners 0%Z)) as He.
  assert (0 <= fold_left (edge_step cube sc) edges
                 (fold_left (corner_step cube sc) corners 0) <= 28)%Z as Hb.
  { change (Z.of_nat (length corners)) with 8%Z in Hc.
    change (Z.of_nat (length edges)) with 12%Z in He.
    assert (forall a x, a <= corner_step cube sc a x <= a + 2)%Z as H1.
    { intros a x. unfold corner_step. repeat case_match; lia. }
    assert (forall a x, a <= edge_step cube sc a x <= a + 1)%Z as H2.
    { intros a x. unfold edge_step. repeat case_match; lia. }
    specialize (Hc H1). specialize (He H2). lia. }
  destruct (_ >? 0)%Z; [|lia].
  assert (fold_left (edge_step cube sc) edges
            (fold_left (corner_step cube sc) corners 0) / 4 <= 7)%Z.
  { apply Z.div_le_upper_bound; lia. }
  lia.
Qed.

Lemma layer_fold_bounds (test : nat -> bool) (l : list nat) (b : bool) (acc : Z) :
  (acc <= snd (fold_left
                 (fun '(bottom_solved, heuristic) pos =>
                    if test pos then (false, (heuristic + 1)%Z)
                    else (bottom_solved, heuristic))
                 l (b, acc))
       <= acc + Z.of_nat (length l))%Z.
Proof.
  revert b acc. induction l as [|x l IH]; intros b acc; cbn [fold_left length].
  - cbn [snd]. lia.
  - destruct (test x).
    + specialize (IH false (acc + 1)%Z). lia.
    + specialize (IH b acc). lia.
Qed.

Lemma layer_completion_heuristic_bounds cube :
  exists h, layer_completion_heuristic cube = Ok h /\ (0 <= h <= 49)%Z.
Proof.
  cbv beta iota zeta delta [layer_completion_heuristic rbind RubikCube.__init__].
  pose proof (layer_fold_bounds
    (fun pos => negb (get (RubikCube.state cube) pos =? get RubikCube._create_solved_state pos)%Z)
    bottom_positions true 0) as Hb.
  change (Z.of_nat (length bottom_positions)) with 21%Z in Hb.
  destruct (fold_left _ bottom_positions (true, 0%Z)) as [bottom_solved heuristic].
  cbn [snd] in Hb. eexists. split; [done|].
  destruct bottom_solved; simpl negb; cbv iota.
  - pose proof (fold_left_bounds
      (fun heuristic pos =>
         if negb (get (RubikCube.state cube) pos =? get RubikCube._create_solved_state pos)%Z
         then (heuristic + 2)%Z else heuristic) 2 middle_positions heuristic) as Hm.
    change (Z.of_nat (length middle_positions)) with 14%Z in Hm.
    assert (forall (a : Z) (x : nat),
       (a <= (if negb (get (RubikCube.state cube) x =? get RubikCube._create_solved_state x)%Z
              then a + 2 else a) <= a + 2)%Z) as H1.
    { intros a x. case_match; lia. }
    specialize (Hm H1). lia.
  - lia.
Qed.

(** The binary64 weighted sum, truncated, is non-negative on the whole range
    of the three estimators. *)
Lemma weighted_nonneg (h1 h2 h3 : Z) :
  (0 <= h1 <= 5)%Z -> (0 <= h2 <= 7)%Z -> (0 <= h3 <= 49)%Z ->
  (0 <= weighted h1 h2 h3)%Z.
Proof.
  intros H1 H2 H3.
  assert (forallb (fun a => forallb (fun b => forallb (fun c =>
            (0 <=? weighted (Z.of_nat a) (Z.of_nat b) (Z.of_nat c))%Z)
            (seq 0 50)) (seq 0 8)) (seq 0 6) = true) as Hall
    by (vm_compute; reflexivity).
  rewrite forallb_forall in Hall.
  specialize (Hall (Z.to_nat h1)). rewrite forallb_forall in Hall.
  specialize (Hall ltac:(apply in_seq; lia) (Z.to_nat h2)). rewrite forallb_forall in Hall.
  specialize (Hall ltac:(apply in_seq; lia) (Z.to_nat h3) ltac:(apply in_seq; lia)).
  rewrite !Z2Nat.id in Hall by lia. lia.
Qed.

Lemma heuristics_nonneg cube :
  exists h1 h2 h3 h4,
    manhattan_distance cube = Ok h1 /\ corner_edge_heuristic cube = Ok h2 /\
    layer_completion_heuristic cube = Ok h3 /\ combined_heuristic cube = Ok h4 /\
    (0 <= h1)%Z /\ (0 <= h2)%Z /\ (0 <= h3)%Z /\ (0 <= h4)%Z.
Proof.
  destruct (manhattan_distance_bounds cube) as (h1 & E1 & B1).
  destruct (corner_edge_heuristic_bounds cube) as (h2 & E2 & B2).
  destruct (layer_completion_heuristic_bounds cube) as (h3 & E3 & B3).
  exists h1, h2, h3, (weighted h1 h2 h3).
  unfold combined_heuristic. rewrite E1, E2, E3. simpl.
  repeat split; try done; try lia. by apply weighted_nonneg.
Qed.

Lemma heuristics_after_one_move move s hist cnt :
  In move MoveEngine.get_all_moves ->
  MoveEngine.apply_move RubikCube._create_solved_state move = Ok s ->
  let cube := {| RubikCube.state := s; RubikCube.move_history := hist;
                 RubikCube.move_count := cnt |} in
  exists h1 h2 h3 h4,
    manhattan_distance cube = Ok h1 /\ corner_edge_heuristic cube = Ok h2 /\
    layer_completion_heuristic cube = Ok h3 /\ combined_heuristic cube = Ok h4 /\
    (0 < h1)%Z /\ (0 < h2)%Z /\ (0 < h3)%Z /\ (0 < h4)%Z.
Proof.
  intros Hin Happ. vm_compute in Hin.
  repeat (destruct Hin as [<-|Hin];
          [vm_compute in Happ; injection Happ as <-;
           do 4 eexists; do 7 (split; [vm_compute; reflexivity|]);
           vm_compute; reflexivity|]).
  destruct Hin.
Qed.

End HeuristicFacts.

Lemma reachable_apply_moves (s s' : ndarray.t) (moves : list string) :
  reachable s -> Forall (fun m => In m MoveEngine.get_all_moves) moves ->
  apply_moves s moves = Ok s' -> reachable s'.
Proof.
  intros Hr Hall. revert s Hr. induction Hall as [|m moves Hm Hall IH]; intros s Hr; simpl.
  - by intros [= <-].
  - destruct (MoveEngine.apply_move s m) as [e|s1] eqn:Hs1; simpl; [done|].
    apply IH. by eapply reachable_move.
Qed.

Section HeuristicClaims.
Import ndarray Heuristics.

(** C9, as stated, fails: the misplaced-facelet estimator is 0 on a state of
    54 labels, reachable from the solved state by moves, that is not solved. *)
Lemma manhattan_distance_zero_on_unsolved_state :
  length (RubikCube.state two_facelets_exchanged) = 54 /\
  reachable (RubikCube.state two_facelets_exchanged) /\
  RubikCube.is_solved two_facelets_exchanged = false /\
  manhattan_distance two_facelets_exchanged = Ok 0%Z.
Proof.
  split; [reflexivity|]. split; [|split; vm_compute; reflexivity].
  apply (reachable_apply_moves RubikCube._create_solved_state _ ["U"; "F"; "F'"; "U'"]).
  - apply reachable_solved.
  - apply List.Forall_forall. intros m Hm. vm_compute in Hm |- *. tauto.
  - vm_compute. reflexivity.
Qed.

(** C9, amended: on a cube of 54 labels each of the four estimators returns a
    non-negative integer; all four return 0 when the cube is solved; and all
    four return a strictly positive value when the cube is the solved cube
    after one move of the 18-move vocabulary. *)
Theorem heuristics_zero_at_solved_positive_after_one_move (cube : RubikCube.t) :
  length (RubikCube.state cube) = 54 ->
  exists h1 h2 h3 h4,
    manhattan_distance cube = Ok h1 /\ corner_edge_heuristic cube = Ok h2 /\
    layer_completion_heuristic cube = Ok h3 /\ combined_heuristic cube = Ok h4 /\
    ((0 <= h1)%Z /\ (0 <= h2)%Z /\ (0 <= h3)%Z /\ (0 <= h4)%Z) /\
    (RubikCube.is_solved cube = true -> h1 = 0%Z /\ h2 = 0%Z /\ h3 = 0%Z /\ h4 = 0%Z) /\
    (forall move,
        In move MoveEngine.get_all_moves ->
        MoveEngine.apply_move RubikCube._create_solved_state move
          = Ok (RubikCube.state cube) ->
        (0 < h1)%Z /\ (0 < h2)%Z /\ (0 < h3)%Z /\ (0 < h4)%Z).
Proof.
  intros _.
  destruct (heuristics_nonneg cube) as (h1 & h2 & h3 & h4 & E1 & E2 & E3 & E4 & Hnn).
  exists h1, h2, h3, h4. do 4 (split; [done|]). split; [done|]. split.
  - destruct cube as [s hist cnt]. unfold RubikCube.is_solved. simpl RubikCube.state.
    intros Hs. apply array_equal_eq in Hs. subst s.
    vm_compute in E1, E2, E3, E4. by injection E1 as <-; injection E2 as <-;
      injection E3 as <-; injection E4 as <-.
  - intros move Hin Happ. destruct cube as [s hist cnt]. simpl RubikCube.state in Happ.
    destruct (heuristics_after_one_move move s hist cnt Hin Happ)
      as (k1 & k2 & k3 & k4 & F1 & F2 & F3 & F4 & Hpos).
    rewrite F1 in E1. rewrite F2 in E2. rewrite F3 in E3. rewrite F4 in E4.
    injection E1 as <-. injection E2 as <-. injection E3 as <-. injection E4 as <-.
    done.
Qed.

Lemma heuristics_zero_at_solved_positive_after_one_move_witness :
  let cube := {| RubikCube.state := after_U; RubikCube.move_history := ["U"];
                 RubikCube.move_count := 1 |} in
  exists h1 h2 h3 h4,
    manhattan_distance cube = Ok h1 /\ corner_edge_heuristic cube = Ok h2 /\
    layer_completion_heuristic cube = Ok h3 /\ combined_heuristic cube = Ok h4 /\
    ((0 <= h1)%Z /\ (0 <= h2)%Z /\ (0 <= h3)%Z /\ (0 <= h4)%Z) /\
    (RubikCube.is_solved cube = true -> h1 = 0%Z /\ h2 = 0%Z /\ h3 = 0%Z /\ h4 = 0%Z) /\
    (forall move,
        In move MoveEngine.get_all_moves ->
        MoveEngine.apply_move RubikCube._create_solved_state move
          = Ok (RubikCube.state cube) ->
        (0 < h1)%Z /\ (0 < h2)%Z /\ (0 < h3)%Z /\ (0 < h4)%Z).
Proof.
  intros cube.
  apply (heuristics_zero_at_solved_positive_after_one_move cube).
  reflexivity.
Defined.

End HeuristicClaims.

(** ** The object store *)

Section StoreFacts.

Lemma bind_ok {A B} (c : M A) (k : A -> M B) w a w' :
  c w = (Ok a, w') -> bind c k w = k a w'.
Proof. unfold bind. by intros ->. Qed.

Lemma bind_raise {A B} (c : M A) (k : A -> M B) w e w' :
  c w = (Raise e, w') -> bind c k w = (Raise e, w').
Proof. unfold bind. by intros ->. Qed.

Lemma extends_refl w : extends w w.
Proof. split; [done|]. reflexivity. Qed.

Lemma extends_trans w1 w2 w3 : extends w1 w2 -> extends w2 w3 -> extends w1 w3.
Proof.
  intros [S1 P1] [S2 P2]. split; [congruence|]. by etransitivity.
Qed.

Lemma extends_lookup w w' r c :
  extends w w' -> cubes w !! r = Some c -> cubes w' !! r = Some c.
Proof. intros [_ HP] Hr. by eapply prefix_lookup_Some. Qed.

Lemma extends_push w c : extends w (push w c).
Proof. split; [done|]. by apply prefix_app_r. Qed.

Lemma set_cube_push w c c' : set_cube (push w c) (length (cubes w)) c' = push w c'.
Proof.
  unfold set_cube, push. simpl. f_equal.
  rewrite insert_app_r_alt by lia. by rewrite Nat.sub_diag.
Qed.

Lemma lookup_push w c : cubes (push w c) !! length (cubes w) = Some c.
Proof. simpl. by rewrite list_lookup_middle. Qed.

Lemma stable_refl n w : stable n w w.
Proof. by repeat split. Qed.

Lemma stable_trans n w1 w2 w3 : stable n w1 w2 -> stable n w2 w3 -> stable n w1 w3.
Proof.
  intros (S1 & T1 & L1) (S2 & T2 & L2). repeat split; [congruence|congruence|lia].
Qed.

Lemma extends_stable n w w' : n <= length (cubes w) -> extends w w' -> stable n w w'.
Proof.
  intros Hn [HS [l Hl]]. split; [done|]. rewrite Hl. split.
  - by rewrite take_app_le.
  - rewrite length_app. lia.
Qed.

Lemma stable_set_cube n w r c : n <= r -> stable n w (set_cube w r c).
Proof.
  intros Hn. repeat split; simpl.
  - by rewrite take_insert_ge.
  - by rewrite length_insert.
Qed.

Lemma stable_extends w w' :
  stable (length (cubes w)) w w' -> extends w w'.
Proof.
  intros (HS & HT & HL). split; [done|].
  rewrite firstn_all in HT. rewrite <- HT. apply prefix_take.
Qed.

Lemma read_eq {A} r (f : RubikCube.t -> A) w c :
  cubes w !! r = Some c -> read r f w = (Ok (f c), w).
Proof. intros Hr. unfold read, bind, load. by rewrite Hr. Qed.

Lemma is_solved_eq r w c :
  cubes w !! r = Some c -> is_solved r w = (Ok (RubikCube.is_solved c), w).
Proof. apply read_eq. Qed.

Lemma call_eq {A} r (method : RubikCube.t -> result A * RubikCube.t) w c res c' :
  cubes w !! r = Some c -> method c = (res, c') ->
  call r method w = (res, set_cube w r c').
Proof.
  intros Hr Hm. unfold call, bind, load. rewrite Hr. rewrite Hm. unfold store.
  by destruct res.
Qed.

Lemma copy_eq r w c :
  cubes w !! r = Some c -> length (RubikCube.state c) = 54 ->
  copy r w = (Ok (length (cubes w)), push w (copied c)).
Proof.
  intros Hr Hlen. unfold copy, bind, load. rewrite Hr.
  unfold RubikCube.copy, RubikCube.__init__. rewrite Hlen. reflexivity.
Qed.

Lemma new_RubikCube_eq w :
  new_RubikCube None w = (Ok (length (cubes w)), push w solved_cube).
Proof. reflexivity. Qed.

End StoreFacts.

(** ** The solver *)

Lemma apply_moves_app s p q :
  apply_moves s (p ++ q) = rbind (apply_moves s p) (fun s' => apply_moves s' q).
Proof.
  revert s. induction p as [|m p IH]; intros s; simpl; [done|].
  destruct (MoveEngine.apply_move s m); simpl; [done|]. apply IH.
Qed.

Lemma apply_moves_Ok s moves :
  valid_moves moves -> length s = 54 ->
  exists s', apply_moves s moves = Ok s' /\ length s' = 54.
Proof.
  intros Hall. revert s. induction Hall as [|m moves Hm Hall IH]; intros s Hlen; simpl.
  - by exists s.
  - destruct (apply_move_Ok s m Hm Hlen) as (s1 & -> & _ & Hlen1). simpl. by apply IH.
Qed.

(** The object-level [execute_sequence] applies the moves to [self.state]
    and records them. *)
Lemma execute_sequence_valid (self : RubikCube.t) moves :
  valid_moves moves ->
  exists s', apply_moves (RubikCube.state self) moves = Ok s' /\
    RubikCube.execute_sequence self moves =
      (Ok tt, {| RubikCube.state := s';
                 RubikCube.move_history := RubikCube.move_history self ++ moves;
                 RubikCube.move_count :=
                   (RubikCube.move_count self + Z.of_nat (length moves))%Z |}).
Proof.
  intros Hall. revert self. induction Hall as [|m moves Hm Hall IH]; intros self.
  - exists (RubikCube.state self). split; [done|]. simpl. destruct self; simpl.
    rewrite app_nil_r, Z.add_0_r. done.
  - destruct (execute_move_valid self m Hm) as (s1 & Happ & Hexec).
    cbn [RubikCube.execute_sequence apply_moves]. rewrite Hexec, Happ. unfold rbind.
    destruct (IH {| RubikCube.state := s1;
                    RubikCube.move_history := RubikCube.move_history self ++ [m];
                    RubikCube.move_count := (RubikCube.move_count self + 1)%Z |})
      as (s' & Hs' & ->).
    exists s'. split; [done|]. cbn [RubikCube.state RubikCube.move_history
                                    RubikCube.move_count].
    rewrite <- app_assoc.
    replace (RubikCube.move_count self + 1 + Z.of_nat (length moves))%Z
      with (RubikCube.move_count self + Z.of_nat (length (m :: moves)))%Z
      by (simpl length; lia).
    done.
Qed.

Lemma check_valid_sound moves : check_valid moves = true -> valid_moves moves.
Proof.
  unfold check_valid, valid_moves. rewrite forallb_forall, List.Forall_forall.
  intros H m Hm. specialize (H m Hm). apply existsb_exists in H as (m' & Hin & Heq).
  apply String.eqb_eq in Heq. by subst.
Qed.

Section SolverFacts.
Import AStarSolver.
Variable hash : list Z -> Z.

(** *** Strategy 1: bounded breadth-first search *)

Lemma entry_ok_extends s0 w w' e : extends w w' -> entry_ok s0 w e -> entry_ok s0 w' e.
Proof.
  intros Hext (c & Hc & H). exists c. split; [|done]. by eapply extends_lookup.
Qed.

Lemma bfs_moves_valid m : In m bfs_moves -> In m MoveEngine.get_all_moves.
Proof. vm_compute. tauto. Qed.

Lemma execute_move_eq r w c move :
  cubes w !! r = Some c -> In move MoveEngine.get_all_moves ->
  exists s', MoveEngine.apply_move (RubikCube.state c) move = Ok s' /\
    execute_move r move w =
      (Ok tt, set_cube w r
         {| RubikCube.state := s';
            RubikCube.move_history := RubikCube.move_history c ++ [move];
            RubikCube.move_count := (RubikCube.move_count c + 1)%Z |}).
Proof.
  intros Hr Hin. destruct (execute_move_valid c move Hin) as (s' & Happ & Hexec).
  exists s'. split; [done|]. unfold execute_move.
  erewrite call_eq; [done|done|]. by rewrite Hexec.
Qed.

Lemma bfs_expand_spec s0 moves :
  Forall (fun m => In m bfs_moves) moves ->
  forall w queue current_cube path,
    entry_ok s0 w (current_cube, path) ->
    Forall (entry_ok s0 w) queue ->
    exists r w', bfs_expand current_cube path moves queue w = (Ok r, w') /\
      extends w w' /\
      match r with
      | Return v => bfs_sound s0 v /\ v <> None
      | Next queue' => Forall (entry_ok s0 w') queue'
      end.
Proof.
  induction 1 as [|move moves Hmove Hmoves IH]; intros w queue current_cube path Hcur Hq.
  - exists (Next queue), w. split; [done|]. split; [apply extends_refl|done].
  - cbn [bfs_expand]. destruct (_ && _).
    { by apply IH. }
    destruct Hcur as (c & Hc & Hlen & Hpath & Hstate). simpl in Hc, Hpath, Hstate.
    rewrite (bind_ok _ _ _ _ _ (copy_eq _ _ _ Hc Hlen)).
    destruct (execute_move_eq (length (cubes w)) (push w (copied c)) (copied c) move
                (lookup_push _ _) (bfs_moves_valid _ Hmove)) as (s' & Happ & Hexec).
    unfold copied in Happ. cbn [RubikCube.state] in Happ.
    rewrite (bind_ok _ _ _ _ _ Hexec). rewrite set_cube_push.
    set (c' := {| RubikCube.state := s' |}).
    rewrite (bind_ok _ _ _ _ _ (is_solved_eq _ _ _ (lookup_push w c'))).
    assert (apply_moves s0 (path ++ [move]) = Ok s') as Hs'.
    { rewrite apply_moves_app, Hstate. cbn [rbind apply_moves]. by rewrite Happ. }
    assert (Forall (fun m => In m bfs_moves) (path ++ [move])) as Hpath'.
    { apply Forall_app. split; [done|]. by constructor. }
    destruct (RubikCube.is_solved c') eqn:Hsolved.
    + exists (Return (Some (path ++ [move]))), (push w c').
      split; [done|]. split; [apply extends_push|]. split; [|done].
      split; [by destruct path|]. split; [done|].
      rewrite Hs'. f_equal. by apply array_equal_eq.
    + destruct (IH (push w c') (queue ++ [(length (cubes w), path ++ [move])])
                  current_cube path) as (r & w' & Heq & Hext & Hr).
      * apply (entry_ok_extends _ w); [apply extends_push|]. by exists c.
      * apply Forall_app. split.
        -- eapply Forall_impl; [exact Hq|]. intros e. apply entry_ok_extends, extends_push.
        -- constructor; [|done]. exists c'. simpl. split; [by rewrite list_lookup_middle|].
           split; [|done].
           destruct (apply_move_Ok (RubikCube.state c) move (bfs_moves_valid _ Hmove) Hlen)
             as (s'' & Hs'' & _ & Hlen''). simpl. congruence.
      * exists r, w'. split; [done|]. split; [|done].
        eapply extends_trans; [apply extends_push|done].
Qed.

Lemma bfs_level_spec s0 level_size :
  forall w queue visited,
    Forall (entry_ok s0 w) queue ->
    exists r w', bfs_level hash level_size queue visited w = (Ok r, w') /\
      extends w w' /\
      match r with
      | Return v => bfs_sound s0 v /\ v <> None
      | Next (queue', _) => Forall (entry_ok s0 w') queue'
      end.
Proof.
  induction level_size as [|level_size IH]; intros w queue visited Hq.
  - exists (Next (queue, visited)), w. split; [done|]. split; [apply extends_refl|done].
  - cbn [bfs_level]. destruct Hq as [|[current_cube path] queue Hcur Hq].
    { exists (Next ([], visited)), w. split; [done|]. split; [apply extends_refl|done]. }
    pose proof Hcur as (c & Hc & _). simpl in Hc.
    unfold _quick_hash.
    rewrite (bind_ok _ _ _ _ _ (bind_ok _ _ _ _ _ (read_eq _ RubikCube.state _ _ Hc))).
    unfold ret at 1.
    destruct (existsb _ visited).
    { by apply IH. }
    destruct (bfs_expand_spec s0 bfs_moves ltac:(by apply List.Forall_forall)
                w queue current_cube path Hcur Hq) as (r & w1 & Heq & Hext & Hr).
    rewrite (bind_ok _ _ _ _ _ Heq).
    destruct r as [v|queue'].
    + exists (Return v), w1. split; [done|]. by split.
    + destruct (IH w1 queue' (hash (take 24 (RubikCube.state c)) :: visited) Hr)
        as (r & w' & Heq' & Hext' & Hr').
      exists r, w'. split; [done|]. split; [|done]. by eapply extends_trans.
Qed.

Lemma bfs_depths_spec s0 depths :
  forall w queue visited,
    Forall (entry_ok s0 w) queue ->
    exists v w', bfs_depths hash depths queue visited w = (Ok v, w') /\
      extends w w' /\ bfs_sound s0 v.
Proof.
  induction depths as [|depths IH]; intros w queue visited Hq.
  - exists None, w. split; [done|]. split; [apply extends_refl|done].
  - cbn [bfs_depths].
    destruct (bfs_level_spec s0 (length queue) w queue visited Hq)
      as (r & w1 & Heq & Hext & Hr).
    rewrite (bind_ok _ _ _ _ _ Heq).
    destruct r as [v|[queue' visited']].
    + exists v, w1. by destruct Hr.
    + destruct (IH w1 queue' visited' Hr) as (v & w' & Heq' & Hext' & Hv).
      exists v, w'. split; [done|]. split; [|done]. by eapply extends_trans.
Qed.

(** The breadth-first strategy returns normally, allocates only new
    objects, and any path it returns takes the caller's state to solved. *)
Lemma _fast_bfs_spec w cube c :
  cubes w !! cube = Some c -> length (RubikCube.state c) = 54 ->
  exists v w', _fast_bfs hash cube w = (Ok v, w') /\
    extends w w' /\ bfs_sound (RubikCube.state c) v.
Proof.
  intros Hc Hlen. unfold _fast_bfs.
  rewrite (bind_ok _ _ _ _ _ (copy_eq _ _ _ Hc Hlen)).
  destruct (bfs_depths_spec (RubikCube.state c) 6 (push w (copied c))
              [(length (cubes w), [])] [])
    as (v & w' & Heq & Hext & Hv).
  { constructor; [|done]. exists (copied c). simpl.
    split; [by rewrite list_lookup_middle|]. by repeat split. }
  exists v, w'. split; [done|]. split; [|done].
  eapply extends_trans; [apply extends_push|done].
Qed.

(** *** Strategy 2: reverse-scramble enumeration *)

Lemma _states_equal_eq w cube1 cube2 c1 c2 :
  cubes w !! cube1 = Some c1 -> cubes w !! cube2 = Some c2 ->
  _states_equal cube1 cube2 w
  = (Ok (ndarray.array_equal (RubikCube.state c1) (RubikCube.state c2)), w).
Proof.
  intros H1 H2. unfold _states_equal.
  rewrite (bind_ok _ _ _ _ _ (read_eq _ RubikCube.state _ _ H1)).
  by rewrite (bind_ok _ _ _ _ _ (read_eq _ RubikCube.state _ _ H2)).
Qed.

Lemma execute_sequence_eq w r c moves :
  cubes w !! r = Some c ->
  execute_sequence r moves w
  = ((RubikCube.execute_sequence c moves).1,
     set_cube w r (RubikCube.execute_sequence c moves).2).
Proof.
  intros Hr. unfold execute_sequence. eapply call_eq; [done|].
  by destruct (RubikCube.execute_sequence c moves).
Qed.

Lemma reverse_try_refines w cube c moves :
  cubes w !! cube = Some c ->
  exists w', reverse_try cube moves w = (Pure.reverse_try (RubikCube.state c) moves, w') /\
             extends w w'.
Proof.
  intros Hc. unfold reverse_try, Pure.reverse_try.
  destruct (has_reversal moves); cbn [negb].
  { exists w. split; [done|apply extends_refl]. }
  rewrite (bind_ok _ _ _ _ _ (new_RubikCube_eq w)).
  cbn [RubikCube.__init__ rbind]. fold solved_cube.
  pose proof (execute_sequence_eq (push w solved_cube) (length (cubes w)) solved_cube moves
                (lookup_push _ _)) as Hexec.
  rewrite set_cube_push in Hexec.
  destruct (RubikCube.execute_sequence solved_cube moves) as [[e|[]] test_cube];
    cbn [fst snd] in Hexec.
  { rewrite (bind_raise _ _ _ _ _ Hexec). eexists. split; [done|apply extends_push]. }
  rewrite (bind_ok _ _ _ _ _ Hexec).
  rewrite (bind_ok _ _ _ _ _
             (_states_equal_eq (push w test_cube) _ _ _ _ (lookup_push _ _)
                (extends_lookup _ _ _ _ (extends_push w test_cube) Hc))).
  exists (push w test_cube). split; [|apply extends_push].
  destruct (ndarray.array_equal _ _); [|done].
  by destruct (_invert_sequence moves).
Qed.

Lemma first_return_refines {X R} (body : X -> M (option R))
    (pure_body : X -> result (option R)) (xs : list X) w :
  (forall x w1, extends w w1 ->
                exists w2, body x w1 = (pure_body x, w2) /\ extends w1 w2) ->
  exists w', first_return body xs w = (Pure.first_return pure_body xs, w') /\
             extends w w'.
Proof.
  intros Hbody. revert w Hbody. induction xs as [|x xs IH]; intros w Hbody.
  - exists w. split; [done|apply extends_refl].
  - cbn [first_return Pure.first_return].
    destruct (Hbody x w (extends_refl w)) as (w1 & Heq & Hext).
    destruct (pure_body x) as [e|[v|]].
    + rewrite (bind_raise _ _ _ _ _ Heq). by exists w1.
    + rewrite (bind_ok _ _ _ _ _ Heq). by exists w1.
    + rewrite (bind_ok _ _ _ _ _ Heq).
      destruct (IH w1) as (w' & Heq' & Hext').
      { intros y w2 Hw2. apply Hbody. by eapply extends_trans. }
      exists w'. split; [done|]. by eapply extends_trans.
Qed.

Lemma for_product_refines {R} (body : list string -> M (option R))
    (pure_body : list string -> result (option R)) (pool : list string) (n : nat) :
  forall w prefix,
  (forall moves w1, extends w w1 ->
                    exists w2, body moves w1 = (pure_body moves, w2) /\ extends w1 w2) ->
  exists w', for_product body pool n prefix w
             = (Pure.for_product pure_body pool n prefix, w') /\
             extends w w'.
Proof.
  induction n as [|n IH]; intros w prefix Hbody.
  - cbn [for_product Pure.for_product]. apply Hbody, extends_refl.
  - cbn [for_product Pure.for_product]. apply first_return_refines.
    intros m w1 Hw1. apply IH. intros moves w2 Hw2. apply Hbody.
    by eapply extends_trans.
Qed.

(** The reverse-scramble strategy returns what its value-level reading
    returns on the caller's state, and allocates only new objects. *)
Lemma _reverse_solve_refines w cube c :
  cubes w !! cube = Some c ->
  exists w', _reverse_solve cube w = (Pure._reverse_solve (RubikCube.state c), w') /\
             extends w w'.
Proof.
  intros Hc. unfold _reverse_solve, Pure._reverse_solve.
  apply first_return_refines. intros n w1 Hw1.
  apply for_product_refines. intros moves w2 Hw2.
  apply reverse_try_refines. eapply extends_lookup; [|done]. by eapply extends_trans.
Qed.

Lemma _invert_move_ok move : exists m, _invert_move move = Ok m.
Proof.
  unfold _invert_move. destruct (pystr.endswith move "'") eqn:He.
  - destruct move; [done|]. by eexists.
  - destruct (pystr.endswith move "2"); by eexists.
Qed.

Lemma _invert_loop_ok reversed_moves inverse_moves :
  exists inv, _invert_loop reversed_moves inverse_moves = Ok inv.
Proof.
  revert inverse_moves. induction reversed_moves as [|m ms IH]; intros acc; simpl.
  - by eexists.
  - destruct (_invert_move_ok m) as [m' ->]. simpl. apply IH.
Qed.

Lemma pure_reverse_try_ok target moves :
  valid_moves moves -> exists v, Pure.reverse_try target moves = Ok v.
Proof.
  intros Hvalid. unfold Pure.reverse_try.
  destruct (has_reversal moves); [by eexists|].
  cbn [RubikCube.__init__ rbind].
  destruct (execute_sequence_valid
              {| RubikCube.state := RubikCube._create_solved_state;
                 RubikCube.move_history := []; RubikCube.move_count := 0 |}
              moves Hvalid) as (s' & _ & ->).
  cbn [RubikCube.state]. destruct (ndarray.array_equal s' target); [|by eexists].
  unfold _invert_sequence. destruct (_invert_loop_ok (rev moves) []) as [inv ->].
  by eexists.
Qed.

Lemma pure_first_return_ok {X R} (body : X -> result (option R)) (xs : list X) :
  (forall x, In x xs -> exists v, body x = Ok v) ->
  exists v, Pure.first_return body xs = Ok v.
Proof.
  induction xs as [|x xs IH]; intros Hbody; simpl; [by eexists|].
  destruct (Hbody x (or_introl eq_refl)) as [[v|] ->]; [by eexists|].
  apply IH. intros y Hy. apply Hbody. by right.
Qed.

Lemma pure_for_product_ok target n :
  forall prefix, valid_moves prefix ->
  exists v, Pure.for_product (Pure.reverse_try target) test_moves n prefix = Ok v.
Proof.
  induction n as [|n IH]; intros prefix Hprefix; cbn [Pure.for_product].
  - by apply pure_reverse_try_ok.
  - apply pure_first_return_ok. intros m Hm. apply IH.
    apply Forall_app. split; [done|]. constructor; [|done].
    vm_compute in Hm |- *. tauto.
Qed.

Lemma pure_reverse_solve_ok target : exists v, Pure._reverse_solve target = Ok v.
Proof.
  unfold Pure._reverse_solve. apply pure_first_return_ok.
  intros n _. apply pure_for_product_ok. constructor.
Qed.

(** *** Strategy 3: greedy pattern improvement *)

Lemma patterns_valid : Forall valid_moves patterns.
Proof.
  apply List.Forall_forall. intros p Hp. apply check_valid_sound.
  assert (forallb check_valid patterns = true) as H by (vm_compute; reflexivity).
  rewrite forallb_forall in H. by apply H.
Qed.

Lemma working_ok_extends s0 w w' working_cube solution :
  extends w w' -> working_ok s0 w working_cube solution ->
  working_ok s0 w' working_cube solution.
Proof.
  intros Hext (wc & Hwc & H). exists wc. split; [|done]. by eapply extends_lookup.
Qed.

Lemma _count_correct_pieces_eq w cube c :
  cubes w !! cube = Some c ->
  _count_correct_pieces cube w
  = (Ok (_count_correct (RubikCube.state c) RubikCube._create_solved_state),
     push w solved_cube).
Proof.
  intros Hc. unfold _count_correct_pieces.
  rewrite (bind_ok _ _ _ _ _ (read_eq _ RubikCube.state _ _ Hc)).
  rewrite (bind_ok _ _ _ _ _ (new_RubikCube_eq w)).
  by rewrite (bind_ok _ _ _ _ _ (read_eq _ RubikCube.state _ _ (lookup_push w solved_cube))).
Qed.

Lemma brute_patterns_spec s0 working_cube solution pats :
  Forall valid_moves pats ->
  forall w best_pattern best_score,
    working_ok s0 w working_cube solution ->
    (forall p, best_pattern = Some p -> valid_moves p) ->
    exists r w',
      brute_patterns working_cube solution pats best_pattern best_score w = (Ok r, w') /\
      extends w w' /\
      match r with
      | Return v => brute_sound s0 v
      | Next best_pattern' => forall p, best_pattern' = Some p -> valid_moves p
      end.
Proof.
  induction 1 as [|pattern pats Hpattern Hpats IH]; intros w best_pattern best_score Hw Hbest.
  - exists (Next best_pattern), w. split; [done|]. split; [apply extends_refl|done].
  - cbn [brute_patterns]. pose proof Hw as (wc & Hwc & Hlen & Hstate).
    rewrite (bind_ok _ _ _ _ _ (copy_eq _ _ _ Hwc Hlen)).
    pose proof (execute_sequence_eq (push w (copied wc)) (length (cubes w)) (copied wc)
                  pattern (lookup_push _ _)) as Hexec.
    rewrite set_cube_push in Hexec.
    destruct (execute_sequence_valid (copied wc) pattern Hpattern) as (s' & Happ & Hseq).
    rewrite Hseq in Hexec. cbn [fst snd] in Hexec.
    set (c' := {| RubikCube.state := s' |}) in Hexec.
    rewrite (bind_ok _ _ _ _ _ Hexec).
    rewrite (bind_ok _ _ _ _ _ (is_solved_eq _ _ _ (lookup_push w c'))).
    destruct (RubikCube.is_solved c') eqn:Hsolved.
    + exists (Return (Some (solution ++ pattern))), (push w c').
      split; [done|]. split; [apply extends_push|].
      cbn [brute_sound]. rewrite apply_moves_app, Hstate. cbn [rbind].
      unfold copied in Happ. cbn [RubikCube.state] in Happ. rewrite Happ.
      f_equal. by apply array_equal_eq.
    + rewrite (bind_ok _ _ _ _ _ (_count_correct_pieces_eq _ _ _ (lookup_push w c'))).
      assert (extends w (push (push w c') solved_cube)) as Hext.
      { eapply extends_trans; apply extends_push. }
      destruct (_ >? _)%Z.
      * destruct (IH (push (push w c') solved_cube) (Some pattern)
                    (_count_correct (RubikCube.state c') RubikCube._create_solved_state))
          as (r & w' & Heq & Hext' & Hr).
        { by eapply working_ok_extends. }
        { by intros p [= <-]. }
        exists r, w'. split; [done|]. split; [|done]. by eapply extends_trans.
      * destruct (IH (push (push w c') solved_cube) best_pattern best_score)
          as (r & w' & Heq & Hext' & Hr).
        { by eapply working_ok_extends. }
        { done. }
        exists r, w'. split; [done|]. split; [|done]. by eapply extends_trans.
Qed.

Lemma chosen_valid best_pattern iteration :
  (forall p, best_pattern = Some p -> valid_moves p) ->
  valid_moves
    (if truthy best_pattern then match best_pattern with Some p => p | None => [] end
     else nth (iteration mod length patterns) patterns []).
Proof.
  intros Hbest. destruct (truthy best_pattern).
  - destruct best_pattern as [p|]; [by apply Hbest|constructor].
  - pose proof patterns_valid as Hall. rewrite List.Forall_forall in Hall.
    apply Hall, nth_In, Nat.mod_upper_bound. done.
Qed.

Lemma working_lookup_lt s0 w working_cube solution :
  working_ok s0 w working_cube solution -> working_cube < length (cubes w).
Proof. intros (wc & Hwc & _). by eapply lookup_lt_Some. Qed.

Lemma brute_iterations_spec s0 working_cube count :
  forall iteration w solution,
    working_ok s0 w working_cube solution ->
    exists v w',
      brute_iterations count iteration working_cube solution w = (Ok v, w') /\
      stable working_cube w w' /\ brute_sound s0 v.
Proof.
  assert (forall w solution,
    working_ok s0 w working_cube solution ->
    exists v,
      (let* solved := is_solved working_cube in
       ret (if solved then Some solution else None)) w = (Ok v, w) /\
      brute_sound s0 v) as Hfinal.
  { intros w solution (wc & Hwc & Hlen & Hstate).
    rewrite (bind_ok _ _ _ _ _ (is_solved_eq _ _ _ Hwc)).
    destruct (RubikCube.is_solved wc) eqn:Hsolved; eexists; (split; [done|]); [|done].
    cbn [brute_sound]. rewrite Hstate. f_equal. by apply array_equal_eq. }
  induction count as [|count IH]; intros iteration w solution Hw.
  - cbn [brute_iterations]. destruct (Hfinal w solution Hw) as (v & Heq & Hv).
    exists v, w. split; [done|]. split; [apply stable_refl|done].
  - cbn [brute_iterations]. pose proof Hw as (wc & Hwc & Hlen & Hstate).
    pose proof (working_lookup_lt _ _ _ _ Hw) as Hlt.
    rewrite (bind_ok _ _ _ _ _ (is_solved_eq _ _ _ Hwc)).
    destruct (RubikCube.is_solved wc) eqn:Hsolved.
    { exists (Some solution), w. split; [done|]. split; [apply stable_refl|].
      cbn [brute_sound]. rewrite Hstate. f_equal. by apply array_equal_eq. }
    rewrite (bind_ok _ _ _ _ _ (_count_correct_pieces_eq _ _ _ Hwc)).
    pose proof (extends_push w solved_cube) as Hext1.
    destruct (brute_patterns_spec s0 working_cube solution patterns patterns_valid
                (push w solved_cube) None
                (_count_correct (RubikCube.state wc) RubikCube._create_solved_state)
                (working_ok_extends _ _ _ _ _ Hext1 Hw) ltac:(done))
      as (r & w2 & Heq & Hext2 & Hr).
    rewrite (bind_ok _ _ _ _ _ Heq).
    assert (extends w w2) as Hext by (by eapply extends_trans).
    destruct r as [v|best_pattern].
    { exists v, w2. split; [done|]. split; [|done]. apply extends_stable; [lia|done]. }
    pose proof (chosen_valid best_pattern iteration Hr) as Hchosen.
    set (chosen := if truthy best_pattern then _ else _) in *.
    pose proof (extends_lookup _ _ _ _ Hext Hwc) as Hwc2.
    pose proof (execute_sequence_eq w2 working_cube wc chosen Hwc2) as Hexec.
    destruct (execute_sequence_valid wc chosen Hchosen) as (s' & Happ & Hseq).
    rewrite Hseq in Hexec. cbn [fst snd] in Hexec.
    set (wc' := {| RubikCube.state := s' |}) in Hexec.
    rewrite (bind_ok _ _ _ _ _ Hexec).
    assert (working_ok s0 (set_cube w2 working_cube wc') working_cube (solution ++ chosen))
      as Hw3.
    { exists wc'. split.
      - simpl. apply list_lookup_insert_eq. by eapply lookup_lt_Some.
      - split.
        + destruct (apply_moves_Ok (RubikCube.state wc) chosen Hchosen Hlen)
            as (s'' & Hs'' & Hlen''). simpl. congruence.
        + rewrite apply_moves_app, Hstate. cbn [rbind]. by rewrite Happ. }
    assert (stable working_cube w (set_cube w2 working_cube wc')) as Hstable.
    { eapply stable_trans; [apply extends_stable; [lia|done]|].
      by apply stable_set_cube. }
    destruct (100 <? length (solution ++ chosen)).
    + destruct (Hfinal _ _ Hw3) as (v & Heq' & Hv).
      exists v, (set_cube w2 working_cube wc'). by split.
    + destruct (IH (S iteration) _ _ Hw3) as (v & w' & Heq' & Hstable' & Hv).
      exists v, w'. split; [done|]. split; [|done]. by eapply stable_trans.
Qed.

(** The greedy strategy returns normally, leaves the objects that existed
    before the call as they were, and any sequence it returns takes the
    caller's state to solved. *)
Lemma _brute_force_solve_spec w cube c :
  cubes w !! cube = Some c -> length (RubikCube.state c) = 54 ->
  exists v w', _brute_force_solve cube w = (Ok v, w') /\
    extends w w' /\ brute_sound (RubikCube.state c) v.
Proof.
  intros Hc Hlen. unfold _brute_force_solve.
  rewrite (bind_ok _ _ _ _ _ (copy_eq _ _ _ Hc Hlen)).
  destruct (brute_iterations_spec (RubikCube.state c) (length (cubes w)) 50 0
              (push w (copied c)) [])
    as (v & w' & Heq & (HS & HT & HL) & Hv).
  { exists (copied c). split; [apply lookup_push|]. by split. }
  exists v, w'. split; [done|]. split; [|done]. split; [done|].
  simpl in HT. rewrite take_app_length in HT. rewrite <- HT. apply prefix_take.
Qed.

(** *** The pipeline *)

Lemma valid_heuristics_check heuristic_type :
  In heuristic_type valid_heuristics ->
  existsb (String.eqb heuristic_type) valid_heuristics = true.
Proof.
  intros Hin. apply existsb_exists. exists heuristic_type. split; [done|].
  apply String.eqb_refl.
Qed.

(** [solve] on a 54-label cube with a recognized heuristic name returns
    normally; the objects that existed before the call, among them the
    caller's cube, and the statistics record are as they were; and the
    answer is the empty sequence for a solved cube, else the first non-empty
    answer of the three strategies in order. *)
Lemma solve_spec w cube c heuristic_type :
  cubes w !! cube = Some c -> length (RubikCube.state c) = 54 ->
  In heuristic_type valid_heuristics ->
  exists v w', solve hash cube heuristic_type w = (Ok v, w') /\ extends w w' /\
    (RubikCube.is_solved c = true -> v = Some [] /\ w' = w) /\
    (forall p, v = Some p ->
       apply_moves (RubikCube.state c) p = Ok RubikCube._create_solved_state \/
       Pure._reverse_solve (RubikCube.state c) = Ok (Some p)).
Proof.
  intros Hc Hlen Hname. unfold solve.
  rewrite (valid_heuristics_check _ Hname). cbn [negb].
  rewrite (bind_ok _ _ _ _ _ (is_solved_eq _ _ _ Hc)).
  destruct (RubikCube.is_solved c) eqn:Hsolved.
  { exists (Some []), w. split; [done|]. split; [apply extends_refl|]. split; [done|].
    intros p [= <-]. left. simpl. f_equal. by apply array_equal_eq. }
  destruct (_fast_bfs_spec w cube c Hc Hlen) as (v1 & w1 & Heq1 & Hext1 & Hv1).
  rewrite (bind_ok _ _ _ _ _ Heq1).
  destruct (truthy v1) eqn:Ht1.
  { exists v1, w1. split; [done|]. split; [done|]. split; [done|].
    intros p ->. left. by destruct Hv1 as (_ & _ & ?). }
  destruct (_reverse_solve_refines w1 cube c (extends_lookup _ _ _ _ Hext1 Hc))
    as (w2 & Heq2 & Hext2).
  destruct (pure_reverse_solve_ok (RubikCube.state c)) as [v2 Hv2].
  rewrite Hv2 in Heq2. rewrite (bind_ok _ _ _ _ _ Heq2).
  assert (extends w w2) as Hext12 by (by eapply extends_trans).
  destruct (truthy v2) eqn:Ht2.
  { exists v2, w2. split; [done|]. split; [done|]. split; [done|].
    intros p ->. by right. }
  destruct (_brute_force_solve_spec w2 cube c (extends_lookup _ _ _ _ Hext12 Hc) Hlen)
    as (v3 & w3 & Heq3 & Hext3 & Hv3).
  exists v3, w3. split; [done|]. split; [by eapply extends_trans|]. split; [done|].
  intros p ->. by left.
Qed.

End SolverFacts.

(** *** The claims about [solve] *)

Section SolveClaims.
Import AStarSolver.
Variable hash : list Z -> Z.

(** C6: with a heuristic name outside the recognized set, [solve] raises the
    unknown-heuristic error and the world is exactly as before the call: no
    object was allocated (each strategy starts by allocating one), no cube
    was changed, and the statistics record holds its pre-call values. *)
Theorem solve_unknown_heuristic (w : world) (cube : ref) (heuristic_type : string) :
  ~ In heuristic_type valid_heuristics ->
  solve hash cube heuristic_type w
  = (Raise (ValueError (String.append "Unknown heuristic type: " heuristic_type)), w).
Proof.
  intros Hname. unfold solve.
  destruct (existsb (String.eqb heuristic_type) valid_heuristics) eqn:He; [|done].
  apply existsb_exists in He as (name & Hin & Heq).
  apply String.eqb_eq in Heq. by subst.
Qed.

(** C8: on a solved cube with a recognized heuristic name, [solve] returns
    the empty sequence and the world is exactly as before the call: no
    strategy allocated anything, and the cube is still solved. *)
Theorem solve_already_solved (w : world) (cube : ref) (c : RubikCube.t)
    (heuristic_type : string) :
  cubes w !! cube = Some c ->
  RubikCube.is_solved c = true ->
  In heuristic_type valid_heuristics ->
  solve hash cube heuristic_type w = (Ok (Some []), w) /\
  is_solved cube w = (Ok true, w).
Proof.
  intros Hc Hsolved Hname. split.
  - unfold solve. rewrite (valid_heuristics_check _ Hname). cbn [negb].
    rewrite (bind_ok _ _ _ _ _ (is_solved_eq _ _ _ Hc)). by rewrite Hsolved.
  - by rewrite (is_solved_eq _ _ _ Hc), Hsolved.
Qed.

(** C10: on a cube of 54 labels with a recognized heuristic name, [solve]
    returns normally, with a sequence or with the not-found outcome, and the
    caller's cube object is afterwards exactly as it was (state array, move
    history and move count); so is every other object that existed before
    the call. *)
Theorem solve_preserves_input (w : world) (cube : ref) (c : RubikCube.t)
    (heuristic_type : string) :
  cubes w !! cube = Some c ->
  length (RubikCube.state c) = 54 ->
  In heuristic_type valid_heuristics ->
  exists v w',
    solve hash cube heuristic_type w = (Ok v, w') /\
    cubes w' !! cube = Some c /\
    forall r c0, cubes w !! r = Some c0 -> cubes w' !! r = Some c0.
Proof.
  intros Hc Hlen Hname.
  destruct (solve_spec hash w cube c heuristic_type Hc Hlen Hname)
    as (v & w' & Heq & Hext & _).
  exists v, w'. split; [done|]. split; [by eapply extends_lookup|].
  intros r c0. by apply extends_lookup.
Qed.

(** C7: [solve] does not reset the statistics record: on a cube of 54
    labels with a recognized heuristic name it returns with the record
    holding whatever it held before the call. *)
Theorem solve_leaves_statistics_as_found (w : world) (cube : ref) (c : RubikCube.t)
    (heuristic_type : string) :
  cubes w !! cube = Some c ->
  length (RubikCube.state c) = 54 ->
  In heuristic_type valid_heuristics ->
  exists v w',
    solve hash cube heuristic_type w = (Ok v, w') /\
    statistics w' = statistics w.
Proof.
  intros Hc Hlen Hname.
  destruct (solve_spec hash w cube c heuristic_type Hc Hlen Hname)
    as (v & w' & Heq & [HS _] & _).
  by exists v, w'.
Qed.

End SolveClaims.

Lemma solve_unknown_heuristic_witness :
  AStarSolver.solve (fun _ => 0%Z) 0 "invalid_heuristic"
        {| cubes := [solved_cube]; statistics := SearchStatistics.__init__ |}
  = (Raise (ValueError "Unknown heuristic type: invalid_heuristic"),
     {| cubes := [solved_cube]; statistics := SearchStatistics.__init__ |}).
Proof.
  apply (solve_unknown_heuristic (fun _ => 0%Z)
           {| cubes := [solved_cube]; statistics := SearchStatistics.__init__ |}
           0 "invalid_heuristic").
  vm_compute. intros [H|[H|[H|[]]]]; discriminate H.
Defined.

Lemma solve_already_solved_witness :
  AStarSolver.solve (fun _ => 0%Z) 0 "corner_edge"
        {| cubes := [solved_cube]; statistics := SearchStatistics.__init__ |}
  = (Ok (Some []), {| cubes := [solved_cube]; statistics := SearchStatistics.__init__ |}) /\
  is_solved 0 {| cubes := [solved_cube]; statistics := SearchStatistics.__init__ |}
  = (Ok true, {| cubes := [solved_cube]; statistics := SearchStatistics.__init__ |}).
Proof.
  apply (solve_already_solved (fun _ => 0%Z)
           {| cubes := [solved_cube]; statistics := SearchStatistics.__init__ |}
           0 solved_cube "corner_edge").
  - reflexivity.
  - vm_compute. reflexivity.
  - vm_compute. tauto.
Defined.

Lemma solve_preserves_input_witness :
  exists v w',
    AStarSolver.solve (fun _ => 0%Z) 0 "corner_edge"
      {| cubes := [cube_after_U]; statistics := SearchStatistics.__init__ |} = (Ok v, w') /\
    cubes w' !! 0 = Some cube_after_U /\
    forall r c0,
      cubes {| cubes := [cube_after_U]; statistics := SearchStatistics.__init__ |} !! r
      = Some c0 -> cubes w' !! r = Some c0.
Proof.
  apply (solve_preserves_input (fun _ => 0%Z)
           {| cubes := [cube_after_U]; statistics := SearchStatistics.__init__ |}
           0 cube_after_U "corner_edge").
  - reflexivity.
  - reflexivity.
  - vm_compute. tauto.
Defined.

Lemma solve_leaves_statistics_as_found_witness :
  used_statistics <> SearchStatistics.reset used_statistics /\
  exists v w',
    AStarSolver.solve (fun _ => 0%Z) 0 "corner_edge"
      {| cubes := [cube_after_U]; statistics := used_statistics |} = (Ok v, w') /\
    statistics w' = used_statistics.
Proof.
  split.
  - intros H. apply (f_equal SearchStatistics.nodes_explored) in H. discriminate H.
  - apply (solve_leaves_statistics_as_found (fun _ => 0%Z)
             {| cubes := [cube_after_U]; statistics := used_statistics |}
             0 cube_after_U "corner_edge").
    + reflexivity.
    + reflexivity.
    + vm_compute. tauto.
Defined.

(** *** A scramble that [solve] answers with a sequence that does not solve it *)

(** None of the six moves of the breadth-first strategy touches facelet 33
    (Left face, bottom-left). *)
Lemma bfs_move_keeps_33 (s s' : ndarray.t) m :
  In m AStarSolver.bfs_moves -> length s = 54 -> MoveEngine.apply_move s m = Ok s' ->
  ndarray.get s' 33 = ndarray.get s 33 /\ length s' = 54.
Proof.
  intros Hin Hlen Happ. explode s Hlen. clear Hlen. vm_compute in Hin.
  repeat (destruct Hin as [<-|Hin];
          [vm_compute in Happ; injection Happ as <-; split; reflexivity|]).
  destruct Hin.
Qed.

Lemma bfs_path_keeps_33 (p : list string) :
  Forall (fun m => In m AStarSolver.bfs_moves) p ->
  forall s s' : ndarray.t, length s = 54 -> apply_moves s p = Ok s' ->
  ndarray.get s' 33 = ndarray.get s 33.
Proof.
  induction 1 as [|m p Hm Hp IH]; intros s s' Hlen; simpl.
  - by intros [= <-].
  - destruct (MoveEngine.apply_move s m) as [e|s1] eqn:Hs1; simpl; [done|].
    destruct (bfs_move_keeps_33 s s1 m Hm Hlen Hs1) as [H33 Hlen1].
    intros Hs'. rewrite (IH s1 s' Hlen1 Hs'). done.
Qed.

(** C1: on the cube obtained from the solved cube by D then F, with any
    recognized heuristic name and any hash function, [solve] returns the
    sequence F', D' (found by the reverse-scramble strategy as the inverse of
    D, F), and applying that sequence to the input state succeeds but does
    not yield the solved state. *)
Theorem solve_returns_non_solving_sequence (hash : list Z -> Z) (w : world) (cube : ref)
    (c : RubikCube.t) (heuristic_type : string) :
  cubes w !! cube = Some c ->
  RubikCube.state c = scrambled_D_F ->
  In heuristic_type AStarSolver.valid_heuristics ->
  exists w' s',
    AStarSolver.solve hash cube heuristic_type w = (Ok (Some ["F'"; "D'"]), w') /\
    apply_moves (RubikCube.state c) ["F'"; "D'"] = Ok s' /\
    ndarray.array_equal s' RubikCube._create_solved_state = false.
Proof.
  intros Hc Hstate Hname.
  assert (length (RubikCube.state c) = 54) as Hlen by (by rewrite Hstate).
  unfold AStarSolver.solve. rewrite (valid_heuristics_check _ Hname). cbn [negb].
  rewrite (bind_ok _ _ _ _ _ (is_solved_eq _ _ _ Hc)).
  assert (RubikCube.is_solved c = false) as ->.
  { unfold RubikCube.is_solved. rewrite Hstate. vm_compute. reflexivity. }
  destruct (_fast_bfs_spec hash w cube c Hc Hlen) as (v1 & w1 & Heq1 & Hext1 & Hv1).
  rewrite (bind_ok _ _ _ _ _ Heq1).
  assert (v1 = None) as ->.
  { destruct v1 as [p|]; [|done]. destruct Hv1 as (_ & Hp & Hsolved).
    pose proof (bfs_path_keeps_33 p Hp _ _ Hlen Hsolved) as H33.
    rewrite Hstate in H33. vm_compute in H33. discriminate H33. }
  cbn [AStarSolver.truthy].
  destruct (_reverse_solve_refines w1 cube c (extends_lookup _ _ _ _ Hext1 Hc))
    as (w2 & Heq2 & Hext2).
  assert (Pure._reverse_solve (RubikCube.state c) = Ok (Some ["F'"; "D'"])) as Hpure.
  { rewrite Hstate. vm_compute. reflexivity. }
  rewrite Hpure in Heq2. rewrite (bind_ok _ _ _ _ _ Heq2). cbn [AStarSolver.truthy].
  exists w2. rewrite Hstate. eexists. split; [done|].
  split; vm_compute; reflexivity.
Qed.

Lemma solve_returns_non_solving_sequence_witness :
  let c := {| RubikCube.state := scrambled_D_F; RubikCube.move_history := ["D"; "F"];
              RubikCube.move_count := 2 |} in
  exists w' s',
    AStarSolver.solve (fun _ => 0%Z) 0 "corner_edge"
      {| cubes := [c]; statistics := SearchStatistics.__init__ |}
    = (Ok (Some ["F'"; "D'"]), w') /\
    apply_moves (RubikCube.state c) ["F'"; "D'"] = Ok s' /\
    ndarray.array_equal s' RubikCube._create_solved_state = false.
Proof.
  intros c.
  apply (solve_returns_non_solving_sequence (fun _ => 0%Z)
           {| cubes := [c]; statistics := SearchStatistics.__init__ |} 0 c "corner_edge").
  - reflexivity.
  - reflexivity.
  - vm_compute. tauto.
Defined.

(** ** The optimizer on faces other than Front *)

Section OffFront.
Import MoveOptimizer.

(** At a given 54-label array, each move outside the Front face is its
    face's quarter turn applied [move_values[move] mod 4] times, and that
    quarter turn behaves there as [quarter_turn_of] requires. *)
Lemma off_front_as_turns_at (s : ndarray.t) :
  length s = 54 ->
  Forall
    (fun m =>
       exists face q v,
         pystr.index0 m = Ok face /\
         MoveEngine.dict_get MoveEngine.moves face = Some q /\
         MoveEngine.dict_get move_values m = Some v /\
         MoveEngine.apply_move s m = Ok (turns q (v mod 4) s) /\
         length (q s) = 54 /\ turns q 4 s = s /\
         MoveEngine.apply_move s face = Ok (turns q 1 s) /\
         MoveEngine.apply_move s (String.append face "2") = Ok (turns q 2 s) /\
         MoveEngine.apply_move s (String.append face "'") = Ok (turns q 3 s))
    off_front.
Proof.
  intros Hlen. explode s Hlen. clear Hlen. unfold off_front.
  repeat (constructor;
          [do 3 eexists; do 3 (split; [reflexivity|]);
           do 5 (split; [vm_compute; reflexivity|]); vm_compute; reflexivity|]).
  constructor.
Qed.

Lemma off_front_as_turns m :
  In m off_front ->
  exists face q v,
    pystr.index0 m = Ok face /\
    MoveEngine.dict_get MoveEngine.moves face = Some q /\
    MoveEngine.dict_get move_values m = Some v /\
    quarter_turn_of face q /\
    forall s : ndarray.t, length s = 54 ->
      MoveEngine.apply_move s m = Ok (turns q (v mod 4) s).
Proof.
  intros Hin.
  pose proof (off_front_as_turns_at RubikCube._create_solved_state eq_refl) as H0.
  rewrite List.Forall_forall in H0.
  destruct (H0 m Hin) as (face & q & v & Hf & Hq & Hv & _).
  exists face, q, v. do 3 (split; [done|]).
  assert (forall s : ndarray.t, length s = 54 ->
            MoveEngine.apply_move s m = Ok (turns q (v mod 4) s) /\
            length (q s) = 54 /\ turns q 4 s = s /\
            MoveEngine.apply_move s face = Ok (turns q 1 s) /\
            MoveEngine.apply_move s (String.append face "2") = Ok (turns q 2 s) /\
            MoveEngine.apply_move s (String.append face "'") = Ok (turns q 3 s)) as Hat.
  { intros s Hlen.
    pose proof (off_front_as_turns_at s Hlen) as Hs. rewrite List.Forall_forall in Hs.
    destruct (Hs m Hin) as (face' & q' & v' & Hf' & Hq' & Hv' & H).
    assert (face' = face) as -> by congruence.
    assert (q' = q) as -> by congruence.
    assert (v' = v) as -> by congruence.
    exact H. }
  split.
  - intros s Hlen. by destruct (Hat s Hlen) as (_ & ? & ? & ? & ? & ?).
  - intros s Hlen. by destruct (Hat s Hlen) as (? & _).
Qed.

Lemma turns_length q k (s : ndarray.t) :
  (forall s : ndarray.t, length s = 54 -> length (q s) = 54) ->
  length s = 54 -> length (turns q k s) = 54.
Proof.
  intros Hq Hlen. unfold turns. induction (Z.to_nat k) as [|n IH]; simpl; [done|].
  by apply Hq.
Qed.

Lemma turns_add q a b (s : ndarray.t) :
  (0 <= a)%Z -> (0 <= b)%Z -> turns q (a + b) s = turns q a (turns q b s).
Proof.
  intros Ha Hb. unfold turns. rewrite Z2Nat.inj_add by done. apply Nat.iter_add.
Qed.

Lemma turns_mod face q k (s : ndarray.t) :
  quarter_turn_of face q -> length s = 54 -> (0 <= k)%Z ->
  turns q (k mod 4) s = turns q k s.
Proof.
  intros Hq Hlen Hk.
  assert (forall n : nat, turns q (4 * Z.of_nat n) s = s) as Hfull.
  { induction n as [|n IH]; [done|].
    replace (4 * Z.of_nat (S n))%Z with (4 * Z.of_nat n + 4)%Z by lia.
    rewrite turns_add by lia. destruct (Hq s Hlen) as (_ & -> & _). done. }
  rewrite (Z.div_mod k 4) at 2 by lia.
  rewrite Z.add_comm, turns_add; [|apply Z.mod_pos_bound; lia|apply Z.mul_nonneg_nonneg;
    [lia|apply Z.div_pos; lia]].
  replace (k / 4)%Z with (Z.of_nat (Z.to_nat (k / 4)))
    by (apply Z2Nat.id, Z.div_pos; lia).
  by rewrite Hfull.
Qed.

Lemma consecutive_off_front face moves :
  Forall (fun m => In m off_front) moves ->
  exists run rest,
    consecutive face moves = Ok (run, rest) /\ moves = run ++ rest /\
    Forall (fun m => In m off_front /\ pystr.index0 m = Ok face) run /\
    Forall (fun m => In m off_front) rest.
Proof.
  induction 1 as [|m moves Hm Hall IH]; cbn [consecutive].
  - by exists [], [].
  - destruct IH as (run & rest & Hc & -> & Hrun & Hrest).
    destruct (off_front_as_turns m Hm) as (f & _ & _ & Hf & _). rewrite Hf. cbn [rbind].
    destruct (String.eqb_spec f face) as [->|Hne].
    + rewrite Hc. cbn [rbind]. exists (m :: run), rest.
      split; [done|]. split; [done|]. split; [by constructor|done].
    + exists [], (m :: run ++ rest). split; [done|]. split; [done|].
      split; [done|by constructor].
Qed.

(** A run of moves of one face is that face's quarter turn applied as many
    times as the values of the moves add up to, modulo 4. *)
Lemma run_as_turns face q run :
  Forall (fun m => In m off_front /\ pystr.index0 m = Ok face) run ->
  MoveEngine.dict_get MoveEngine.moves face = Some q ->
  quarter_turn_of face q ->
  forall s : ndarray.t, length s = 54 ->
  exists net, sum_values run = Ok net /\
              apply_moves s run = Ok (turns q (net mod 4) s).
Proof.
  intros Hrun Hface Hq. induction Hrun as [|m run [Hm Hidx] Hrun IH]; intros s Hlen.
  - exists 0%Z. by split.
  - destruct (off_front_as_turns m Hm) as (f & q' & v & Hf & Hq' & Hv & _ & Happ).
    assert (f = face) as -> by congruence.
    assert (q' = q) as -> by congruence.
    pose proof (Z.mod_pos_bound v 4 ltac:(lia)) as Hvb.
    assert (length (turns q (v mod 4) s) = 54) as Hlen1.
    { apply turns_length; [|done]. intros s1 Hs1. by destruct (Hq s1 Hs1). }
    destruct (IH _ Hlen1) as (net & Hnet & Hrest).
    exists (v + net)%Z. cbn [sum_values apply_moves]. rewrite Hv, Hnet, (Happ s Hlen).
    cbn [rbind]. split; [done|]. rewrite Hrest. f_equal.
    pose proof (Z.mod_pos_bound net 4 ltac:(lia)) as Hnb.
    rewrite <- turns_add by lia.
    rewrite <- (turns_mod face q (net mod 4 + v mod 4) s Hq Hlen) by lia.
    f_equal. rewrite (Z.add_comm v net). by rewrite <- Z.add_mod by lia.
Qed.

Lemma optimize_loop_off_front fuel :
  forall moves optimized (s s1 : ndarray.t),
    length moves <= fuel ->
    Forall (fun m => In m off_front) moves ->
    length s = 54 -> apply_moves s optimized = Ok s1 -> length s1 = 54 ->
    exists out s',
      optimize_loop fuel moves optimized = Some (Ok out) /\
      apply_moves s1 moves = Ok s' /\ apply_moves s out = Ok s'.
Proof.
  induction fuel as [|fuel IH]; intros moves optimized s s1 Hfuel Hall Hlen Hopt Hlen1.
  - destruct moves; [|simpl in Hfuel; lia]. by exists optimized, s1.
  - destruct Hall as [|current_move after Hm Hall]; [by exists optimized, s1|].
    cbn [optimize_loop].
    destruct (off_front_as_turns current_move Hm) as (face & q & v & Hf & Hq & Hv & Hqt & _).
    rewrite Hf.
    destruct (consecutive_off_front face after Hall) as (run & rest & Hc & -> & Hrun & Hrest).
    rewrite Hc.
    destruct (run_as_turns face q (current_move :: run) ltac:(by constructor) Hq Hqt s1 Hlen1)
      as (net & Hnet & Hturns).
    rewrite Hnet.
    pose proof (Z.mod_pos_bound net 4 ltac:(lia)) as Hnb.
    set (k := (net mod 4)%Z) in *.
    assert (length (turns q k s1) = 54) as Hlen2.
    { apply turns_length; [|done]. intros s2 Hs2. by destruct (Hqt s2 Hs2). }
    destruct (Hqt s1 Hlen1) as (_ & _ & H1 & H2 & H3).
    assert (apply_moves s
              (if (k =? 1)%Z then optimized ++ [face]
               else if (k =? 2)%Z then optimized ++ [String.append face "2"]
               else if (k =? 3)%Z then optimized ++ [String.append face "'"]
               else optimized) = Ok (turns q k s1)) as Hopt'.
    { assert (k = 0 \/ k = 1 \/ k = 2 \/ k = 3)%Z as [-> | [-> | [-> | ->]]] by lia;
        cbn [Z.eqb Pos.eqb]; rewrite ?apply_moves_app, ?Hopt; cbn [rbind apply_moves];
        rewrite ?H1, ?H2, ?H3; done. }
    apply consecutive_length in Hc. simpl in Hfuel. rewrite length_app in Hfuel.
    destruct (IH rest _ s (turns q k s1) ltac:(lia) Hrest Hlen Hopt' Hlen2)
      as (out & s' & Hloop & Hrest' & Hout).
    exists out, s'. split; [done|]. split; [|done].
    change (current_move :: run ++ rest) with ((current_move :: run) ++ rest).
    rewrite apply_moves_app, Hturns. done.
Qed.

(** On sequences that avoid the Front face, the optimizer returns a sequence
    that takes every 54-label state where the input sequence takes it. *)
Lemma optimize_sequence_off_front (moves : list string) (s : ndarray.t) :
  Forall (fun m => In m off_front) moves -> length s = 54 ->
  exists out s',
    optimize_sequence moves = Some (Ok out) /\
    apply_moves s moves = Ok s' /\ apply_moves s out = Ok s' /\
    length out <= length moves.
Proof.
  intros Hall Hlen.
  assert (exists out s',
    optimize_sequence moves = Some (Ok out) /\
    apply_moves s moves = Ok s' /\ apply_moves s out = Ok s') as (out & s' & H1 & H2 & H3).
  { destruct moves as [|m moves]; [by exists [], s|].
    unfold optimize_sequence. by apply (optimize_loop_off_front _ _ [] s s). }
  exists out, s'. repeat split; try done. by apply optimize_sequence_length.
Qed.

End OffFront.

(** * More of the move engine *)

Section MoreMoveFacts.
Import ndarray MoveEngine.

Lemma apply_move_centers (s : ndarray.t) (move : string) :
  length s = 54 -> In move get_all_moves ->
  exists s', apply_move s move = Ok s' /\ length s' = 54 /\
             forall c, In c Heuristics.centers -> get s' c = get s c.
Proof.
  intros Hlen Hin. explode s Hlen. clear Hlen. vm_compute in Hin.
  repeat (destruct Hin as [<-|Hin];
    [eexists; split; [vm_compute; reflexivity|]; split; [reflexivity|];
     intros c Hc; vm_compute in Hc;
     repeat (destruct Hc as [<-|Hc]; [vm_compute; reflexivity|]); destruct Hc|]).
  destruct Hin.
Qed.

Lemma apply_moves_centers (s : ndarray.t) (moves : list string) :
  length s = 54 -> valid_moves moves ->
  exists s', apply_moves s moves = Ok s' /\ length s' = 54 /\
             forall c, In c Heuristics.centers -> get s' c = get s c.
Proof.
  intros Hlen Hall. revert s Hlen.
  induction Hall as [|m moves Hm Hall IH]; intros s Hlen; cbn [apply_moves].
  - by exists s.
  - destruct (apply_move_centers s m Hlen Hm) as (s1 & -> & Hlen1 & Hc1). cbn [rbind].
    destruct (IH s1 Hlen1) as (s' & -> & Hlen' & Hc').
    exists s'. split; [done|]. split; [done|].
    intros c Hc. rewrite Hc' by done. by apply Hc1.
Qed.

(** X1: every sequence of moves of the 18-move vocabulary runs to the end on
    a 54-label array and leaves the six center facelets (positions 4, 13, 22,
    31, 40, 49) where they are. *)
Theorem moves_keep_centers (s : ndarray.t) (moves : list string) :
  length s = 54 -> valid_moves moves ->
  exists s', apply_moves s moves = Ok s' /\
             forall c, In c Heuristics.centers -> get s' c = get s c.
Proof.
  intros Hlen Hall.
  destruct (apply_moves_centers s moves Hlen Hall) as (s' & Hs' & _ & Hc).
  by exists s'.
Qed.

Lemma moves_keep_centers_witness :
  exists s', apply_moves after_U ["F"; "R2"; "B'"] = Ok s' /\
             forall c, In c Heuristics.centers -> get s' c = get after_U c.
Proof.
  apply (moves_keep_centers after_U ["F"; "R2"; "B'"]).
  - reflexivity.
  - apply check_valid_sound. reflexivity.
Defined.

(** X2: on every 54-label array, a move of the faces U, D, L, R, B, and the
    half turn F2, applied four times restores the array; every move of the
    vocabulary, the Front quarter turns included, restores it when applied
    eight times. *)
Theorem move_orders (s : ndarray.t) (m : string) :
  length s = 54 -> In m get_all_moves ->
  apply_moves s (repeat m 8) = Ok s /\
  (m <> "F" -> m <> "F'" -> apply_moves s (repeat m 4) = Ok s).
Proof.
  intros Hlen Hin. explode s Hlen. clear Hlen. vm_compute in Hin.
  repeat (destruct Hin as [<-|Hin];
    [split; [vm_compute; reflexivity|];
     intros HF HF'; try (exfalso; by (apply HF || apply HF'));
     vm_compute; reflexivity|]).
  destruct Hin.
Qed.

Lemma move_orders_witness :
  apply_moves after_U (repeat "R'" 8) = Ok after_U /\
  ("R'" <> "F" -> "R'" <> "F'" -> apply_moves after_U (repeat "R'" 4) = Ok after_U).
Proof.
  apply (move_orders after_U "R'").
  - reflexivity.
  - vm_compute. tauto.
Defined.

(** X3: for each move of the faces U, D, L, R, B, [reverse_map] (and the
    solver's [opposite_moves]) pairs it with a move that undoes it and that it
    undoes, on every 54-label array; the pairing is an involution. *)
Theorem reverse_map_undoes_off_front (s : ndarray.t) (m : string) :
  length s = 54 -> In m off_front ->
  exists m', dict_get RubikCube.reverse_map m = Some m' /\
             dict_get RubikCube.reverse_map m' = Some m /\
             dict_get AStarSolver.opposite_moves m = Some m' /\
             apply_moves s [m; m'] = Ok s /\ apply_moves s [m'; m] = Ok s.
Proof.
  intros Hlen Hin. explode s Hlen. clear Hlen. vm_compute in Hin.
  repeat (destruct Hin as [<-|Hin];
    [eexists; do 3 (split; [reflexivity|]); split; vm_compute; reflexivity|]).
  destruct Hin.
Qed.

Lemma reverse_map_undoes_off_front_witness :
  exists m', dict_get RubikCube.reverse_map "B" = Some m' /\
             dict_get RubikCube.reverse_map m' = Some "B" /\
             dict_get AStarSolver.opposite_moves "B" = Some m' /\
             apply_moves after_U ["B"; m'] = Ok after_U /\
             apply_moves after_U [m'; "B"] = Ok after_U.
Proof.
  apply (reverse_map_undoes_off_front after_U "B").
  - reflexivity.
  - vm_compute. tauto.
Defined.

(** X4: moves of the Up and Down faces commute, and so do moves of the Left
    and Right faces, on every 54-label array; Front and Back quarter turns do
    not commute on the solved cube. *)
Theorem opposite_faces_commute (s : ndarray.t) (a b : string) :
  length s = 54 ->
  (In a ["U"; "U'"; "U2"] /\ In b ["D"; "D'"; "D2"]) \/
  (In a ["L"; "L'"; "L2"] /\ In b ["R"; "R'"; "R2"]) ->
  (exists s', apply_moves s [a; b] = Ok s' /\ apply_moves s [b; a] = Ok s') /\
  apply_moves RubikCube._create_solved_state ["F"; "B"]
  <> apply_moves RubikCube._create_solved_state ["B"; "F"].
Proof.
  intros Hlen Hab. split; [|vm_compute; discriminate].
  explode s Hlen. clear Hlen.
  destruct Hab as [[Ha Hb]|[Ha Hb]]; vm_compute in Ha, Hb;
    repeat (destruct Ha as [<-|Ha]; [|]); try (destruct Ha);
    repeat (destruct Hb as [<-|Hb]; [|]); try (destruct Hb);
    eexists; split; vm_compute; reflexivity.
Qed.

Lemma opposite_faces_commute_witness :
  (exists s', apply_moves after_U ["L"; "R2"] = Ok s' /\
              apply_moves after_U ["R2"; "L"] = Ok s') /\
  apply_moves RubikCube._create_solved_state ["F"; "B"]
  <> apply_moves RubikCube._create_solved_state ["B"; "F"].
Proof.
  apply (opposite_faces_commute after_U "L" "R2").
  - reflexivity.
  - right. vm_compute. tauto.
Defined.

End MoreMoveFacts.

(** * More of the cube object *)

Section MoreCubeFacts.
Import ndarray.

Lemma execute_move_invalid (self : RubikCube.t) (move : string) :
  ~ In move MoveEngine.get_all_moves ->
  RubikCube.execute_move self move
  = Raise (ValueError (String.append "Invalid move: " move)).
Proof.
  intros Hnot. unfold RubikCube.execute_move, MoveEngine.is_valid_move.
  destruct (MoveEngine.dict_get MoveEngine.moves move) as [f|] eqn:Hf; [|done].
  exfalso. apply Hnot. apply dict_get_In in Hf.
  unfold MoveEngine.get_all_moves. apply (in_map fst) in Hf. exact Hf.
Qed.

(** X5: [execute_sequence] on a cube of 54 labels, given a sequence whose
    first symbol outside the vocabulary is [bad], after the valid moves
    [done_moves], raises the invalid-move error and leaves the cube as the
    valid moves before [bad] made it: their effect on the state (again 54
    labels), their names appended to the history, and their number added to
    the move count. Nothing after [bad] is applied. *)
Theorem execute_sequence_stops_at_invalid (self : RubikCube.t)
    (done_moves : list string) (bad : string) (rest : list string) :
  length (RubikCube.state self) = 54 ->
  valid_moves done_moves -> ~ In bad MoveEngine.get_all_moves ->
  exists s',
    apply_moves (RubikCube.state self) done_moves = Ok s' /\ length s' = 54 /\
    RubikCube.execute_sequence self (done_moves ++ bad :: rest)
    = (Raise (ValueError (String.append "Invalid move: " bad)),
       {| RubikCube.state := s';
          RubikCube.move_history := RubikCube.move_history self ++ done_moves;
          RubikCube.move_count :=
            (RubikCube.move_count self + Z.of_nat (length done_moves))%Z |}).
Proof.
  intros Hlen Hvalid Hbad. revert self Hlen.
  induction Hvalid as [|m ms Hm Hms IH]; intros self Hlen.
  - exists (RubikCube.state self). split; [done|]. split; [done|].
    cbn [app RubikCube.execute_sequence]. rewrite (execute_move_invalid self bad Hbad).
    destruct self; simpl. by rewrite app_nil_r, Z.add_0_r.
  - destruct (execute_move_valid self m Hm) as (s1 & Happ & Hexec).
    destruct (apply_move_Ok (RubikCube.state self) m Hm Hlen) as (s1' & Happ' & _ & Hlen1).
    assert (s1' = s1) as -> by congruence.
    cbn [app RubikCube.execute_sequence apply_moves]. rewrite Hexec, Happ. cbn [rbind].
    destruct (IH {| RubikCube.state := s1;
                    RubikCube.move_history := RubikCube.move_history self ++ [m];
                    RubikCube.move_count := (RubikCube.move_count self + 1)%Z |} Hlen1)
      as (s' & Hs' & Hlen' & ->).
    exists s'. split; [done|]. split; [done|].
    cbn [RubikCube.state RubikCube.move_history RubikCube.move_count].
    rewrite <- app_assoc.
    replace (RubikCube.move_count self + 1 + Z.of_nat (length ms))%Z
      with (RubikCube.move_count self + Z.of_nat (length (m :: ms)))%Z
      by (simpl length; lia).
    done.
Qed.

Lemma execute_sequence_stops_at_invalid_witness :
  exists s',
    apply_moves (RubikCube.state solved_cube) ["U"; "R"] = Ok s' /\ length s' = 54 /\
    RubikCube.execute_sequence solved_cube (["U"; "R"] ++ "X" :: ["D"])
    = (Raise (ValueError (String.append "Invalid move: " "X")),
       {| RubikCube.state := s';
          RubikCube.move_history := RubikCube.move_history solved_cube ++ ["U"; "R"];
          RubikCube.move_count :=
            (RubikCube.move_count solved_cube + Z.of_nat (length ["U"; "R"]))%Z |}).
Proof.
  apply (execute_sequence_stops_at_invalid solved_cube ["U"; "R"] "X" ["D"]).
  - reflexivity.
  - apply check_valid_sound. reflexivity.
  - vm_compute. intros H. repeat (destruct H as [H|H]; [discriminate H|]). exact H.
Defined.

(** X6: [execute_sequence] on a sequence over the vocabulary, from a cube of
    54 labels, returns normally with a cube of 54 labels whose state is the
    moves applied in order, a rearrangement of the labels it started with;
    the history grows by the moves and the move count by their number. *)
Theorem execute_sequence_applies_and_records (self : RubikCube.t) (moves : list string) :
  valid_moves moves -> length (RubikCube.state self) = 54 ->
  exists s',
    apply_moves (RubikCube.state self) moves = Ok s' /\
    Permutation s' (RubikCube.state self) /\ length s' = 54 /\
    RubikCube.execute_sequence self moves
    = (Ok tt,
       {| RubikCube.state := s';
          RubikCube.move_history := RubikCube.move_history self ++ moves;
          RubikCube.move_count :=
            (RubikCube.move_count self + Z.of_nat (length moves))%Z |}).
Proof.
  intros Hvalid Hlen.
  destruct (execute_sequence_valid self moves Hvalid) as (s' & Happ & Hexec).
  exists s'. split; [done|]. split; [|split; [|done]].
  - clear Hexec. revert Happ Hlen. generalize (RubikCube.state self). clear self.
    induction Hvalid as [|m ms Hm Hms IH]; intros s; simpl.
    + by intros [= <-].
    + intros Happ Hlen. destruct (apply_move_Ok s m Hm Hlen) as (s1 & Hs1 & HP & Hlen1).
      rewrite Hs1 in Happ. simpl in Happ. etransitivity; [by apply IH|done].
  - destruct (apply_moves_Ok (RubikCube.state self) moves Hvalid Hlen) as (s'' & Hs'' & ?).
    congruence.
Qed.

Lemma execute_sequence_applies_and_records_witness :
  exists s',
    apply_moves (RubikCube.state cube_after_U) ["R"; "U'"; "F2"] = Ok s' /\
    Permutation s' (RubikCube.state cube_after_U) /\ length s' = 54 /\
    RubikCube.execute_sequence cube_after_U ["R"; "U'"; "F2"]
    = (Ok tt,
       {| RubikCube.state := s';
          RubikCube.move_history := RubikCube.move_history cube_after_U ++ ["R"; "U'"; "F2"];
          RubikCube.move_count :=
            (RubikCube.move_count cube_after_U + Z.of_nat (length ["R"; "U'"; "F2"]))%Z |}).
Proof.
  apply (execute_sequence_applies_and_records cube_after_U ["R"; "U'"; "F2"]).
  - apply check_valid_sound. reflexivity.
  - reflexivity.
Defined.

End MoreCubeFacts.

Section FaceAccess.
Import ndarray.









End FaceAccess.

Section StateString.

Lemma concat_empty_cons (x : string) (xs : list string) :
  String.concat "" (x :: xs) = String.append x (String.concat "" xs).
Proof.
  destruct xs as [|y ys]; simpl.
  - induction x as [|c x IH]; simpl; [done|]. by rewrite <- IH.
  - done.
Qed.

Lemma digits_round_trip (l : list Z) :
  Forall (fun x => 0 <= x <= 9)%Z l ->
  String.length (String.concat "" (map pyint.str l)) = length l /\
  AStarSolver.ints_of_string (String.concat "" (map pyint.str l)) = Ok l.
Proof.
  induction 1 as [|x l Hx Hl [IHlen IH]]; [done|].
  cbn [map]. rewrite concat_empty_cons.
  assert (x = 0 \/ x = 1 \/ x = 2 \/ x = 3 \/ x = 4 \/ x = 5 \/ x = 6 \/ x = 7 \/
          x = 8 \/ x = 9)%Z as Hcases by lia.
  assert (exists c : ascii, pyint.str x = String c EmptyString /\ pyint.int c = inr x)
    as (c & -> & Hc).
  { repeat (destruct Hcases as [->|Hcases]; [eexists; split; vm_compute; reflexivity|]).
    subst x. eexists; split; vm_compute; reflexivity. }
  cbn [String.append String.length AStarSolver.ints_of_string length].
  rewrite IHlen, IH, Hc. split; reflexivity.
Qed.

(** X8: for a cube of 54 labels that are single digits (0 to 9, as the six
    colors are), [get_state_string] is a string of 54 characters and
    [_reconstruct_cube] of it is a cube with the same state, an empty
    history and a move count of 0. *)
Theorem reconstruct_cube_of_state_string (cube : RubikCube.t) :
  length (RubikCube.state cube) = 54 ->
  Forall (fun x => 0 <= x <= 9)%Z (RubikCube.state cube) ->
  String.length (RubikCube.get_state_string cube) = 54 /\
  AStarSolver._reconstruct_cube (RubikCube.get_state_string cube)
  = Ok {| RubikCube.state := RubikCube.state cube;
          RubikCube.move_history := []; RubikCube.move_count := 0 |}.
Proof.
  intros Hlen Hdigits. unfold RubikCube.get_state_string, AStarSolver._reconstruct_cube.
  destruct (digits_round_trip _ Hdigits) as [Hl Hr].
  split; [by rewrite Hl|]. rewrite Hr. cbn [rbind].
  unfold RubikCube.__init__. by rewrite Hlen.
Qed.

Lemma reconstruct_cube_of_state_string_witness :
  String.length (RubikCube.get_state_string cube_after_U) = 54 /\
  AStarSolver._reconstruct_cube (RubikCube.get_state_string cube_after_U)
  = Ok {| RubikCube.state := RubikCube.state cube_after_U;
          RubikCube.move_history := []; RubikCube.move_count := 0 |}.
Proof.
  apply (reconstruct_cube_of_state_string cube_after_U).
  - reflexivity.
  - vm_compute. repeat constructor; discriminate.
Defined.

End StateString.

Lemma apply_moves_Permutation (s s' : ndarray.t) (moves : list string) :
  valid_moves moves -> length s = 54 -> apply_moves s moves = Ok s' ->
  Permutation s' s /\ length s' = 54.
Proof.
  intros Hvalid. revert s. induction Hvalid as [|m ms Hm Hms IH]; intros s Hlen; simpl.
  - by intros [= <-].
  - destruct (apply_move_Ok s m Hm Hlen) as (s1 & -> & HP & Hlen1). simpl.
    intros Hs'. destruct (IH s1 Hlen1 Hs') as [HP' Hlen']. split; [|done].
    by etransitivity.
Qed.

Section MoreScrambleFacts.
Variable rng : Type.
Variable np_random_seed : Z -> result rng.
Variable np_random_choice : rng -> list string -> string * rng.
Hypothesis choice_in :
  forall g l, l <> [] -> In (fst (np_random_choice g l)) l.

Lemma scramble_loop_effect iterations (self : RubikCube.t) scramble_moves last g :
  exists moves self' g',
    RubikCube.scramble_loop rng np_random_choice iterations MoveEngine.get_all_moves
      self scramble_moves last g = (Ok (scramble_moves ++ moves), self', g') /\
    length moves = iterations /\
    valid_moves moves /\
    chain last moves /\
    RubikCube.move_history self' = RubikCube.move_history self ++ moves /\
    RubikCube.move_count self' = (RubikCube.move_count self + Z.of_nat iterations)%Z /\
    apply_moves (RubikCube.state self) moves = Ok (RubikCube.state self').
Proof.
  revert self scramble_moves last g.
  induction iterations as [|iterations IH]; intros self scramble_moves last g;
    cbn [RubikCube.scramble_loop].
  - exists [], self, g. rewrite !app_nil_r, Z.add_0_r. repeat split; try done. constructor.
  - pose proof (choice_in g _ (valid_moves_nonempty last)) as Hin.
    destruct (np_random_choice g _) as [move g1]. cbn [fst] in Hin.
    apply filter_In in Hin as [Hin Hrev]. apply negb_true_iff in Hrev.
    destruct (execute_move_valid self move Hin) as (s' & Happ & ->).
    destruct (IH {| RubikCube.state := s';
                    RubikCube.move_history := RubikCube.move_history self ++ [move];
                    RubikCube.move_count := (RubikCube.move_count self + 1)%Z |}
                 (scramble_moves ++ [move]) (Some move) g1)
      as (moves & self' & g' & -> & Hlen & Hvalid & Hchain & Hhist & Hcount & Hstate).
    exists (move :: moves), self', g'.
    cbn [RubikCube.move_history RubikCube.state RubikCube.move_count] in *.
    rewrite <- !app_assoc in *. cbn [app length chain apply_moves] in *.
    rewrite Happ. unfold rbind.
    repeat split; try done; [by rewrite Hlen|by constructor|lia].
Qed.

(** X9: [scramble] on a cube of 54 labels, with no seed or with a seed the
    generator accepts, returns [max(n, 0)] moves of the vocabulary, none
    reversing the one before it; the cube's state is those moves applied in
    order, a rearrangement of the labels it had; the moves are appended to
    its history and counted. With a seed that [np.random.seed] rejects, the
    error is raised and neither the cube nor the generator changes. *)
Theorem scramble_effect (self : RubikCube.t) (n : Z) (seed : option Z) (g : rng) :
  length (RubikCube.state self) = 54 ->
  (forall z, seed = Some z -> exists g0, np_random_seed z = Ok g0) ->
  (exists moves self' g',
     RubikCube.scramble rng np_random_seed np_random_choice self n seed g
     = (Ok moves, self', g') /\
     length moves = Z.to_nat n /\
     valid_moves moves /\ no_immediate_reverse moves /\
     apply_moves (RubikCube.state self) moves = Ok (RubikCube.state self') /\
     Permutation (RubikCube.state self') (RubikCube.state self) /\
     RubikCube.move_history self' = RubikCube.move_history self ++ moves /\
     RubikCube.move_count self' = (RubikCube.move_count self + Z.of_nat (length moves))%Z) /\
  (forall z e, np_random_seed z = inl e ->
     RubikCube.scramble rng np_random_seed np_random_choice self n (Some z) g
     = (inl e, self, g)).
Proof.
  intros Hlen Hseed. split.
  - unfold RubikCube.scramble.
    assert (exists g0, match seed with Some seed => np_random_seed seed | None => Ok g end
                       = Ok g0) as [g0 ->].
    { destruct seed as [z|]; [by apply Hseed|by eexists]. }
    destruct (scramble_loop_effect (Z.to_nat n) self [] None g0)
      as (moves & self' & g' & Heq & Hl & Hvalid & Hchain & Hhist & Hcount & Hstate).
    exists moves, self', g'. cbn [app] in Heq.
    repeat split; try done.
    + by apply (chain_no_immediate_reverse None).
    + by destruct (apply_moves_Permutation _ _ _ Hvalid Hlen Hstate).
    + by rewrite Hl.
  - intros z e He. unfold RubikCube.scramble. by rewrite He.
Qed.

End MoreScrambleFacts.

Lemma scramble_effect_witness :
  (exists moves self' g',
     RubikCube.scramble nat (fun z => Ok (Z.to_nat z)) counter_choice cube_after_U 5 None 3
     = (Ok moves, self', g') /\
     length moves = Z.to_nat 5 /\
     valid_moves moves /\ no_immediate_reverse moves /\
     apply_moves (RubikCube.state cube_after_U) moves = Ok (RubikCube.state self') /\
     Permutation (RubikCube.state self') (RubikCube.state cube_after_U) /\
     RubikCube.move_history self' = RubikCube.move_history cube_after_U ++ moves /\
     RubikCube.move_count self'
     = (RubikCube.move_count cube_after_U + Z.of_nat (length moves))%Z) /\
  (forall z e, (fun z => Ok (Z.to_nat z)) z = inl e ->
     RubikCube.scramble nat (fun z => Ok (Z.to_nat z)) counter_choice cube_after_U 5
       (Some z) 3 = (inl e, cube_after_U, 3)).
Proof.
  apply (scramble_effect nat (fun z => Ok (Z.to_nat z)) counter_choice counter_choice_in
           cube_after_U 5 None 3).
  - reflexivity.
  - intros z H. discriminate H.
Defined.

Section CopyFacts.

(** X10: a copy is independent of the original. In any store, copying a
    cube of 54 labels allocates a new object, and executing moves of the
    vocabulary on the copy leaves the original object exactly as it was,
    while the copy holds the original's state after the moves, the
    original's history followed by the moves, and a move count that started
    again from 0. *)
Theorem copy_is_independent (w : world) (r : ref) (c : RubikCube.t) (moves : list string) :
  cubes w !! r = Some c -> length (RubikCube.state c) = 54 -> valid_moves moves ->
  exists s' w',
    (let* r' := copy r in let* _ := execute_sequence r' moves in ret r') w
    = (Ok (length (cubes w)), w') /\
    r <> length (cubes w) /\
    cubes w' !! r = Some c /\
    apply_moves (RubikCube.state c) moves = Ok s' /\
    cubes w' !! length (cubes w)
    = Some {| RubikCube.state := s';
              RubikCube.move_history := RubikCube.move_history c ++ moves;
              RubikCube.move_count := Z.of_nat (length moves) |}.
Proof.
  intros Hc Hlen Hvalid.
  rewrite (bind_ok _ _ _ _ _ (copy_eq _ _ _ Hc Hlen)).
  pose proof (execute_sequence_eq (push w (copied c)) (length (cubes w)) (copied c)
                moves (lookup_push _ _)) as Hexec.
  rewrite set_cube_push in Hexec.
  destruct (execute_sequence_valid (copied c) moves Hvalid) as (s' & Happ & Hseq).
  rewrite Hseq in Hexec. cbn [fst snd] in Hexec.
  rewrite (bind_ok _ _ _ _ _ Hexec).
  eexists s', _. split; [reflexivity|].
  split; [apply lookup_lt_Some in Hc; lia|].
  split; [by eapply extends_lookup; [apply extends_push|]|].
  split; [done|]. apply lookup_push.
Qed.

Lemma copy_is_independent_witness :
  exists s' w',
    (let* r' := copy 0 in let* _ := execute_sequence r' ["R"; "U"] in ret r')
      {| cubes := [cube_after_U]; statistics := SearchStatistics.__init__ |}
    = (Ok 1, w') /\
    0 <> 1 /\
    cubes w' !! 0 = Some cube_after_U /\
    apply_moves (RubikCube.state cube_after_U) ["R"; "U"] = Ok s' /\
    cubes w' !! 1
    = Some {| RubikCube.state := s';
              RubikCube.move_history := RubikCube.move_history cube_after_U ++ ["R"; "U"];
              RubikCube.move_count := Z.of_nat (length ["R"; "U"]) |}.
Proof.
  apply (copy_is_independent
           {| cubes := [cube_after_U]; statistics := SearchStatistics.__init__ |}
           0 cube_after_U ["R"; "U"]).
  - reflexivity.
  - reflexivity.
  - apply check_valid_sound. reflexivity.
Defined.

End CopyFacts.

(** * More of the optimizer *)

Section MoreOptimizerFacts.
Import MoveOptimizer.

Lemma move_values_vocabulary m v :
  MoveEngine.dict_get move_values m = Some v -> In m MoveEngine.get_all_moves.
Proof.
  intros H. apply dict_get_In in H. unfold move_values in H.
  repeat (destruct H as [[= <- <-]|H]; [vm_compute; tauto|]). destruct H.
Qed.

Lemma sum_values_Ok_vocabulary ms v :
  sum_values ms = Ok v -> valid_moves ms.
Proof.
  revert v. induction ms as [|m ms IH]; intros v; cbn [sum_values]; [constructor|].
  destruct (MoveEngine.dict_get move_values m) as [vm|] eqn:Hm; [|done].
  destruct (sum_values ms) as [e|v'] eqn:Hs; cbn [rbind]; [done|]. intros _.
  constructor; [by eapply move_values_vocabulary|by eapply IH].
Qed.

Lemma consecutive_app face moves run rest :
  consecutive face moves = Ok (run, rest) -> moves = run ++ rest.
Proof.
  revert run rest. induction moves as [|m moves IH]; intros run rest; cbn [consecutive].
  - by intros [= <- <-].
  - destruct (pystr.index0 m) as [e|f]; cbn [rbind]; [done|].
    destruct (String.eqb f face).
    + destruct (consecutive face moves) as [e|[run' rest']]; cbn [rbind]; [done|].
      intros [= <- <-]. cbn [app]. f_equal. by apply IH.
    + by intros [= <- <-].
Qed.

Lemma optimize_loop_Ok_vocabulary fuel moves optimized out :
  optimize_loop fuel moves optimized = Some (Ok out) -> valid_moves moves.
Proof.
  revert moves optimized. induction fuel as [|fuel IH]; intros moves optimized.
  - destruct moves; cbn [optimize_loop]; [constructor|done].
  - destruct moves as [|current_move after]; cbn [optimize_loop]; [constructor|].
    destruct (pystr.index0 current_move) as [e|face]; [done|].
    destruct (consecutive face after) as [e|[run rest]] eqn:Hc; [done|].
    destruct (sum_values (current_move :: run)) as [e|net] eqn:Hs; [done|].
    intros H. apply IH in H. apply sum_values_Ok_vocabulary in Hs.
    apply consecutive_app in Hc. subst after.
    change (current_move :: run ++ rest) with ((current_move :: run) ++ rest).
    apply Forall_app. by split.
Qed.

Lemma face_moves_vocabulary m face :
  In m MoveEngine.get_all_moves -> pystr.index0 m = Ok face ->
  In face MoveEngine.get_all_moves /\
  In (String.append face "2") MoveEngine.get_all_moves /\
  In (String.append face "'") MoveEngine.get_all_moves.
Proof.
  intros Hm. vm_compute in Hm.
  repeat (destruct Hm as [<-|Hm]; [intros [= <-]; vm_compute; tauto|]). destruct Hm.
Qed.

Lemma optimize_loop_out_vocabulary fuel moves optimized out :
  valid_moves optimized ->
  optimize_loop fuel moves optimized = Some (Ok out) -> valid_moves out.
Proof.
  revert moves optimized. induction fuel as [|fuel IH]; intros moves optimized Hopt.
  - destruct moves; cbn [optimize_loop]; [by intros [= <-]|done].
  - destruct moves as [|current_move after]; cbn [optimize_loop]; [by intros [= <-]|].
    destruct (pystr.index0 current_move) as [e|face] eqn:Hf; [done|].
    destruct (consecutive face after) as [e|[run rest]] eqn:Hc; [done|].
    destruct (sum_values (current_move :: run)) as [e|net] eqn:Hs; [done|].
    apply sum_values_Ok_vocabulary in Hs. inversion Hs as [|? ? Hm _]; subst.
    destruct (face_moves_vocabulary current_move face Hm Hf) as (H1 & H2 & H3).
    apply IH. repeat case_match; try done; apply Forall_app; split; try done;
      by constructor.
Qed.

(** X11: [optimize_sequence] returns a sequence exactly when every move of
    its input is in the 18-move vocabulary; the sequence returned is over the
    vocabulary and no longer than the input. On any other input it raises (it
    never fails to terminate). *)
Theorem optimize_sequence_defined_on_vocabulary (moves : list string) :
  (valid_moves moves ->
   exists out, optimize_sequence moves = Some (Ok out) /\
               length out <= length moves /\ valid_moves out) /\
  (~ valid_moves moves -> exists e, optimize_sequence moves = Some (Raise e)).
Proof.
  split.
  - intros Hvalid. destruct (optimize_sequence_vocabulary moves Hvalid) as (out & Hout & Hlen).
    exists out. split; [done|]. split; [done|].
    destruct moves as [|m moves]; [by injection Hout as <-|].
    unfold optimize_sequence in Hout.
    eapply optimize_loop_out_vocabulary; [|exact Hout]. constructor.
  - intros Hnot. destruct (optimize_sequence moves) as [[e|out]|] eqn:Hopt.
    + by exists e.
    + exfalso. apply Hnot. destruct moves as [|m moves]; [constructor|].
      unfold optimize_sequence in Hopt. by eapply optimize_loop_Ok_vocabulary.
    + exfalso. destruct moves as [|m moves]; [done|].
      unfold optimize_sequence in Hopt. by eapply optimize_loop_fuel; [|exact Hopt].
Qed.

Lemma optimize_sequence_defined_on_vocabulary_witness :
  exists out, optimize_sequence ["U"; "U"; "R"; "R'"; "R"; "F2"] = Some (Ok out) /\
              length out <= length ["U"; "U"; "R"; "R'"; "R"; "F2"] /\ valid_moves out.
Proof.
  apply (proj1 (optimize_sequence_defined_on_vocabulary ["U"; "U"; "R"; "R'"; "R"; "F2"])).
  apply check_valid_sound. reflexivity.
Defined.

Lemma single_move_run m rest :
  In m MoveEngine.get_all_moves ->
  exists face net,
    pystr.index0 m = Ok face /\ sum_values [m] = Ok net /\
    (if (net mod 4 =? 1)%Z then rest ++ [face]
     else if (net mod 4 =? 2)%Z then rest ++ [String.append face "2"]
     else if (net mod 4 =? 3)%Z then rest ++ [String.append face "'"]
     else rest) = rest ++ [m].
Proof.
  intros Hm. vm_compute in Hm.
  repeat (destruct Hm as [<-|Hm]; [do 2 eexists; repeat split|]). destruct Hm.
Qed.

Lemma optimize_loop_fixed fuel moves optimized :
  length moves <= fuel -> valid_moves moves -> no_adjacent_same_face moves ->
  optimize_loop fuel moves optimized = Some (Ok (optimized ++ moves)).
Proof.
  revert moves optimized. induction fuel as [|fuel IH]; intros moves optimized Hfuel Hvalid Hno.
  - destruct moves; [by rewrite app_nil_r|simpl in Hfuel; lia].
  - destruct Hvalid as [|m after Hm Hafter]; [by rewrite app_nil_r|].
    cbn [optimize_loop].
    destruct (single_move_run m optimized Hm) as (face & net & Hf & Hnet & Hemit).
    rewrite Hf.
    assert (consecutive face after = Ok ([], after)) as ->.
    { destruct Hafter as [|m2 after Hm2 Hafter]; [done|]. cbn [consecutive].
      destruct Hno as [Hne _]. rewrite Hf in Hne.
      destruct (pystr.index0 m2) as [e|f2] eqn:Hf2.
      - exfalso. vm_compute in Hm2.
        repeat (destruct Hm2 as [<-|Hm2]; [discriminate Hf2|]). done.
      - cbn [rbind]. destruct (String.eqb_spec f2 face) as [->|]; [done|done]. }
    rewrite Hnet, Hemit. simpl in Hfuel.
    rewrite IH; [by rewrite <- app_assoc|lia|done|].
    destruct after as [|m2 after]; [done|]. by destruct Hno.
Qed.

(** X12: a sequence over the vocabulary in which no move is on the same
    face as the move before it is returned unchanged by
    [optimize_sequence]. *)
Theorem optimize_sequence_fixes_reduced (moves : list string) :
  valid_moves moves -> no_adjacent_same_face moves ->
  optimize_sequence moves = Some (Ok moves).
Proof.
  intros Hvalid Hno. destruct moves as [|m moves]; [done|].
  unfold optimize_sequence. by rewrite optimize_loop_fixed.
Qed.

Lemma optimize_sequence_fixes_reduced_witness :
  optimize_sequence ["R"; "U"; "R'"; "U'"; "F2"] = Some (Ok ["R"; "U"; "R'"; "U'"; "F2"]).
Proof.
  apply (optimize_sequence_fixes_reduced ["R"; "U"; "R'"; "U'"; "F2"]).
  - apply check_valid_sound. reflexivity.
  - repeat split; discriminate.
Defined.

(** X13: on a sequence that avoids the Front face, [optimize_sequence]
    returns a sequence that takes every 54-label array to the same array as
    the input sequence does, and is no longer than it. *)
Theorem optimize_sequence_same_state_off_front (moves : list string) (s : ndarray.t) :
  Forall (fun m => In m off_front) moves -> length s = 54 ->
  exists out s',
    optimize_sequence moves = Some (Ok out) /\
    apply_moves s moves = Ok s' /\ apply_moves s out = Ok s' /\
    length out <= length moves.
Proof. apply optimize_sequence_off_front. Qed.

Lemma optimize_sequence_same_state_off_front_witness :
  exists out s',
    optimize_sequence ["U"; "U"; "U"; "D"; "D'"; "R2"; "R"] = Some (Ok out) /\
    apply_moves after_U ["U"; "U"; "U"; "D"; "D'"; "R2"; "R"] = Ok s' /\
    apply_moves after_U out = Ok s' /\
    length out <= length ["U"; "U"; "U"; "D"; "D'"; "R2"; "R"].
Proof.
  apply (optimize_sequence_same_state_off_front
           ["U"; "U"; "U"; "D"; "D'"; "R2"; "R"] after_U).
  - apply List.Forall_forall. intros m Hm. vm_compute in Hm |- *. tauto.
  - reflexivity.
Defined.

End MoreOptimizerFacts.

(** * More of the estimators *)

Section MoreHeuristicFacts.
Import ndarray Heuristics.

(** On the range of the three estimators the binary64 sum of
    [combined_heuristic], truncated, is the exact integer part of
    [(3 h1 + 5 h2 + 2 h3) / 10]. *)
Lemma weighted_exact (h1 h2 h3 : Z) :
  (0 <= h1 <= 5)%Z -> (0 <= h2 <= 7)%Z -> (0 <= h3 <= 41)%Z ->
  weighted h1 h2 h3 = ((3 * h1 + 5 * h2 + 2 * h3) / 10)%Z.
Proof.
  intros H1 H2 H3.
  assert (forallb (fun a => forallb (fun b => forallb (fun c =>
            (weighted (Z.of_nat a) (Z.of_nat b) (Z.of_nat c)
             =? (3 * Z.of_nat a + 5 * Z.of_nat b + 2 * Z.of_nat c) / 10)%Z)
            (seq 0 42)) (seq 0 8)) (seq 0 6) = true) as Hall
    by (vm_compute; reflexivity).
  rewrite forallb_forall in Hall.
  specialize (Hall (Z.to_nat h1)). rewrite forallb_forall in Hall.
  specialize (Hall ltac:(apply in_seq; lia) (Z.to_nat h2)). rewrite forallb_forall in Hall.
  specialize (Hall ltac:(apply in_seq; lia) (Z.to_nat h3) ltac:(apply in_seq; lia)).
  rewrite !Z2Nat.id in Hall by lia. lia.
Qed.

Lemma layer_fold_solved (test : nat -> bool) (l : list nat) (b : bool) (acc : Z) :
  fst (fold_left
         (fun '(bottom_solved, heuristic) pos =>
            if test pos then (false, (heuristic + 1)%Z)
            else (bottom_solved, heuristic))
         l (b, acc)) = true ->
  snd (fold_left
         (fun '(bottom_solved, heuristic) pos =>
            if test pos then (false, (heuristic + 1)%Z)
            else (bottom_solved, heuristic))
         l (b, acc)) = acc.
Proof.
  revert b acc. induction l as [|x l IH]; intros b acc; cbn [fold_left].
  - done.
  - destruct (test x).
    + intros Hfst. exfalso. clear IH. revert Hfst. generalize (acc + 1)%Z.
      induction l as [|y l IH]; intros a; cbn [fold_left fst]; [done|].
      destruct (test y); apply IH.
    + apply IH.
Qed.

Lemma layer_completion_heuristic_range cube :
  exists h, layer_completion_heuristic cube = Ok h /\ (0 <= h <= 41)%Z.
Proof.
  cbv beta iota zeta delta [layer_completion_heuristic rbind RubikCube.__init__].
  pose proof (layer_fold_bounds
    (fun pos => negb (get (RubikCube.state cube) pos =? get RubikCube._create_solved_state pos)%Z)
    bottom_positions true 0) as Hb.
  pose proof (layer_fold_solved
    (fun pos => negb (get (RubikCube.state cube) pos =? get RubikCube._create_solved_state pos)%Z)
    bottom_positions true 0) as Hs.
  change (Z.of_nat (length bottom_positions)) with 21%Z in Hb.
  destruct (fold_left _ bottom_positions (true, 0%Z)) as [bottom_solved heuristic].
  cbn [snd fst] in Hb, Hs. eexists. split; [done|].
  destruct bottom_solved; simpl negb; cbv iota.
  - rewrite (Hs eq_refl).
    pose proof (fold_left_bounds
      (fun heuristic pos =>
         if negb (get (RubikCube.state cube) pos =? get RubikCube._create_solved_state pos)%Z
         then (heuristic + 2)%Z else heuristic) 2 middle_positions 0) as Hm.
    change (Z.of_nat (length middle_positions)) with 14%Z in Hm.
    assert (forall (a : Z) (x : nat),
       (a <= (if negb (get (RubikCube.state cube) x =? get RubikCube._create_solved_state x)%Z
              then a + 2 else a) <= a + 2)%Z) as H1.
    { intros a x. case_match; lia. }
    specialize (Hm H1). lia.
  - lia.
Qed.

(** X14: on a cube of 54 labels the four estimators return integers in fixed
    ranges: [manhattan_distance] in 0..5, [corner_edge_heuristic] in 0..7,
    [layer_completion_heuristic] in 0..41 and [combined_heuristic] in
    0..13. *)
Theorem heuristic_ranges (cube : RubikCube.t) :
  length (RubikCube.state cube) = 54 ->
  exists h1 h2 h3 h4,
    manhattan_distance cube = Ok h1 /\ corner_edge_heuristic cube = Ok h2 /\
    layer_completion_heuristic cube = Ok h3 /\ combined_heuristic cube = Ok h4 /\
    (0 <= h1 <= 5)%Z /\ (0 <= h2 <= 7)%Z /\ (0 <= h3 <= 41)%Z /\ (0 <= h4 <= 13)%Z.
Proof.
  intros _.
  destruct (manhattan_distance_bounds cube) as (h1 & E1 & B1).
  destruct (corner_edge_heuristic_bounds cube) as (h2 & E2 & B2).
  destruct (layer_completion_heuristic_range cube) as (h3 & E3 & B3).
  exists h1, h2, h3, (weighted h1 h2 h3).
  unfold combined_heuristic. rewrite E1, E2, E3. cbn [rbind].
  do 3 (split; [done|]). split; [done|]. do 3 (split; [done|]).
  rewrite weighted_exact by done. split.
  - apply Z.div_pos; lia.
  - apply Z.lt_succ_r. apply Z.div_lt_upper_bound; lia.
Qed.

Lemma heuristic_ranges_witness :
  exists h1 h2 h3 h4,
    manhattan_distance cube_after_U = Ok h1 /\ corner_edge_heuristic cube_after_U = Ok h2 /\
    layer_completion_heuristic cube_after_U = Ok h3 /\ combined_heuristic cube_after_U = Ok h4 /\
    (0 <= h1 <= 5)%Z /\ (0 <= h2 <= 7)%Z /\ (0 <= h3 <= 41)%Z /\ (0 <= h4 <= 13)%Z.
Proof.
  apply (heuristic_ranges cube_after_U). reflexivity.
Defined.

(** X15: the floating-point sum [0.3 h1 + 0.5 h2 + 0.2 h3] of
    [combined_heuristic], truncated by [int], loses nothing to rounding: on a
    cube of 54 labels the result is the integer part of
    [(3 h1 + 5 h2 + 2 h3) / 10], for [h1], [h2], [h3] the values of the three
    other estimators. *)
Theorem combined_heuristic_exact (cube : RubikCube.t) :
  length (RubikCube.state cube) = 54 ->
  exists h1 h2 h3,
    manhattan_distance cube = Ok h1 /\ corner_edge_heuristic cube = Ok h2 /\
    layer_completion_heuristic cube = Ok h3 /\
    combined_heuristic cube = Ok ((3 * h1 + 5 * h2 + 2 * h3) / 10)%Z.
Proof.
  intros _.
  destruct (manhattan_distance_bounds cube) as (h1 & E1 & B1).
  destruct (corner_edge_heuristic_bounds cube) as (h2 & E2 & B2).
  destruct (layer_completion_heuristic_range cube) as (h3 & E3 & B3).
  exists h1, h2, h3. do 3 (split; [done|]).
  unfold combined_heuristic. rewrite E1, E2, E3. cbn [rbind].
  by rewrite weighted_exact.
Qed.

Lemma combined_heuristic_exact_witness :
  exists h1 h2 h3,
    manhattan_distance cube_after_U = Ok h1 /\ corner_edge_heuristic cube_after_U = Ok h2 /\
    layer_completion_heuristic cube_after_U = Ok h3 /\
    combined_heuristic cube_after_U = Ok ((3 * h1 + 5 * h2 + 2 * h3) / 10)%Z.
Proof.
  apply (combined_heuristic_exact cube_after_U). reflexivity.
Defined.

Lemma corner_step_shift cube sc a c :
  corner_step cube sc a c = (a + corner_step cube sc 0 c)%Z.
Proof. unfold corner_step. repeat case_match; lia. Qed.

Lemma edge_step_shift cube sc a c :
  edge_step cube sc a c = (a + edge_step cube sc 0 c)%Z.
Proof. unfold edge_step. repeat case_match; lia. Qed.

Lemma corner_step_zero cube sc c :
  (0 <= corner_step cube sc 0 c)%Z /\
  (corner_step cube sc 0 c = 0%Z ->
   gets (RubikCube.state cube) c = gets (RubikCube.state sc) c).
Proof.
  unfold corner_step, list_ne.
  destruct (array_equal (sorted _) _); cbn [negb]; [|lia].
  destruct (array_equal (gets _ _) _) eqn:E; cbn [negb]; [|lia].
  split; [lia|]. intros _. by apply array_equal_eq.
Qed.

Lemma edge_step_zero cube sc c :
  (0 <= edge_step cube sc 0 c)%Z /\
  (edge_step cube sc 0 c = 0%Z ->
   gets (RubikCube.state cube) c = gets (RubikCube.state sc) c).
Proof.
  unfold edge_step, list_ne.
  destruct (array_equal (sorted _) _); cbn [negb]; [|lia].
  destruct (array_equal (gets _ _) _) eqn:E; cbn [negb]; [|lia].
  split; [lia|]. intros _. by apply array_equal_eq.
Qed.

(** A sum of steps that each add a non-negative amount: it ends where it
    started only if every step adds nothing. *)
Lemma fold_left_steps_zero {X} (f : Z -> X -> Z) (l : list X) (acc : Z) :
  (forall a x, f a x = (a + f 0%Z x)%Z) -> (forall x, (0 <= f 0%Z x)%Z) ->
  (acc <= fold_left f l acc)%Z /\
  (fold_left f l acc = acc -> forall x, In x l -> f 0%Z x = 0%Z).
Proof.
  intros Hshift Hnn. revert acc.
  induction l as [|y l IH]; intros acc; cbn [fold_left].
  - split; [lia|]. intros _ x [].
  - destruct (IH (f acc y)) as [Hle Hz]. rewrite (Hshift acc y) in *.
    pose proof (Hnn y). split; [lia|].
    intros Heq x [<-|Hx]; [lia|]. apply Hz; [lia|done].
Qed.

(** X16: on a cube of 54 labels whose six center facelets are in place, as
    they are after any sequence of moves from the solved cube,
    [corner_edge_heuristic] returns 0 exactly when the cube is solved. *)
Theorem corner_edge_heuristic_zero_iff_solved (cube : RubikCube.t) :
  length (RubikCube.state cube) = 54 ->
  (forall c, In c centers ->
             get (RubikCube.state cube) c = get RubikCube._create_solved_state c) ->
  corner_edge_heuristic cube = Ok 0%Z <-> RubikCube.is_solved cube = true.
Proof.
  intros Hlen Hcenters. split.
  2:{ intros Hs. unfold corner_edge_heuristic. by rewrite Hs. }
  unfold corner_edge_heuristic.
  destruct (RubikCube.is_solved cube) eqn:Hsolved; [done|].
  cbv beta iota zeta delta [rbind RubikCube.__init__].
  set (sc := {| RubikCube.state := RubikCube._create_solved_state;
                RubikCube.move_history := []; RubikCube.move_count := 0 |}).
  set (hc := fold_left (corner_step cube sc) corners 0%Z).
  set (he := fold_left (edge_step cube sc) edges hc).
  destruct (fold_left_steps_zero (corner_step cube sc) corners 0%Z
              (corner_step_shift cube sc) (fun c => proj1 (corner_step_zero cube sc c)))
    as [Hc0 Hcz].
  destruct (fold_left_steps_zero (edge_step cube sc) edges hc
              (edge_step_shift cube sc) (fun c => proj1 (edge_step_zero cube sc c)))
    as [He0 Hez].
  fold hc in Hc0, Hcz. fold he in He0, Hez.
  intros Hres.
  assert (he = 0%Z) as Hhe.
  { destruct (he >? 0)%Z eqn:Hpos; [injection Hres; lia|lia]. }
  assert (hc = 0%Z) as Hhc by lia.
  assert (forall p, p < 54 ->
            get (RubikCube.state cube) p = get RubikCube._create_solved_state p) as Hall.
  { assert (forall c, In c (corners ++ edges) ->
              gets (RubikCube.state cube) c = gets RubikCube._create_solved_state c) as Hpieces.
    { intros c [Hc|Hc]%in_app_iff.
      - apply (proj2 (corner_step_zero cube sc c)). by apply Hcz.
      - apply (proj2 (edge_step_zero cube sc c)). apply Hez; [lia|done]. }
    assert (forall p, In p (concat (corners ++ edges)) ->
              get (RubikCube.state cube) p = get RubikCube._create_solved_state p) as Hpos.
    { intros p (c & Hc & Hp)%in_concat. specialize (Hpieces c Hc).
      clear -Hpieces Hp. unfold gets in Hpieces.
      induction c as [|q c IH]; [done|]. injection Hpieces as Hq Hrest.
      destruct Hp as [<-|Hp]; [done|by apply IH]. }
    intros p Hp.
    assert (In p (concat (corners ++ edges) ++ centers)) as [Hin|Hin]%in_app_iff.
    { assert (forallb (fun q => existsb (Nat.eqb q) (concat (corners ++ edges) ++ centers))
                      (seq 0 54) = true) as Hcover by (vm_compute; reflexivity).
      rewrite forallb_forall in Hcover.
      specialize (Hcover p ltac:(apply in_seq; lia)).
      apply existsb_exists in Hcover as (q & Hq & ->%Nat.eqb_eq). exact Hq. }
    - by apply Hpos.
    - by apply Hcenters. }
  assert (RubikCube.state cube = RubikCube._create_solved_state) as Heq.
  { apply nth_ext with (d := 0%Z) (d' := 0%Z); [by rewrite Hlen|].
    intros n Hn. apply Hall. lia. }
  unfold RubikCube.is_solved in Hsolved.
  assert (array_equal (RubikCube.state cube) RubikCube._create_solved_state = true)
    by by apply array_equal_eq.
  congruence.
Qed.

Lemma corner_edge_heuristic_zero_iff_solved_witness :
  corner_edge_heuristic two_facelets_exchanged = Ok 0%Z <->
  RubikCube.is_solved two_facelets_exchanged = true.
Proof.
  apply (corner_edge_heuristic_zero_iff_solved two_facelets_exchanged).
  - reflexivity.
  - intros c Hc. vm_compute in Hc.
    repeat (destruct Hc as [<-|Hc]; [vm_compute; reflexivity|]). destruct Hc.
Defined.

End MoreHeuristicFacts.

(** * More of the solver *)

Section InvertFacts.
Import ndarray MoveEngine AStarSolver.

Lemma Forall2_reverse {A B} (R : A -> B -> Prop) (l : list A) (l' : list B) :
  Forall2 R l l' -> Forall2 R (rev l) (rev l').
Proof.
  induction 1 as [|x y l l' Hxy _ IH]; cbn [rev]; [constructor|].
  apply Forall2_app; [done|]. by repeat constructor.
Qed.

Lemma _invert_loop_Forall2 (l l' acc : list string) :
  Forall2 (fun m m' => _invert_move m = Ok m') l l' ->
  _invert_loop l acc = Ok (acc ++ l').
Proof.
  intros H. revert acc. induction H as [|m m' l l' Hm _ IH]; intros acc; cbn [_invert_loop].
  - by rewrite app_nil_r.
  - rewrite Hm. cbn [rbind]. rewrite IH. by rewrite <- app_assoc.
Qed.

Lemma _invert_move_vocabulary (m : string) :
  In m get_all_moves ->
  exists m', _invert_move m = Ok m' /\ In m' get_all_moves /\ _invert_move m' = Ok m /\
             (In m off_front -> In m' off_front).
Proof.
  intros Hin. vm_compute in Hin.
  repeat (destruct Hin as [<-|Hin];
    [eexists; split; [reflexivity|]; split; [vm_compute; tauto|];
     split; [reflexivity|]; vm_compute; intuition congruence|]).
  destruct Hin.
Qed.

Lemma _invert_moves_vocabulary (l : list string) :
  valid_moves l ->
  exists l', Forall2 (fun m m' => _invert_move m = Ok m') l l' /\ valid_moves l' /\
             Forall2 (fun m m' => _invert_move m = Ok m') l' l /\
             (Forall (fun m => In m off_front) l -> Forall (fun m => In m off_front) l').
Proof.
  induction 1 as [|m l Hm _ (l' & H1 & H2 & H3 & H4)].
  - exists []. repeat split; constructor.
  - destruct (_invert_move_vocabulary m Hm) as (m' & E1 & E2 & E3 & E4).
    exists (m' :: l'). split; [by constructor|]. split; [by constructor|].
    split; [by constructor|]. intros Hoff. inversion Hoff; subst. constructor; auto.
Qed.

Lemma _invert_move_undoes (s s1 : ndarray.t) (m m' : string) :
  length s = 54 -> In m off_front -> _invert_move m = Ok m' ->
  apply_move s m = Ok s1 -> apply_move s1 m' = Ok s.
Proof.
  intros Hlen Hin Hinv Hs1.
  assert (apply_moves s [m; m'] = Ok s) as Hboth.
  { clear Hs1. explode s Hlen. clear Hlen. vm_compute in Hin.
    repeat (destruct Hin as [<-|Hin];
      [vm_compute in Hinv; injection Hinv as <-; vm_compute; reflexivity|]).
    destruct Hin. }
  cbn [apply_moves] in Hboth. rewrite Hs1 in Hboth. cbn [rbind] in Hboth.
  by destruct (apply_move s1 m').
Qed.

Lemma _invert_moves_undo (moves inv : list string) (s s' : ndarray.t) :
  Forall (fun m => In m off_front) moves ->
  Forall2 (fun m m' => _invert_move m = Ok m') (rev moves) inv ->
  length s = 54 -> apply_moves s moves = Ok s' -> apply_moves s' inv = Ok s.
Proof.
  intros Hoff. revert inv s. induction Hoff as [|m moves Hm Hoff IH]; intros inv s Hinv Hlen.
  - cbn [rev] in Hinv. inversion Hinv; subst. cbn [apply_moves]. by intros [= ->].
  - cbn [rev] in Hinv. apply Forall2_app_inv_l in Hinv as (inv1 & inv2 & H1 & H2 & ->).
    inversion H2 as [|? m' ? ? Hm' H2']; subst. inversion H2'; subst.
    cbn [apply_moves].
    assert (In m get_all_moves) as Hvalid by (vm_compute in Hm |- *; tauto).
    destruct (apply_move_Ok s m Hvalid Hlen) as (s1 & Hs1 & _ & Hlen1).
    rewrite Hs1. cbn [rbind]. intros Hrest.
    rewrite apply_moves_app, (IH inv1 s1 H1 Hlen1 Hrest). cbn [rbind apply_moves].
    rewrite (_invert_move_undoes s s1 m m' Hlen Hm Hm' Hs1). done.
Qed.

(** X17: on a sequence over the 18-move vocabulary [_invert_sequence] returns
    a sequence over the vocabulary of the same length, and inverting that
    gives the sequence back. If the sequence has no move of the Front face,
    its inversion undoes it: from the array the sequence led to, the
    inversion leads back to the 54-label array it started from. *)
Theorem invert_sequence_on_vocabulary (moves : list string) :
  valid_moves moves ->
  exists inv, _invert_sequence moves = Ok inv /\ valid_moves inv /\
    length inv = length moves /\ _invert_sequence inv = Ok moves /\
    (Forall (fun m => In m off_front) moves ->
     forall s s', length s = 54 -> apply_moves s moves = Ok s' ->
                  apply_moves s' inv = Ok s).
Proof.
  intros Hvalid.
  assert (valid_moves (rev moves)) as Hrev by by apply Forall_rev.
  destruct (_invert_moves_vocabulary (rev moves) Hrev) as (inv & H1 & H2 & H3 & _).
  exists inv. unfold _invert_sequence.
  split; [by rewrite (_invert_loop_Forall2 _ inv)|]. split; [done|].
  split; [by rewrite <- (Forall2_length _ _ _ H1), length_rev|]. split.
  - rewrite (_invert_loop_Forall2 (rev inv) moves); [done|].
    rewrite <- (rev_involutive moves). by apply Forall2_reverse.
  - intros Hoff s s'. by apply _invert_moves_undo.
Qed.

Lemma invert_sequence_on_vocabulary_witness :
  exists inv, _invert_sequence ["R"; "U2"; "B'"] = Ok inv /\ valid_moves inv /\
    length inv = length ["R"; "U2"; "B'"] /\ _invert_sequence inv = Ok ["R"; "U2"; "B'"] /\
    (Forall (fun m => In m off_front) ["R"; "U2"; "B'"] ->
     forall s s', length s = 54 -> apply_moves s ["R"; "U2"; "B'"] = Ok s' ->
                  apply_moves s' inv = Ok s).
Proof.
  apply (invert_sequence_on_vocabulary ["R"; "U2"; "B'"]).
  apply check_valid_sound. reflexivity.
Defined.

End InvertFacts.

Section CountFacts.
Import ndarray AStarSolver.

Lemma count_fold (p : nat -> bool) (l : list nat) (acc : Z) :
  (acc <= fold_left (fun n i => if p i then (n + 1)%Z else n) l acc
       <= acc + Z.of_nat (length l))%Z /\
  (fold_left (fun n i => if p i then (n + 1)%Z else n) l acc
   = (acc + Z.of_nat (length l))%Z <-> forall i, In i l -> p i = true).
Proof.
  revert acc. induction l as [|x l IH]; intros acc; cbn [fold_left length].
  - split; [lia|]. split; [by intros _ i []|lia].
  - destruct (IH (if p x then (acc + 1)%Z else acc)) as [Hb Hiff].
    destruct (p x) eqn:Hx.
    + split; [lia|]. split.
      * intros Heq i [<-|Hi]; [done|]. apply Hiff; [lia|done].
      * intros Hall. etrans; [apply Hiff; intros i Hi; apply Hall; by right|]. lia.
    + split; [lia|]. split; [lia|].
      intros Hall. specialize (Hall x (or_introl eq_refl)). congruence.
Qed.

(** X18: [_count_correct_pieces] on a cube of 54 labels returns a count
    between 0 and 54, which is 54 exactly when the cube is solved; the call
    allocates one solved cube and changes nothing else. *)
Theorem count_correct_pieces_full_iff_solved (w : world) (cube : ref) (c : RubikCube.t) :
  cubes w !! cube = Some c -> length (RubikCube.state c) = 54 ->
  exists n, _count_correct_pieces cube w = (Ok n, push w solved_cube) /\
            (0 <= n <= 54)%Z /\ (n = 54%Z <-> RubikCube.is_solved c = true).
Proof.
  intros Hc Hlen. rewrite (_count_correct_pieces_eq w cube c Hc).
  eexists. split; [done|]. unfold _count_correct.
  change (length RubikCube._create_solved_state) with 54. rewrite Hlen.
  cbn [Nat.ltb Nat.leb]. change (54 <? 54) with false. cbv iota.
  destruct (count_fold
              (fun i => (get (RubikCube.state c) i =? get RubikCube._create_solved_state i)%Z)
              (seq 0 54) 0%Z) as [Hb Hiff].
  rewrite length_seq in Hb, Hiff. split; [lia|].
  unfold RubikCube.is_solved. rewrite array_equal_eq.
  etrans; [apply Hiff|]. split.
  - intros Hall. apply nth_ext with (d := 0%Z) (d' := 0%Z); [by rewrite Hlen|].
    intros i Hi. apply Z.eqb_eq, Hall, in_seq. lia.
  - intros Heq i _. rewrite Heq. apply Z.eqb_refl.
Qed.

Lemma count_correct_pieces_full_iff_solved_witness :
  exists n, _count_correct_pieces 0 {| cubes := [cube_after_U];
                                       statistics := used_statistics |}
            = (Ok n, push {| cubes := [cube_after_U]; statistics := used_statistics |}
                          solved_cube) /\
            (0 <= n <= 54)%Z /\ (n = 54%Z <-> RubikCube.is_solved cube_after_U = true).
Proof.
  apply (count_correct_pieces_full_iff_solved
           {| cubes := [cube_after_U]; statistics := used_statistics |} 0 cube_after_U);
    reflexivity.
Defined.

End CountFacts.

Section ValidMovesFacts.
Import AStarSolver.

Lemma valid_moves_loop_last_two (moves moves' : list string) last_move last_face
    candidates acc :
  (2 <=? length moves) = (2 <=? length moves') ->
  skipn (length moves - 2) moves = skipn (length moves' - 2) moves' ->
  valid_moves_loop moves last_move last_face candidates acc
  = valid_moves_loop moves' last_move last_face candidates acc.
Proof.
  intros H1 H2. revert acc.
  induction candidates as [|m candidates IH]; intros acc; cbn [valid_moves_loop]; [done|].
  rewrite H1, H2. destruct (pystr.index0 m) as [e|f]; cbn [rbind]; [done|].
  rewrite !IH. done.
Qed.

Lemma _get_valid_moves_nonempty (moves : list string) :
  moves <> [] ->
  _get_valid_moves moves
  = rbind (pystr.index0 (List.last moves ""))
          (fun last_face => valid_moves_loop moves (List.last moves "") last_face all_moves []).
Proof. by destruct moves. Qed.

Lemma _get_valid_moves_last_two (pre : list string) (b a : string) :
  _get_valid_moves (pre ++ [b; a]) = _get_valid_moves [b; a].
Proof.
  rewrite !_get_valid_moves_nonempty by (by destruct pre).
  assert (List.last (pre ++ [b; a]) "" = a) as ->.
  { change [b; a] with ([b] ++ [a]). rewrite app_assoc. apply last_last. }
  cbn [List.last].
  destruct (pystr.index0 a) as [e|last_face]; cbn [rbind]; [done|].
  apply valid_moves_loop_last_two.
  - rewrite length_app. cbn [length].
    by replace (length pre + 2) with (S (S (length pre))) by lia.
  - rewrite length_app. cbn [length].
    replace (length pre + 2 - 2) with (length pre) by lia.
    cbn [Nat.sub skipn]. by rewrite drop_app_length.
Qed.

Lemma last_two_cases {A} (l : list A) :
  l = [] \/ (exists a, l = [a]) \/ exists pre b a, l = pre ++ [b; a].
Proof.
  destruct (rev l) as [|a [|b r]] eqn:Hrev.
  - left. by rewrite <- (rev_involutive l), Hrev.
  - right. left. exists a. by rewrite <- (rev_involutive l), Hrev.
  - right. right. exists (rev r), b, a.
    rewrite <- (rev_involutive l), Hrev. cbn [rev]. by rewrite <- app_assoc.
Qed.

Lemma all_moves_vocabulary (m : string) : In m MoveEngine.get_all_moves -> In m all_moves.
Proof. vm_compute. tauto. Qed.

Lemma _get_valid_moves_filter (moves : list string) :
  valid_moves moves ->
  _get_valid_moves moves
  = Ok (List.filter (fun m => negb (existsb (String.eqb (face m))
                                      (map face (skipn (length moves - 2) moves))))
                    all_moves).
Proof.
  intros Hvalid.
  assert (forallb (fun b => forallb (fun a =>
            match _get_valid_moves [b; a] with
            | inr l =>
                if List.list_eq_dec string_dec l
                     (List.filter (fun m => negb (existsb (String.eqb (face m))
                                                    (map face [b; a]))) all_moves)
                then true else false
            | inl _ => false
            end) all_moves) all_moves = true) as Htwo by (vm_compute; reflexivity).
  assert (forallb (fun a =>
            match _get_valid_moves [a] with
            | inr l =>
                if List.list_eq_dec string_dec l
                     (List.filter (fun m => negb (existsb (String.eqb (face m))
                                                    (map face [a]))) all_moves)
                then true else false
            | inl _ => false
            end) all_moves = true) as Hone by (vm_compute; reflexivity).
  destruct (last_two_cases moves) as [->|[[a ->]|(pre & b & a & ->)]].
  - reflexivity.
  - inversion Hvalid as [|? ? Ha _]; subst.
    rewrite forallb_forall in Hone. specialize (Hone a (all_moves_vocabulary a Ha)).
    cbn [length Nat.sub skipn].
    destruct (_get_valid_moves [a]) as [e|l]; [done|].
    by destruct (List.list_eq_dec string_dec l _) as [->|].
  - rewrite _get_valid_moves_last_two.
    rewrite length_app. cbn [length].
    replace (length pre + 2 - 2) with (length pre) by lia.
    rewrite drop_app_length.
    apply Forall_app in Hvalid as [_ Hba].
    inversion Hba as [|? ? Hb Ha']; subst. inversion Ha' as [|? ? Ha _]; subst.
    rewrite forallb_forall in Htwo. specialize (Htwo b (all_moves_vocabulary b Hb)).
    rewrite forallb_forall in Htwo. specialize (Htwo a (all_moves_vocabulary a Ha)).
    destruct (_get_valid_moves [b; a]) as [e|l]; [done|].
    by destruct (List.list_eq_dec string_dec l _) as [->|].
Qed.

(** X19: for a path over the 18-move vocabulary, [_get_valid_moves] returns
    the moves of [all_moves], in order, whose face letter differs from the
    face letters of the last two moves of the path (of the last move when
    the path has one move; all 18 moves for the empty path). *)
Theorem get_valid_moves_excludes_last_two_faces (moves : list string) :
  valid_moves moves ->
  exists valid,
    _get_valid_moves moves = Ok valid /\
    valid = List.filter (fun m => negb (existsb (String.eqb (face m))
                                     (map face (skipn (length moves - 2) moves))))
                   all_moves /\
    valid_moves valid /\
    (forall m, In m valid ->
       forall m', In m' (skipn (length moves - 2) moves) -> face m <> face m').
Proof.
  intros Hvalid. eexists. split; [by apply _get_valid_moves_filter|]. split; [done|].
  split.
  - apply List.Forall_forall. intros m [Hm _]%filter_In. exact Hm.
  - intros m [_ Hm]%filter_In m' Hm' Heq.
    apply negb_true_iff in Hm. apply not_true_iff_false in Hm. apply Hm.
    apply existsb_exists. exists (face m'). split; [by apply in_map|].
    by apply String.eqb_eq.
Qed.

Lemma get_valid_moves_excludes_last_two_faces_witness :
  exists valid,
    _get_valid_moves ["R"; "U"] = Ok valid /\
    valid = List.filter (fun m => negb (existsb (String.eqb (face m))
                                     (map face (skipn (length ["R"; "U"] - 2) ["R"; "U"]))))
                   all_moves /\
    valid_moves valid /\
    (forall m, In m valid ->
       forall m', In m' (skipn (length ["R"; "U"] - 2) ["R"; "U"]) -> face m <> face m').
Proof.
  apply (get_valid_moves_excludes_last_two_faces ["R"; "U"]).
  apply check_valid_sound. reflexivity.
Defined.

End ValidMovesFacts.

Section DeepeningFacts.
Import AStarSolver.

Lemma _get_valid_moves_Ok (moves : list string) :
  valid_moves moves -> exists valid, _get_valid_moves moves = Ok valid /\ valid_moves valid.
Proof.
  intros Hvalid. rewrite (_get_valid_moves_filter moves Hvalid). eexists. split; [done|].
  apply List.Forall_forall. intros m [Hm _]%filter_In. vm_compute in Hm |- *. tauto.
Qed.

(** A loop whose body may return: when every run of the body only allocates
    and returns values satisfying [P], so does the loop. *)
Lemma first_return_sound {X R} (body : X -> M (option R)) (P : R -> Prop)
    (xs : list X) (w : world) :
  (forall x w1, In x xs -> extends w w1 ->
     exists v w2, body x w1 = (Ok v, w2) /\ extends w1 w2 /\ forall r, v = Some r -> P r) ->
  exists v w', first_return body xs w = (Ok v, w') /\ extends w w' /\
               forall r, v = Some r -> P r.
Proof.
  revert w. induction xs as [|x xs IH]; intros w Hbody; cbn [first_return].
  - exists None, w. split; [done|]. split; [apply extends_refl|done].
  - destruct (Hbody x w (or_introl eq_refl) (extends_refl w)) as (v & w1 & Hrun & Hext & HP).
    rewrite (bind_ok _ _ _ _ _ Hrun). destruct v as [r|].
    + exists (Some r), w1. split; [done|]. split; [done|]. done.
    + destruct (IH w1) as (v & w' & Hrun' & Hext' & HP').
      { intros y w2 Hy Hw2. apply Hbody; [by right|]. by eapply extends_trans. }
      exists v, w'. split; [done|]. split; [by eapply extends_trans|done].
Qed.

Lemma _depth_limited_search_spec (depth : nat) :
  forall (w : world) (cube : ref) (c : RubikCube.t) (moves : list string),
  cubes w !! cube = Some c -> length (RubikCube.state c) = 54 -> valid_moves moves ->
  exists v w', _depth_limited_search depth cube moves w = (Ok v, w') /\ extends w w' /\
    (RubikCube.is_solved c = true -> v = Some moves /\ w' = w) /\
    (forall path, v = Some path ->
       exists suffix, path = moves ++ suffix /\ length suffix <= depth /\
                      valid_moves suffix /\
                      apply_moves (RubikCube.state c) suffix
                      = Ok RubikCube._create_solved_state).
Proof.
  induction depth as [|depth IH]; intros w cube c moves Hc Hlen Hmoves.
  - cbn [_depth_limited_search]. rewrite (bind_ok _ _ _ _ _ (is_solved_eq cube w c Hc)).
    destruct (RubikCube.is_solved c) eqn:Hsolved.
    + exists (Some moves), w. split; [done|]. split; [apply extends_refl|]. split; [done|].
      intros path [= <-]. exists []. rewrite app_nil_r. split; [done|]. split; [done|].
      split; [constructor|]. cbn [apply_moves]. f_equal. by apply array_equal_eq.
    + exists None, w. split; [done|]. split; [apply extends_refl|]. done.
  - cbn [_depth_limited_search]. rewrite (bind_ok _ _ _ _ _ (is_solved_eq cube w c Hc)).
    destruct (RubikCube.is_solved c) eqn:Hsolved.
    + exists (Some moves), w. split; [done|]. split; [apply extends_refl|]. split; [done|].
      intros path [= <-]. exists []. rewrite app_nil_r. split; [done|].
      split; [cbn [length]; lia|].
      split; [constructor|]. cbn [apply_moves]. f_equal. by apply array_equal_eq.
    + destruct (_get_valid_moves_Ok moves Hmoves) as (valid & Hvalid & Hvocab).
      rewrite Hvalid. cbn [lift].
      assert (forall k : list string -> M (option (list string)),
                bind (ret valid) k w = k valid w) as -> by done.
      destruct (first_return_sound
                  (fun move =>
                     let* new_cube := copy cube in
                     let* _ := execute_move new_cube move in
                     _depth_limited_search depth new_cube (moves ++ [move]))
                  (fun path => exists suffix, path = moves ++ suffix /\
                     length suffix <= S depth /\ valid_moves suffix /\
                     apply_moves (RubikCube.state c) suffix
                     = Ok RubikCube._create_solved_state)
                  valid w) as (v & w' & Hrun & Hext & HP).
      { intros move w1 Hmove Hw1.
        assert (In move MoveEngine.get_all_moves) as Hvoc.
        { unfold valid_moves in Hvocab. rewrite List.Forall_forall in Hvocab. by apply Hvocab. }
        pose proof (extends_lookup _ _ _ _ Hw1 Hc) as Hc1.
        rewrite (bind_ok _ _ _ _ _ (copy_eq cube w1 c Hc1 Hlen)).
        destruct (execute_move_eq (length (cubes w1)) (push w1 (copied c)) (copied c) move
                    (lookup_push _ _) Hvoc) as (s' & Hs' & Hexec).
        rewrite set_cube_push in Hexec. rewrite (bind_ok _ _ _ _ _ Hexec).
        cbn [copied RubikCube.state] in Hs'.
        destruct (apply_move_Ok (RubikCube.state c) move Hvoc Hlen) as (s1 & Hs1 & _ & Hlen1).
        assert (s1 = s') as -> by congruence.
        set (c' := {| RubikCube.state := s';
                      RubikCube.move_history := RubikCube.move_history (copied c) ++ [move];
                      RubikCube.move_count := (RubikCube.move_count (copied c) + 1)%Z |}).
        destruct (IH (push w1 c') (length (cubes w1)) c' (moves ++ [move])
                    (lookup_push _ _) Hlen1) as (v & w2 & Hrun & Hext & _ & Hpath).
        { apply Forall_app. split; [done|]. by constructor. }
        exists v, w2. split; [done|].
        split; [eapply extends_trans; [apply extends_push|done]|].
        intros path Hv. destruct (Hpath path Hv) as (suffix & -> & Hle & Hsuf & Happ).
        exists (move :: suffix). split; [by rewrite <- app_assoc|].
        split; [cbn [length]; lia|]. split; [by constructor|].
        cbn [apply_moves]. rewrite Hs'. done. }
      exists v, w'. split; [done|]. split; [done|]. split; [done|]. done.
Qed.

(** X20: on a cube of 54 labels and a path over the vocabulary, for a depth
    of at most 500 (each level is one nested call, and 500 of them stay
    inside the interpreter's default limit of 1000), [_depth_limited_search]
    returns without raising and leaves the caller's objects as they are
    (cubes are only allocated). A returned list is the path given followed
    by at most [depth] moves of the vocabulary that take the cube's state to
    the solved state; on a solved cube it is the path given and nothing is
    allocated. *)
Theorem depth_limited_search_sound (depth : nat) (w : world) (cube : ref)
    (c : RubikCube.t) (moves : list string) :
  depth <= 500 ->
  cubes w !! cube = Some c -> length (RubikCube.state c) = 54 -> valid_moves moves ->
  exists v w', _depth_limited_search depth cube moves w = (Ok v, w') /\ extends w w' /\
    (RubikCube.is_solved c = true -> v = Some moves /\ w' = w) /\
    (forall path, v = Some path ->
       exists suffix, path = moves ++ suffix /\ length suffix <= depth /\
                      valid_moves suffix /\
                      apply_moves (RubikCube.state c) suffix
                      = Ok RubikCube._create_solved_state).
Proof. intros _. apply _depth_limited_search_spec. Qed.

Section Loop.
Variable too_long : nat -> bool.

Lemma deepening_loop_spec (remaining : nat) :
  forall (depth : nat) (w : world) (cube : ref) (c : RubikCube.t),
  cubes w !! cube = Some c -> length (RubikCube.state c) = 54 ->
  exists v w', deepening_loop too_long remaining depth cube w = (Ok v, w') /\
    extends w w' /\
    (RubikCube.is_solved c = true -> 0 < remaining -> v = Some (Some (Ok [])) /\ w' = w) /\
    (forall r, v = Some r ->
       exists path out,
         valid_moves path /\ length path < depth + remaining /\
         apply_moves (RubikCube.state c) path = Ok RubikCube._create_solved_state /\
         MoveOptimizer.optimize_sequence path = Some (Ok out) /\ r = Some (Ok out) /\
         length out <= length path).
Proof.
  induction remaining as [|remaining IH]; intros depth w cube c Hc Hlen.
  - exists None, w. split; [done|]. split; [apply extends_refl|]. split; [lia|done].
  - cbn [deepening_loop].
    destruct (_depth_limited_search_spec depth w cube c [] Hc Hlen)
      as (v & w1 & Hrun & Hext & Hsolved & Hpath); [constructor|].
    rewrite (bind_ok _ _ _ _ _ Hrun). destruct v as [path|].
    + destruct (Hpath path eq_refl) as (suffix & -> & Hle & Hvalid & Happ).
      cbn [app] in *.
      destruct (optimize_sequence_vocabulary suffix Hvalid) as (out & Hout & Hlen').
      exists (Some (MoveOptimizer.optimize_sequence suffix)), w1.
      split; [done|]. split; [done|]. split.
      * intros Hs _. destruct (Hsolved Hs) as [[= ->] ->]. done.
      * intros r [= <-]. exists suffix, out. repeat split; try done. lia.
    + destruct (too_long depth).
      * exists None, w1. split; [done|]. split; [done|]. split; [|done].
        intros Hs _. by destruct (Hsolved Hs).
      * destruct (IH (S depth) w1 cube c (extends_lookup _ _ _ _ Hext Hc) Hlen)
          as (v & w' & Hrun' & Hext' & _ & Hr).
        exists v, w'. split; [done|]. split; [by eapply extends_trans|]. split.
        { intros Hs _. by destruct (Hsolved Hs). }
        intros r Hv. destruct (Hr r Hv) as (path & out & H1 & H2 & H3).
        exists path, out. split; [done|]. split; [lia|done].
Qed.

(** X21: on a cube of 54 labels [solve_iterative_deepening] returns without
    raising and leaves the caller's objects as they are. A result other than
    [None] is what [optimize_sequence] makes of a path of at most
    [max_depth] vocabulary moves that takes the cube's state to the solved
    state, and is no longer than that path; on a solved cube, with
    [max_depth] at least 1, the result is the empty list. *)
Theorem solve_iterative_deepening_sound (max_depth : nat) (w : world) (cube : ref)
    (c : RubikCube.t) :
  cubes w !! cube = Some c -> length (RubikCube.state c) = 54 ->
  exists v w', solve_iterative_deepening too_long max_depth cube w = (Ok v, w') /\
    extends w w' /\
    (RubikCube.is_solved c = true -> 0 < max_depth -> v = Some (Some (Ok [])) /\ w' = w) /\
    (forall r, v = Some r ->
       exists path out,
         valid_moves path /\ length path <= max_depth /\
         apply_moves (RubikCube.state c) path = Ok RubikCube._create_solved_state /\
         MoveOptimizer.optimize_sequence path = Some (Ok out) /\ r = Some (Ok out) /\
         length out <= length path).
Proof.
  intros Hc Hlen. unfold solve_iterative_deepening.
  destruct (deepening_loop_spec max_depth 1 w cube c Hc Hlen)
    as (v & w' & Hrun & Hext & Hsolved & Hr).
  exists v, w'. split; [done|]. split; [done|]. split; [done|].
  intros r Hv. destruct (Hr r Hv) as (path & out & H1 & H2 & H3).
  exists path, out. split; [done|]. split; [lia|done].
Qed.

End Loop.

Lemma depth_limited_search_sound_witness :
  let w := {| cubes := [cube_after_U]; statistics := used_statistics |} in
  exists v w', _depth_limited_search 1 0 [] w = (Ok v, w') /\ extends w w' /\
    (RubikCube.is_solved cube_after_U = true -> v = Some [] /\ w' = w) /\
    (forall path, v = Some path ->
       exists suffix, path = [] ++ suffix /\ length suffix <= 1 /\
                      valid_moves suffix /\
                      apply_moves (RubikCube.state cube_after_U) suffix
                      = Ok RubikCube._create_solved_state).
Proof.
  intros w.
  apply (depth_limited_search_sound 1 w 0 cube_after_U []);
    [lia|reflexivity|reflexivity|].
  constructor.
Defined.

Lemma solve_iterative_deepening_sound_witness :
  let w := {| cubes := [cube_after_U]; statistics := used_statistics |} in
  exists v w', solve_iterative_deepening (fun _ => false) 2 0 w = (Ok v, w') /\
    extends w w' /\
    (RubikCube.is_solved cube_after_U = true -> 0 < 2 -> v = Some (Some (Ok [])) /\ w' = w) /\
    (forall r, v = Some r ->
       exists path out,
         valid_moves path /\ length path <= 2 /\
         apply_moves (RubikCube.state cube_after_U) path
         = Ok RubikCube._create_solved_state /\
         MoveOptimizer.optimize_sequence path = Some (Ok out) /\ r = Some (Ok out) /\
         length out <= length path).
Proof.
  intros w.
  apply (solve_iterative_deepening_sound (fun _ => false) 2 w 0 cube_after_U); reflexivity.
Defined.

End DeepeningFacts.

Section ReverseFacts.
Import AStarSolver.

Lemma _invert_sequence_undoes (moves p : list string) (s s' : ndarray.t) :
  Forall (fun m => In m off_front) moves -> _invert_sequence moves = Ok p ->
  length s = 54 -> apply_moves s moves = Ok s' -> apply_moves s' p = Ok s.
Proof.
  intros Hoff Hinv Hlen Happ.
  assert (valid_moves (rev moves)) as Hvalid.
  { apply Forall_rev. eapply Forall_impl; [exact Hoff|].
    intros m Hm. vm_compute in Hm |- *. tauto. }
  destruct (_invert_moves_vocabulary (rev moves) Hvalid) as (inv & H1 & _).
  unfold _invert_sequence in Hinv. rewrite (_invert_loop_Forall2 _ inv) in Hinv by done.
  injection Hinv as <-. by eapply _invert_moves_undo.
Qed.

Lemma test_moves_vocabulary (m : string) :
  In m test_moves <-> In m MoveEngine.get_all_moves.
Proof. vm_compute. tauto. Qed.

Lemma pure_reverse_try_Some (target : ndarray.t) (moves p : list string) :
  valid_moves moves -> Pure.reverse_try target moves = Ok (Some p) ->
  has_reversal moves = false /\
  apply_moves RubikCube._create_solved_state moves = Ok target /\
  _invert_sequence moves = Ok p.
Proof.
  intros Hvalid. unfold Pure.reverse_try.
  destruct (has_reversal moves); [done|].
  cbn [RubikCube.__init__ rbind].
  destruct (execute_sequence_valid
              {| RubikCube.state := RubikCube._create_solved_state;
                 RubikCube.move_history := []; RubikCube.move_count := 0 |}
              moves Hvalid) as (s' & Hs' & ->).
  cbn [RubikCube.state] in *.
  destruct (ndarray.array_equal s' target) eqn:Heq; [|done].
  apply array_equal_eq in Heq. subst s'.
  destruct (_invert_sequence moves) as [e|inv]; cbn [rbind]; [done|].
  by intros [= <-].
Qed.

Lemma pure_reverse_try_None (target : ndarray.t) (moves : list string) :
  valid_moves moves -> Pure.reverse_try target moves = Ok None ->
  has_reversal moves = false ->
  apply_moves RubikCube._create_solved_state moves <> Ok target.
Proof.
  intros Hvalid. unfold Pure.reverse_try. intros Htry Hrev. rewrite Hrev in Htry.
  cbn [RubikCube.__init__ rbind] in Htry.
  destruct (execute_sequence_valid
              {| RubikCube.state := RubikCube._create_solved_state;
                 RubikCube.move_history := []; RubikCube.move_count := 0 |}
              moves Hvalid) as (s' & Hs' & Hexec).
  rewrite Hexec in Htry. cbn [RubikCube.state] in *.
  rewrite Hs'. intros [= ->].
  assert (ndarray.array_equal target target = true) as Heq by by apply array_equal_eq.
  rewrite Heq in Htry.
  unfold _invert_sequence in Htry.
  by destruct (_invert_loop_ok (rev moves) []) as [inv Hinv]; rewrite Hinv in Htry.
Qed.

Lemma pure_first_return_Some {X R} (body : X -> result (option R)) (xs : list X) (v : R) :
  Pure.first_return body xs = Ok (Some v) -> exists x, In x xs /\ body x = Ok (Some v).
Proof.
  induction xs as [|x xs IH]; cbn [Pure.first_return]; [done|].
  destruct (body x) as [e|[r|]] eqn:Hx; [done| |].
  - intros [= ->]. exists x. split; [by left|done].
  - intros (y & Hy & Hbody)%IH. exists y. split; [by right|done].
Qed.

Lemma pure_first_return_None {X R} (body : X -> result (option R)) (xs : list X) :
  Pure.first_return body xs = Ok None -> forall x, In x xs -> body x = Ok None.
Proof.
  induction xs as [|x xs IH]; cbn [Pure.first_return]; [by intros _ y []|].
  destruct (body x) as [e|[r|]] eqn:Hx; [done|done|].
  intros Hrest y [<-|Hy]; [done|by apply IH].
Qed.

Lemma pure_for_product_Some {R} (body : list string -> result (option R))
    (pool : list string) (n : nat) :
  forall prefix v, Pure.for_product body pool n prefix = Ok (Some v) ->
  exists ms, length ms = n /\ Forall (fun m => In m pool) ms /\
             body (prefix ++ ms) = Ok (Some v).
Proof.
  induction n as [|n IH]; intros prefix v; cbn [Pure.for_product].
  - intros Hbody. exists []. rewrite app_nil_r. by repeat split.
  - intros (m & Hm & Hrest)%pure_first_return_Some.
    destruct (IH _ _ Hrest) as (ms & Hlen & Hpool & Hbody).
    exists (m :: ms). rewrite <- app_assoc in Hbody.
    split; [by cbn [length]; rewrite Hlen|]. split; [by constructor|done].
Qed.

Lemma pure_for_product_None {R} (body : list string -> result (option R))
    (pool : list string) (n : nat) :
  forall prefix, Pure.for_product body pool n prefix = Ok None ->
  forall ms, length ms = n -> Forall (fun m => In m pool) ms ->
             body (prefix ++ ms) = Ok None.
Proof.
  induction n as [|n IH]; intros prefix; cbn [Pure.for_product].
  - intros Hbody [|m ms]; [|done]. intros _ _. by rewrite app_nil_r.
  - intros Hall [|m ms]; [done|]. intros [= Hlen] Hpool.
    inversion Hpool as [|? ? Hm Hms]; subst.
    pose proof (pure_first_return_None _ _ Hall m Hm) as Hrest.
    specialize (IH _ Hrest ms eq_refl Hms). by rewrite <- app_assoc in IH.
Qed.

Lemma pure_reverse_solve_Some (target : ndarray.t) (p : list string) :
  Pure._reverse_solve target = Ok (Some p) ->
  exists moves, 1 <= length moves <= 8 /\ valid_moves moves /\
    has_reversal moves = false /\
    apply_moves RubikCube._create_solved_state moves = Ok target /\
    _invert_sequence moves = Ok p.
Proof.
  unfold Pure._reverse_solve.
  intros (n & Hn & Hprod)%pure_first_return_Some.
  apply pure_for_product_Some in Hprod as (ms & Hlen & Hpool & Htry).
  cbn [app] in Htry. apply in_seq in Hn.
  assert (valid_moves ms) as Hvalid.
  { eapply Forall_impl; [exact Hpool|]. intros m. apply test_moves_vocabulary. }
  exists ms. split; [lia|]. split; [done|]. by apply pure_reverse_try_Some.
Qed.

Lemma pure_reverse_solve_None (target : ndarray.t) (moves : list string) :
  Pure._reverse_solve target = Ok None ->
  1 <= length moves <= 8 -> valid_moves moves -> has_reversal moves = false ->
  apply_moves RubikCube._create_solved_state moves <> Ok target.
Proof.
  unfold Pure._reverse_solve. intros Hnone Hlen Hvalid Hrev.
  pose proof (pure_first_return_None _ _ Hnone (length moves)
                ltac:(apply in_seq; lia)) as Hprod.
  pose proof (pure_for_product_None _ _ _ _ Hprod moves eq_refl) as Htry.
  cbn [app] in Htry. apply pure_reverse_try_None; [done| |done].
  apply Htry. eapply Forall_impl; [exact Hvalid|]. intros m. apply test_moves_vocabulary.
Qed.

(** X22: [_reverse_solve] returns without raising and only allocates. It
    returns a list exactly when some sequence of 1 to 8 vocabulary moves
    without a move followed by its opposite takes the solved state to the
    cube's state; the list is then [_invert_sequence] of such a sequence,
    and it takes the cube's state to the solved state when that sequence has
    no move of the Front face. *)
Theorem reverse_solve_characterised (w : world) (cube : ref) (c : RubikCube.t) :
  cubes w !! cube = Some c ->
  exists v w', _reverse_solve cube w = (Ok v, w') /\ extends w w' /\
    match v with
    | Some p =>
        exists moves, 1 <= length moves <= 8 /\ valid_moves moves /\
          has_reversal moves = false /\
          apply_moves RubikCube._create_solved_state moves = Ok (RubikCube.state c) /\
          _invert_sequence moves = Ok p /\
          (Forall (fun m => In m off_front) moves ->
           apply_moves (RubikCube.state c) p = Ok RubikCube._create_solved_state)
    | None =>
        forall moves, 1 <= length moves <= 8 -> valid_moves moves ->
          has_reversal moves = false ->
          apply_moves RubikCube._create_solved_state moves <> Ok (RubikCube.state c)
    end.
Proof.
  intros Hc. destruct (_reverse_solve_refines w cube c Hc) as (w' & Hrun & Hext).
  destruct (pure_reverse_solve_ok (fun _ => 0%Z) (RubikCube.state c)) as [v Hv].
  exists v, w'. rewrite Hrun, Hv. split; [done|]. split; [done|].
  destruct v as [p|].
  - destruct (pure_reverse_solve_Some _ _ Hv) as (moves & H1 & H2 & H3 & H4 & H5).
    exists moves. do 5 (split; [done|]). intros Hoff.
    by apply (_invert_sequence_undoes moves p RubikCube._create_solved_state).
  - intros moves. by apply pure_reverse_solve_None.
Qed.

Lemma reverse_solve_characterised_witness :
  let w := {| cubes := [cube_after_U]; statistics := used_statistics |} in
  exists v w', _reverse_solve 0 w = (Ok v, w') /\ extends w w' /\
    match v with
    | Some p =>
        exists moves, 1 <= length moves <= 8 /\ valid_moves moves /\
          has_reversal moves = false /\
          apply_moves RubikCube._create_solved_state moves
          = Ok (RubikCube.state cube_after_U) /\
          _invert_sequence moves = Ok p /\
          (Forall (fun m => In m off_front) moves ->
           apply_moves (RubikCube.state cube_after_U) p = Ok RubikCube._create_solved_state)
    | None =>
        forall moves, 1 <= length moves <= 8 -> valid_moves moves ->
          has_reversal moves = false ->
          apply_moves RubikCube._create_solved_state moves
          <> Ok (RubikCube.state cube_after_U)
    end.
Proof.
  intros w. apply (reverse_solve_characterised w 0 cube_after_U). reflexivity.
Defined.

End ReverseFacts.

Section StrategyFacts.
Import AStarSolver.
Variable hash : list Z -> Z.

(** X23: on a cube of 54 labels [_fast_bfs] returns without raising and
    leaves the caller's objects as they are. A returned path is not empty,
    uses only the moves U, U', R, R', F, F', and takes the cube's state to
    the solved state. *)
Theorem fast_bfs_sound (w : world) (cube : ref) (c : RubikCube.t) :
  cubes w !! cube = Some c -> length (RubikCube.state c) = 54 ->
  exists v w', _fast_bfs hash cube w = (Ok v, w') /\ extends w w' /\
    cubes w' !! cube = Some c /\
    forall p, v = Some p ->
      p <> [] /\ Forall (fun m => In m ["U"; "U'"; "R"; "R'"; "F"; "F'"]) p /\
      apply_moves (RubikCube.state c) p = Ok RubikCube._create_solved_state.
Proof.
  intros Hc Hlen.
  destruct (_fast_bfs_spec hash w cube c Hc Hlen) as (v & w' & Hrun & Hext & Hsound).
  exists v, w'. split; [done|]. split; [done|].
  split; [by eapply extends_lookup|]. by intros p ->.
Qed.

(** X24: on a cube of 54 labels [_brute_force_solve] returns without raising
    and leaves the caller's objects as they are (it works on a copy). A
    returned list takes the cube's state to the solved state; on a solved
    cube it is the empty list. *)
Theorem brute_force_solve_sound (w : world) (cube : ref) (c : RubikCube.t) :
  cubes w !! cube = Some c -> length (RubikCube.state c) = 54 ->
  exists v w', _brute_force_solve cube w = (Ok v, w') /\ extends w w' /\
    cubes w' !! cube = Some c /\
    (forall p, v = Some p ->
       apply_moves (RubikCube.state c) p = Ok RubikCube._create_solved_state) /\
    (RubikCube.is_solved c = true -> v = Some []).
Proof.
  intros Hc Hlen.
  destruct (_brute_force_solve_spec w cube c Hc Hlen) as (v & w' & Hrun & Hext & Hsound).
  exists v, w'. split; [done|]. split; [done|].
  split; [by eapply extends_lookup|]. split; [by intros p ->|].
  intros Hsolved. unfold _brute_force_solve in Hrun.
  rewrite (bind_ok _ _ _ _ _ (copy_eq _ _ _ Hc Hlen)) in Hrun.
  cbn [brute_iterations] in Hrun.
  rewrite (bind_ok _ _ _ _ _ (is_solved_eq _ _ (copied c) (lookup_push w (copied c)))) in Hrun.
  change (RubikCube.is_solved (copied c)) with (RubikCube.is_solved c) in Hrun.
  rewrite Hsolved in Hrun. by injection Hrun as <- _.
Qed.

(** X25: for each of the three heuristic names, on a cube of 54 labels,
    [solve] returns without raising, leaves the caller's objects as they
    are, and returns the same result whichever of the three names is given.
    A returned list either takes the cube's state to the solved state, or is
    [_invert_sequence] of a sequence of 1 to 8 vocabulary moves, one of them
    a move of the Front face, that takes the solved state to the cube's
    state. *)
Theorem solve_answer (w : world) (cube : ref) (c : RubikCube.t) (heuristic_type : string) :
  cubes w !! cube = Some c -> length (RubikCube.state c) = 54 ->
  In heuristic_type valid_heuristics ->
  exists v w', solve hash cube heuristic_type w = (Ok v, w') /\ extends w w' /\
    cubes w' !! cube = Some c /\
    (forall other, In other valid_heuristics -> solve hash cube other w = (Ok v, w')) /\
    (forall p, v = Some p ->
       apply_moves (RubikCube.state c) p = Ok RubikCube._create_solved_state \/
       exists moves, 1 <= length moves <= 8 /\ valid_moves moves /\
         ~ Forall (fun m => In m off_front) moves /\
         apply_moves RubikCube._create_solved_state moves = Ok (RubikCube.state c) /\
         _invert_sequence moves = Ok p).
Proof.
  intros Hc Hlen Hname.
  destruct (solve_spec hash w cube c heuristic_type Hc Hlen Hname)
    as (v & w' & Hrun & Hext & _ & Hv).
  exists v, w'. split; [done|]. split; [done|]. split; [by eapply extends_lookup|]. split.
  - intros other Hother. rewrite <- Hrun. unfold solve.
    by rewrite (valid_heuristics_check _ Hname), (valid_heuristics_check _ Hother).
  - intros p Hp. destruct (Hv p Hp) as [Hsolves|Hrev]; [by left|].
    destruct (pure_reverse_solve_Some _ _ Hrev) as (moves & H1 & H2 & H3 & H4 & H5).
    destruct (List.Forall_dec (fun m => In m off_front)
                (fun m => in_dec string_dec m off_front) moves) as [Hoff|Hfront].
    + left. by apply (_invert_sequence_undoes moves p RubikCube._create_solved_state).
    + right. exists moves. split; [done|]. split; [done|]. split; [done|]. by split.
Qed.

End StrategyFacts.

Lemma fast_bfs_sound_witness :
  let w := {| cubes := [cube_after_U]; statistics := used_statistics |} in
  exists v w', AStarSolver._fast_bfs (fun _ => 0%Z) 0 w = (Ok v, w') /\ extends w w' /\
    cubes w' !! 0 = Some cube_after_U /\
    forall p, v = Some p ->
      p <> [] /\ Forall (fun m => In m ["U"; "U'"; "R"; "R'"; "F"; "F'"]) p /\
      apply_moves (RubikCube.state cube_after_U) p = Ok RubikCube._create_solved_state.
Proof.
  intros w. apply (fast_bfs_sound (fun _ => 0%Z) w 0 cube_after_U); reflexivity.
Defined.

Lemma brute_force_solve_sound_witness :
  let w := {| cubes := [cube_after_U]; statistics := used_statistics |} in
  exists v w', AStarSolver._brute_force_solve 0 w = (Ok v, w') /\ extends w w' /\
    cubes w' !! 0 = Some cube_after_U /\
    (forall p, v = Some p ->
       apply_moves (RubikCube.state cube_after_U) p = Ok RubikCube._create_solved_state) /\
    (RubikCube.is_solved cube_after_U = true -> v = Some []).
Proof.
  intros w. apply (brute_force_solve_sound w 0 cube_after_U); reflexivity.
Defined.

Lemma solve_answer_witness :
  let w := {| cubes := [cube_after_U]; statistics := used_statistics |} in
  exists v w', AStarSolver.solve (fun _ => 0%Z) 0 "manhattan" w = (Ok v, w') /\
    extends w w' /\ cubes w' !! 0 = Some cube_after_U /\
    (forall other, In other AStarSolver.valid_heuristics ->
                   AStarSolver.solve (fun _ => 0%Z) 0 other w = (Ok v, w')) /\
    (forall p, v = Some p ->
       apply_moves (RubikCube.state cube_after_U) p = Ok RubikCube._create_solved_state \/
       exists moves, 1 <= length moves <= 8 /\ valid_moves moves /\
         ~ Forall (fun m => In m off_front) moves /\
         apply_moves RubikCube._create_solved_state moves
         = Ok (RubikCube.state cube_after_U) /\
         AStarSolver._invert_sequence moves = Ok p).
Proof.
  intros w. apply (solve_answer (fun _ => 0%Z) w 0 cube_after_U "manhattan").
  - reflexivity.
  - reflexivity.
  - vm_compute. tauto.
Defined.

(** * Equality and hashing of cubes *)

Section EqualityFacts.
Variable hash : string -> Z.

(** X26: for two cubes whose labels are single digits (0 to 9, as the six
    colors are), [__eq__] holds exactly when their state strings are equal,
    and cubes that are equal have equal [__hash__]. *)
Theorem eq_iff_same_state_string (a b : RubikCube.t) :
  Forall (fun x => 0 <= x <= 9)%Z (RubikCube.state a) ->
  Forall (fun x => 0 <= x <= 9)%Z (RubikCube.state b) ->
  (RubikCube.__eq__ a b = true <->
   RubikCube.get_state_string a = RubikCube.get_state_string b) /\
  (RubikCube.__eq__ a b = true -> RubikCube.__hash__ hash a = RubikCube.__hash__ hash b).
Proof.
  intros Ha Hb. unfold RubikCube.__eq__, RubikCube.__hash__, RubikCube.get_state_string.
  rewrite array_equal_eq. split; [split|].
  - by intros ->.
  - intros Hstr. destruct (digits_round_trip _ Ha) as [_ Ha'].
    destruct (digits_round_trip _ Hb) as [_ Hb']. rewrite Hstr in Ha'. congruence.
  - by intros ->.
Qed.

End EqualityFacts.

Lemma eq_iff_same_state_string_witness :
  (RubikCube.__eq__ cube_after_U two_facelets_exchanged = true <->
   RubikCube.get_state_string cube_after_U
   = RubikCube.get_state_string two_facelets_exchanged) /\
  (RubikCube.__eq__ cube_after_U two_facelets_exchanged = true ->
   RubikCube.__hash__ (fun s => Z.of_nat (String.length s)) cube_after_U
   = RubikCube.__hash__ (fun s => Z.of_nat (String.length s)) two_facelets_exchanged).
Proof.
  apply (eq_iff_same_state_string (fun s => Z.of_nat (String.length s))
           cube_after_U two_facelets_exchanged).
  - vm_compute. repeat constructor; discriminate.
  - vm_compute. repeat constructor; discriminate.
Defined.

Section PatternDatabaseFacts.
Import ndarray Heuristics.

Lemma pattern_step_shift cube sc a c :
  pattern_step cube sc a c = (a + pattern_step cube sc 0 c)%Z.
Proof. unfold pattern_step. repeat case_match; lia. Qed.

Lemma pattern_step_zero cube sc c :
  (0 <= pattern_step cube sc 0 c <= 3)%Z /\
  (pattern_step cube sc 0 c = 0%Z <->
   gets (RubikCube.state cube) c = gets (RubikCube.state sc) c).
Proof.
  unfold pattern_step.
  destruct (array_equal (gets _ _) _) eqn:E.
  - apply array_equal_eq in E. split; [lia|]. done.
  - assert (gets (RubikCube.state cube) c <> gets (RubikCube.state sc) c) as Hne.
    { intros Heq. apply array_equal_eq in Heq. congruence. }
    destruct (array_equal (sorted _) _); (split; [lia|]); split; (lia || done).
Qed.

(** X27: on a cube of 54 labels [pattern_database_heuristic] returns an
    integer between 0 and 24, which is 0 exactly when the 24 corner facelets
    hold the labels they hold on the solved cube; [estimate_moves_to_solve]
    is [corner_edge_heuristic]. *)
Theorem pattern_database_heuristic_zero_iff_corners (cube : RubikCube.t) :
  length (RubikCube.state cube) = 54 ->
  exists h, pattern_database_heuristic cube = Ok h /\ (0 <= h <= 24)%Z /\
    (h = 0%Z <-> forall p, In p (concat corners) ->
                   get (RubikCube.state cube) p = get RubikCube._create_solved_state p) /\
    (RubikCube.is_solved cube = true -> h = 0%Z) /\
    estimate_moves_to_solve cube = corner_edge_heuristic cube.
Proof.
  intros _. cbv beta iota zeta delta [pattern_database_heuristic rbind RubikCube.__init__].
  set (sc := {| RubikCube.state := RubikCube._create_solved_state;
                RubikCube.move_history := []; RubikCube.move_count := 0 |}).
  eexists. split; [done|].
  pose proof (fold_left_bounds (pattern_step cube sc) 3 corners 0) as Hb.
  change (Z.of_nat (length corners)) with 8%Z in Hb.
  assert (forall a x, a <= pattern_step cube sc a x <= a + 3)%Z as Hstep.
  { intros a x. rewrite pattern_step_shift. pose proof (pattern_step_zero cube sc x). lia. }
  specialize (Hb Hstep).
  destruct (fold_left_steps_zero (pattern_step cube sc) corners 0%Z
              (pattern_step_shift cube sc)
              (fun c => proj1 (proj1 (pattern_step_zero cube sc c)))) as [_ Hz].
  assert (fold_left (pattern_step cube sc) corners 0%Z = 0%Z <->
          forall p, In p (concat corners) ->
                    get (RubikCube.state cube) p = get RubikCube._create_solved_state p)
    as Hiff.
  { split.
    - intros H0 p (c & Hc & Hp)%in_concat.
      pose proof (proj1 (proj2 (pattern_step_zero cube sc c)) (Hz H0 c Hc)) as Hgets.
      clear -Hgets Hp. unfold gets in Hgets.
      induction c as [|q c IH]; [done|]. injection Hgets as Hq Hrest.
      destruct Hp as [<-|Hp]; [done|by apply IH].
    - intros Hall.
      assert (forall l acc, (forall c, In c l -> In c corners) ->
                fold_left (pattern_step cube sc) l acc = acc) as Hfold.
      { induction l as [|c l IH]; intros acc Hl; cbn [fold_left]; [done|].
        rewrite IH by (intros c' Hc'; apply Hl; by right).
        rewrite pattern_step_shift.
        assert (pattern_step cube sc 0 c = 0%Z) as ->; [|lia].
        apply (proj2 (pattern_step_zero cube sc c)). unfold gets.
        apply map_ext_in. intros p Hp. apply Hall. apply in_concat.
        exists c. split; [apply Hl; by left|done]. }
      by apply Hfold. }
  split; [lia|]. split; [exact Hiff|]. split; [|done].
  intros Hsolved. apply Hiff. intros p _.
  unfold RubikCube.is_solved in Hsolved. apply array_equal_eq in Hsolved.
  by rewrite Hsolved.
Qed.

Lemma pattern_database_heuristic_zero_iff_corners_witness :
  exists h, pattern_database_heuristic cube_after_U = Ok h /\ (0 <= h <= 24)%Z /\
    (h = 0%Z <-> forall p, In p (concat corners) ->
                   get (RubikCube.state cube_after_U) p
                   = get RubikCube._create_solved_state p) /\
    (RubikCube.is_solved cube_after_U = true -> h = 0%Z) /\
    estimate_moves_to_solve cube_after_U = corner_edge_heuristic cube_after_U.
Proof.
  apply (pattern_database_heuristic_zero_iff_corners cube_after_U). reflexivity.
Defined.

End PatternDatabaseFacts.

Section ReverseChecks.
Import AStarSolver.

(** X28: on two moves of the 18-move vocabulary the solver's
    [_is_immediate_reverse] agrees with [_are_opposite]; [_is_reverse_move]
    (that is [_quick_reverse_check]) agrees with them when the first move is
    on the face U, R or F and answers [False] on the faces L, D and B; and
    the cube's [_is_reverse_move] holds in the same cases as [_are_opposite]
    and also for a half turn and itself. None of them raises. *)
Theorem reverse_checks_compared (move1 move2 : string) :
  In move1 MoveEngine.get_all_moves -> In move2 MoveEngine.get_all_moves ->
  _is_immediate_reverse move1 move2 = Ok (_are_opposite move1 move2) /\
  _is_reverse_move move1 move2
  = Ok (_are_opposite move1 move2
        && existsb (String.eqb move1) ["U"; "U'"; "R"; "R'"; "F"; "F'"]) /\
  RubikCube._is_reverse_move move1 (Some move2)
  = (_are_opposite move1 move2 || (String.eqb move1 move2 && pystr.endswith move1 "2")).
Proof.
  intros H1 H2.
  assert (forallb (fun m1 => forallb (fun m2 =>
            match _is_immediate_reverse m1 m2, _is_reverse_move m1 m2 with
            | inr b1, inr b2 =>
                Bool.eqb b1 (_are_opposite m1 m2)
                && Bool.eqb b2 (_are_opposite m1 m2
                                && existsb (String.eqb m1) ["U"; "U'"; "R"; "R'"; "F"; "F'"])
                && Bool.eqb (RubikCube._is_reverse_move m1 (Some m2))
                            (_are_opposite m1 m2
                             || (String.eqb m1 m2 && pystr.endswith m1 "2"))
            | _, _ => false
            end) MoveEngine.get_all_moves) MoveEngine.get_all_moves = true) as Hall
    by (vm_compute; reflexivity).
  rewrite forallb_forall in Hall. specialize (Hall move1 H1).
  rewrite forallb_forall in Hall. specialize (Hall move2 H2).
  destruct (_is_immediate_reverse move1 move2) as [e1|b1]; [done|].
  destruct (_is_reverse_move move1 move2) as [e2|b2]; [done|].
  apply andb_true_iff in Hall as [[Ha Hb]%andb_true_iff Hc].
  apply Bool.eqb_prop in Ha, Hb, Hc. by rewrite Ha, Hb, Hc.
Qed.

Lemma reverse_checks_compared_witness :
  _is_immediate_reverse "L" "L'" = Ok (_are_opposite "L" "L'") /\
  _is_reverse_move "L" "L'"
  = Ok (_are_opposite "L" "L'"
        && existsb (String.eqb "L") ["U"; "U'"; "R"; "R'"; "F"; "F'"]) /\
  RubikCube._is_reverse_move "L" (Some "L'")
  = (_are_opposite "L" "L'" || (String.eqb "L" "L'" && pystr.endswith "L" "2")).
Proof.
  apply (reverse_checks_compared "L" "L'"); vm_compute; tauto.
Defined.

End ReverseChecks.

(** * Removing redundant patterns *)

Section RedundantPatternFacts.
Import MoveOptimizer.

Lemma index0_face (m : string) : m <> "" -> pystr.index0 m = Ok (face m).
Proof. by destruct m. Qed.

Lemma face_eq_of_eq (a c : string) : a = c -> String.eqb (face a) (face c) = true.
Proof. intros ->. apply String.eqb_refl. Qed.

Lemma redundant_scan_spec (fuel : nat) :
  forall before rest changed,
  Forall (fun m => m <> "") rest -> length rest <= fuel ->
  exists out changed',
    redundant_scan fuel before rest changed = Some (Ok (before ++ out, changed')) /\
    out `sublist_of` rest /\
    ((out = rest /\ changed' = changed /\ aba_free rest) \/
     (changed' = true /\ length out < length rest)).
Proof.
  induction fuel as [|fuel IH]; intros before rest changed Hne Hfuel.
  - destruct rest; [|cbn [length] in Hfuel; lia].
    exists [], changed. split; [done|]. split; [done|]. by left.
  - destruct rest as [|a [|b [|c tl]]];
      try (eexists _, changed; split; [done|]; split; [done|]; by left).
    cbn [redundant_scan].
    inversion Hne as [|? ? Ha Hne1]; subst. inversion Hne1 as [|? ? Hb Hne2]; subst.
    inversion Hne2 as [|? ? Hc Hne3]; subst.
    rewrite (index0_face a Ha), (index0_face c Hc), (index0_face b Hb).
    cbn [length] in Hfuel.
    assert (exists out changed',
              redundant_scan fuel (before ++ [a]) (b :: c :: tl) changed
              = Some (Ok (before ++ a :: out, changed')) /\
              out `sublist_of` (b :: c :: tl) /\
              ((out = b :: c :: tl /\ changed' = changed /\ aba_free (b :: c :: tl)) \/
               (changed' = true /\ length out < length (b :: c :: tl)))) as Hskip.
    { destruct (IH (before ++ [a]) (b :: c :: tl) changed Hne1) as (out & ch & Hrun & H).
      { cbn [length]. lia. }
      exists out, ch. by rewrite <- app_assoc in Hrun. }
    assert (~ (a = c /\ face a <> face b) ->
            exists out changed',
              redundant_scan fuel (before ++ [a]) (b :: c :: tl) changed
              = Some (Ok (before ++ out, changed')) /\
              out `sublist_of` (a :: b :: c :: tl) /\
              ((out = a :: b :: c :: tl /\ changed' = changed /\
                aba_free (a :: b :: c :: tl)) \/
               (changed' = true /\ length out < length (a :: b :: c :: tl)))) as Hkeep.
    { intros Hnot. destruct Hskip as (out & ch & Hrun & Hsub & Hcases).
      exists (a :: out), ch. split; [done|]. split; [by apply sublist_skip|].
      destruct Hcases as [(-> & -> & Hfree)|[-> Hlt]].
      - left. by repeat split.
      - right. split; [done|]. cbn [length] in *. lia. }
    destruct (String.eqb (face a) (face c)) eqn:Hac.
    2:{ apply Hkeep. intros [Heq _]. apply face_eq_of_eq in Heq. congruence. }
    destruct (String.eqb (face a) (face b)) eqn:Hab; cbn [negb].
    { apply Hkeep. intros [_ Hne']. by apply String.eqb_eq in Hab. }
    destruct (String.eqb a c) eqn:Heq.
    2:{ apply Hkeep. intros [Heq' _]. apply String.eqb_neq in Heq. done. }
    destruct (IH before (b :: tl) true) as (out & ch & Hrun & Hsub & Hcases).
    { by constructor. }
    { cbn [length]. lia. }
    exists out, ch. split; [done|].
    split.
    { apply sublist_cons. etrans; [exact Hsub|]. apply sublist_skip, sublist_cons. done. }
    right. apply sublist_length in Hsub. cbn [length] in *.
    split; [|lia]. by destruct Hcases as [(_ & -> & _)|[-> _]].
Qed.

Lemma redundant_scan_free (fuel : nat) :
  forall before rest changed,
  Forall (fun m => m <> "") rest -> length rest <= fuel -> aba_free rest ->
  redundant_scan fuel before rest changed = Some (Ok (before ++ rest, changed)).
Proof.
  induction fuel as [|fuel IH]; intros before rest changed Hne Hfuel Hfree.
  - by destruct rest; [|cbn [length] in Hfuel; lia].
  - destruct rest as [|a [|b [|c tl]]]; try done.
    cbn [redundant_scan].
    inversion Hne as [|? ? Ha Hne1]; subst. inversion Hne1 as [|? ? Hb Hne2]; subst.
    inversion Hne2 as [|? ? Hc Hne3]; subst.
    rewrite (index0_face a Ha), (index0_face c Hc), (index0_face b Hb).
    cbn [length] in Hfuel. destruct Hfree as [Hnot Hfree].
    assert (redundant_scan fuel (before ++ [a]) (b :: c :: tl) changed
            = Some (Ok (before ++ a :: b :: c :: tl, changed))) as Hkeep.
    { rewrite IH; [by rewrite <- app_assoc|done|cbn [length]; lia|done]. }
    destruct (String.eqb (face a) (face c)); [|done].
    destruct (String.eqb (face a) (face b)) eqn:Hab; cbn [negb]; [done|].
    destruct (String.eqb a c) eqn:Heq; [|done].
    exfalso. apply Hnot. split; [by apply String.eqb_eq|by apply String.eqb_neq].
Qed.

Lemma sublist_nonempty (out l : list string) :
  out `sublist_of` l -> Forall (fun m => m <> "") l -> Forall (fun m => m <> "") out.
Proof.
  induction 1 as [|x l1 l2 _ IH|x l1 l2 _ IH]; intros Hl; [done| |].
  - inversion Hl; subst. constructor; auto.
  - inversion Hl; subst. auto.
Qed.

Lemma redundant_loop_spec (fuel : nat) :
  forall optimized,
  Forall (fun m => m <> "") optimized -> length optimized < fuel ->
  exists out, redundant_loop fuel optimized = Some (Ok out) /\
              out `sublist_of` optimized /\ aba_free out /\
              (aba_free optimized -> out = optimized).
Proof.
  induction fuel as [|fuel IH]; intros optimized Hne Hfuel; [lia|].
  cbn [redundant_loop].
  destruct (redundant_scan_spec (length optimized) [] optimized false Hne (le_n _))
    as (out & ch & Hrun & Hsub & Hcases).
  rewrite Hrun. cbn [app].
  destruct Hcases as [(-> & -> & Hfree)|[-> Hlt]].
  - exists optimized. by repeat split.
  - destruct (IH out (sublist_nonempty _ _ Hsub Hne)) as (out' & Hrun' & Hsub' & Hfree' & _);
      [lia|].
    exists out'. split; [done|]. split; [by etrans|]. split; [done|].
    intros Hfree.
    rewrite (redundant_scan_free _ [] optimized false Hne (le_n _) Hfree) in Hrun.
    discriminate Hrun.
Qed.

(** X29: on a list of moves none of which is the empty string,
    [remove_redundant_patterns] returns (its loops end, nothing is raised) a
    list obtained from the input by deleting moves, in which no three
    consecutive moves are [a; b; a] with [b] on another face than [a]; an
    input that has no such triple is returned as it is. *)
Theorem remove_redundant_patterns_spec (moves : list string) :
  Forall (fun m => m <> "") moves ->
  exists out, remove_redundant_patterns moves = Some (Ok out) /\
              out `sublist_of` moves /\ aba_free out /\
              (aba_free moves -> out = moves).
Proof.
  intros Hne. unfold remove_redundant_patterns.
  destruct (length moves <? 3) eqn:Hlen.
  - exists moves. split; [done|]. split; [done|]. split; [|done].
    apply Nat.ltb_lt in Hlen. destruct moves as [|a [|b [|c tl]]]; try done.
    cbn [length] in Hlen. lia.
  - apply redundant_loop_spec; [done|lia].
Qed.

Lemma remove_redundant_patterns_spec_witness :
  exists out, remove_redundant_patterns ["R"; "U"; "R"; "F2"; "U"] = Some (Ok out) /\
              out `sublist_of` ["R"; "U"; "R"; "F2"; "U"] /\ aba_free out /\
              (aba_free ["R"; "U"; "R"; "F2"; "U"] -> out = ["R"; "U"; "R"; "F2"; "U"]).
Proof.
  apply (remove_redundant_patterns_spec ["R"; "U"; "R"; "F2"; "U"]).
  repeat constructor; discriminate.
Defined.

End RedundantPatternFacts.

(** * Analysis of a move sequence *)

Section AnalysisFacts.
Import utils.

Lemma dict_get_set {V} (d : list (string * V)) (k k' : string) (v : V) :
  MoveEngine.dict_get (dict_set d k v) k'
  = if String.eqb k' k then Some v else MoveEngine.dict_get d k'.
Proof.
  induction d as [|[k0 v0] d IH]; cbn [dict_set MoveEngine.dict_get].
  - done.
  - destruct (String.eqb_spec k k0) as [->|Hne]; cbn [MoveEngine.dict_get].
    + by destruct (String.eqb k' k0).
    + destruct (String.eqb_spec k' k0) as [->|Hne'].
      * by destruct (String.eqb_spec k0 k) as [->|_].
      * apply IH.
Qed.

Lemma dict_set_keys {V} (d : list (string * V)) (k : string) (v : V) :
  (forall f, In f (map fst (dict_set d k v)) <-> f = k \/ In f (map fst d)) /\
  (List.NoDup (map fst d) -> List.NoDup (map fst (dict_set d k v))).
Proof.
  induction d as [|[k0 v0] d [IHin IHnd]]; cbn [dict_set map fst].
  - split; [intros f; cbn [In]; intuition|]. intros _. constructor; [intros []|constructor].
  - destruct (String.eqb_spec k k0) as [->|Hne]; cbn [map fst].
    + split; [intros f; cbn [In]; intuition|done].
    + split.
      * intros f. cbn [In]. rewrite IHin. intuition.
      * intros Hnd. inversion Hnd as [|? ? Hk0 Hnd']; subst.
        constructor; [|by apply IHnd]. rewrite IHin. intuition.
Qed.

Lemma dict_set_sum (d : list (string * Z)) (k : string) (v : Z) :
  fold_right Z.add 0%Z (map snd (dict_set d k v))
  = (fold_right Z.add 0%Z (map snd d) - dict_get_default d k 0 + v)%Z.
Proof.
  unfold dict_get_default.
  induction d as [|[k0 v0] d IH]; cbn [dict_set MoveEngine.dict_get map snd fold_right].
  - lia.
  - destruct (String.eqb k k0); cbn [map snd fold_right]; [lia|]. rewrite IH. lia.
Qed.

Lemma count_faces_spec (moves : list string) :
  forall fd, Forall (fun m => m <> "") moves -> List.NoDup (map fst fd) ->
  exists fd', count_faces moves fd = Ok fd' /\ List.NoDup (map fst fd') /\
    (forall f, In f (map fst fd') <-> In f (map fst fd) \/ In f (map face moves)) /\
    (forall f, dict_get_default fd' f 0%Z
               = (dict_get_default fd f 0%Z
                  + Z.of_nat (count_occ string_dec (map face moves) f))%Z) /\
    fold_right Z.add 0%Z (map snd fd')
    = (fold_right Z.add 0%Z (map snd fd) + Z.of_nat (length moves))%Z.
Proof.
  induction moves as [|m moves IH]; intros fd Hne Hnd; cbn [count_faces].
  - exists fd. split; [done|]. split; [done|]. split; [cbn [map In]; intuition|].
    split; [intros f; cbn [map count_occ]; lia|]. cbn [length]. lia.
  - inversion Hne as [|? ? Hm Hne']; subst.
    rewrite (index0_face m Hm). cbn [rbind].
    set (fd1 := dict_set fd (face m) (dict_get_default fd (face m) 0 + 1)%Z).
    destruct (dict_set_keys fd (face m) (dict_get_default fd (face m) 0 + 1)%Z)
      as [Hkeys Hnd1].
    destruct (IH fd1 Hne' (Hnd1 Hnd)) as (fd' & Hrun & Hnd' & Hin & Hget & Hsum).
    exists fd'. split; [done|]. split; [done|]. split; [|split].
    + intros f. rewrite Hin. unfold fd1. rewrite Hkeys. cbn [map In]. intuition.
    + intros f. rewrite Hget. unfold fd1, dict_get_default at 1. rewrite dict_get_set.
      cbn [map count_occ]. destruct (string_dec (face m) f) as [->|Hne1].
      * rewrite String.eqb_refl. lia.
      * destruct (String.eqb_spec f (face m)) as [->|_]; [done|].
        unfold dict_get_default. lia.
    + rewrite Hsum. unfold fd1. rewrite dict_set_sum. cbn [length]. lia.
Qed.

Lemma count_types_spec (moves : list string) :
  forall quarter half prime : Z,
  count_types moves [("quarter", quarter); ("half", half); ("prime", prime)]
  = Ok [ ("quarter",
          (quarter + Z.of_nat (length (List.filter
             (fun m => negb (pystr.endswith m "2") && negb (pystr.endswith m "'")) moves)))%Z);
         ("half",
          (half + Z.of_nat (length (List.filter (fun m => pystr.endswith m "2") moves)))%Z);
         ("prime",
          (prime + Z.of_nat (length (List.filter
             (fun m => negb (pystr.endswith m "2") && pystr.endswith m "'") moves)))%Z) ].
Proof.
  induction moves as [|m moves IH]; intros quarter half prime.
  - cbn [count_types List.filter length]. by rewrite !Z.add_0_r.
  - cbn [count_types List.filter].
    destruct (pystr.endswith m "2"); [|destruct (pystr.endswith m "'")];
      cbn [negb andb MoveEngine.dict_get dict_set String.eqb Ascii.eqb Bool.eqb length];
      rewrite IH;
      repeat match goal with
             | |- inr _ = inr _ => f_equal
             | |- _ :: _ = _ :: _ => f_equal
             | |- (_, _) = (_, _) => f_equal
             end; lia.
Qed.

Lemma filter_three_way {A} (p q : A -> bool) (l : list A) :
  length (List.filter (fun x => negb (p x) && negb (q x)) l)
  + length (List.filter p l)
  + length (List.filter (fun x => negb (p x) && q x) l) = length l.
Proof.
  induction l as [|x l IH]; [done|]. cbn [List.filter].
  destruct (p x), (q x); cbn [negb andb length]; lia.
Qed.

(** X30: [analyze_move_sequence] of the empty list is the dictionary with
    the single key [total_moves] at 0. On a non-empty list of non-empty
    moves it returns the four keys: [total_moves] is the length;
    [unique_moves] the number of distinct moves, between 1 and the length;
    [face_distribution] has one key for each face letter that occurs, with
    the number of moves on that face, and its values add up to the length;
    the three counts of [move_type_distribution] are the numbers of moves
    ending in 2, of moves ending in an apostrophe, and of the others, and
    add up to the length. *)
Theorem analyze_move_sequence_counts (moves : list string) :
  Forall (fun m => m <> "") moves ->
  match moves with
  | [] => analyze_move_sequence moves = Ok [("total_moves", VInt 0)]
  | _ =>
      exists unique face_distribution quarter half prime,
        analyze_move_sequence moves
        = Ok [ ("total_moves", VInt (Z.of_nat (length moves)));
               ("unique_moves", VInt unique);
               ("face_distribution", VDict face_distribution);
               ("move_type_distribution",
                VDict [("quarter", quarter); ("half", half); ("prime", prime)]) ] /\
        unique = Z.of_nat (length (nodup string_dec moves)) /\
        (1 <= unique <= Z.of_nat (length moves))%Z /\
        List.NoDup (map fst face_distribution) /\
        (forall f, In f (map fst face_distribution) <-> In f (map face moves)) /\
        (forall f, dict_get_default face_distribution f 0%Z
                   = Z.of_nat (count_occ string_dec (map face moves) f)) /\
        fold_right Z.add 0%Z (map snd face_distribution) = Z.of_nat (length moves) /\
        half = Z.of_nat (length (List.filter (fun m => pystr.endswith m "2") moves)) /\
        prime = Z.of_nat (length (List.filter
                  (fun m => negb (pystr.endswith m "2") && pystr.endswith m "'") moves)) /\
        (quarter + half + prime)%Z = Z.of_nat (length moves)
  end.
Proof.
  intros Hne. destruct moves as [|m0 moves0] eqn:Hmoves; [done|]. rewrite <- Hmoves in *.
  assert (analyze_move_sequence moves
          = rbind (count_faces moves []) (fun face_distribution =>
            rbind (count_types moves [("quarter", 0%Z); ("half", 0%Z); ("prime", 0%Z)])
                  (fun move_type_distribution =>
            Ok [ ("total_moves", VInt (Z.of_nat (length moves)));
                 ("unique_moves", VInt (Z.of_nat (length (nodup string_dec moves))));
                 ("face_distribution", VDict face_distribution);
                 ("move_type_distribution", VDict move_type_distribution) ]))) as ->
    by by rewrite Hmoves.
  destruct (count_faces_spec moves [] Hne ltac:(constructor))
    as (fd & -> & Hnd & Hin & Hget & Hsum).
  rewrite count_types_spec. cbn [rbind].
  eexists _, fd, _, _, _. split; [reflexivity|]. split; [reflexivity|]. split.
  { pose proof (List.NoDup_incl_length (List.NoDup_nodup string_dec moves)
                  (fun x => proj1 (nodup_In string_dec moves x))) as Hle.
    assert (In m0 (nodup string_dec moves)) as Hin0
      by (apply nodup_In; rewrite Hmoves; by left).
    destruct (nodup string_dec moves); [done|]. cbn [length] in *. lia. }
  split; [done|]. split; [intros f; rewrite Hin; cbn [map In]; intuition|].
  split; [intros f; rewrite Hget; by cbn|]. split; [rewrite Hsum; cbn; lia|].
  split; [lia|]. split; [lia|].
  pose proof (filter_three_way (fun m => pystr.endswith m "2")
                (fun m => pystr.endswith m "'") moves). lia.
Qed.

Lemma analyze_move_sequence_counts_witness :
  exists unique face_distribution quarter half prime,
    analyze_move_sequence ["U"; "R2"; "U'"]
    = Ok [ ("total_moves", VInt (Z.of_nat (length ["U"; "R2"; "U'"])));
           ("unique_moves", VInt unique);
           ("face_distribution", VDict face_distribution);
           ("move_type_distribution",
            VDict [("quarter", quarter); ("half", half); ("prime", prime)]) ] /\
    unique = Z.of_nat (length (nodup string_dec ["U"; "R2"; "U'"])) /\
    (1 <= unique <= Z.of_nat (length ["U"; "R2"; "U'"]))%Z /\
    List.NoDup (map fst face_distribution) /\
    (forall f, In f (map fst face_distribution) <-> In f (map face ["U"; "R2"; "U'"])) /\
    (forall f, dict_get_default face_distribution f 0%Z
               = Z.of_nat (count_occ string_dec (map face ["U"; "R2"; "U'"]) f)) /\
    fold_right Z.add 0%Z (map snd face_distribution)
    = Z.of_nat (length ["U"; "R2"; "U'"]) /\
    half = Z.of_nat (length (List.filter (fun m => pystr.endswith m "2")
                                         ["U"; "R2"; "U'"])) /\
    prime = Z.of_nat (length (List.filter
              (fun m => negb (pystr.endswith m "2") && pystr.endswith m "'")
              ["U"; "R2"; "U'"])) /\
    (quarter + half + prime)%Z = Z.of_nat (length ["U"; "R2"; "U'"]).
Proof.
  apply (analyze_move_sequence_counts ["U"; "R2"; "U'"]).
  repeat constructor; discriminate.
Defined.

End AnalysisFacts.
